(** * Square-size estimation and share sequences of celestia-app

    A shallow embedding of [app/estimate_square_size.go] together with the
    parts of the [shares] and [appconsts] packages it relies on, the
    properties the design document states about them, and further
    properties of the code: what the estimates depend on, how far they are
    from what is needed, and what [shareWithData] writes.

    Conventions.
    - Go's [int] is the 64-bit two's-complement integer, [uint64] and
      [uint32] the unsigned ones; every operation writes its wrap-around out
      ([GoInt.int], [GoInt.uint64], [GoInt.uint32]).
    - A byte is an integer in [0, 256); a byte slice is a list of bytes.
    - [float64] is IEEE-754 binary64, given by the executable specification
      [SpecFloat] with [prec = 53] and [emax = 1024].
    - A panic, and a conversion whose result Go leaves to the implementation,
      is [None]; a function that returns a value and an error returns a pair,
      the error [None] when it is nil. *)

From Stdlib Require Import ZArith List Lia Bool.
From Stdlib Require Import Floats.SpecFloat.
From Stdlib Require Import Sorting.Permutation.
Import ListNotations.
Local Open Scope Z_scope.

(** ** Machine integers *)

Module GoInt.

Definition uint64 (z : Z) : Z := z mod 2 ^ 64.
Definition uint32 (z : Z) : Z := z mod 2 ^ 32.
Definition int (z : Z) : Z := (z + 2 ^ 63) mod 2 ^ 64 - 2 ^ 63.

Definition len {A : Type} (l : list A) : Z := Z.of_nat (length l).

End GoInt.
Import GoInt.

Abbreviation byte := Z (only parsing).

Notation "x <- e ;; k" := (match e with Some x => k | None => None end)
  (at level 61, e at next level, right associativity, only parsing).

(** ** Constants of package [appconsts]

    The package is not among the source files; its constants are taken as a
    parameter of the development. *)

Record appconsts := {
  ShareSize : Z;
  NamespaceSize : Z;
  DefaultMinSquareSize : Z;
  DefaultMaxSquareSize : Z;
  FirstCompactShareContentSize : Z;
  ContinuationCompactShareContentSize : Z;
  FirstSparseShareContentSize : Z;
  ContinuationSparseShareContentSize : Z;
  TxNamespaceID : list byte;
  TailPaddingNamespaceID : list byte;
  ReservedPaddingNamespaceID : list byte
}.

(** The values of the network this code was written for: 512-byte shares,
    8-byte namespaces, squares of side 1 to 128. *)
Definition mainnet : appconsts := {|
  ShareSize := 512;
  NamespaceSize := 8;
  DefaultMinSquareSize := 1;
  DefaultMaxSquareSize := 128;
  FirstCompactShareContentSize := 495;
  ContinuationCompactShareContentSize := 499;
  FirstSparseShareContentSize := 499;
  ContinuationSparseShareContentSize := 503;
  TxNamespaceID := [0; 0; 0; 0; 0; 0; 0; 1];
  TailPaddingNamespaceID := [255; 255; 255; 255; 255; 255; 255; 254];
  ReservedPaddingNamespaceID := [0; 0; 0; 0; 0; 0; 0; 255]
|}.

(** ** Varints and the index wrapper *)

(** [binary.PutUvarint]: seven bits per byte, least significant group first,
    the high bit set on every byte but the last.  Ten bytes hold any
    [uint64]. *)
Fixpoint PutUvarint_from (fuel : nat) (x : Z) : list byte :=
  match fuel with
  | O => [x mod 256]
  | S fuel' =>
      if 128 <=? x
      then Z.lor (x mod 256) 128 :: PutUvarint_from fuel' (Z.shiftr x 7)
      else [x mod 256]
  end.

Definition MaxVarintLen64 : nat := 10.

Definition PutUvarint (x : Z) : list byte :=
  PutUvarint_from (pred MaxVarintLen64) (uint64 x).

(** Modelled from the spec: [shares.DelimLen] is not among the source files;
    section 4.2 has every item prefixed by a minimal-length varint delimiter,
    and [DelimLen] is the length of that delimiter. *)
Definition DelimLen (size : Z) : Z := len (PutUvarint size).

(** [coretypes.MarshalIndexWrapper] belongs to the consensus library, not to
    this repository.  It serialises the protobuf message
    [IndexWrapper { bytes tx = 1; uint32 share_index = 2; string type_id = 3 }]
    with [type_id] set to the four letters INDX; proto3 leaves out a field
    that holds its zero value.  An error is [None]. *)
Definition ProtoIndexWrapperTypeID : list byte := [73; 78; 68; 88].

Definition MarshalIndexWrapper (shareIndex : Z) (tx : list byte)
  : option (list byte) :=
  Some ((if len tx =? 0 then [] else 10 :: PutUvarint (len tx) ++ tx)
        ++ (if shareIndex =? 0 then [] else 16 :: PutUvarint shareIndex)
        ++ 26 :: PutUvarint (len ProtoIndexWrapperTypeID)
        ++ ProtoIndexWrapperTypeID).

(** ** Parsed transactions *)

(** Modelled from the spec: the declarations of [parsedTx] and of the
    processed blob transaction are not among the source files.  Section 3
    has a parsed transaction carry either plain bytes or the bytes of a
    blob-bearing transaction and its blobs, each blob with a usable-data
    length; the code tells the two apart by [len(normalTx) != 0] and reads
    [blobTx.Tx] and [blobTx.DataUsed()]. *)
Record Blob := { Data : list byte }.

Record BlobTx := { Tx : list byte; Blobs : list Blob }.

Record parsedTx := { normalTx : list byte; blobTx : BlobTx }.

Definition DataUsed (b : BlobTx) : Z :=
  fold_left (fun used bl => int (used + len (Data bl))) (Blobs b) 0.

Definition plainTx (raw : list byte) : parsedTx :=
  {| normalTx := raw; blobTx := {| Tx := []; Blobs := [] |} |}.

Definition blobBearingTx (raw : list byte) (blobs : list Blob) : parsedTx :=
  {| normalTx := []; blobTx := {| Tx := raw; Blobs := blobs |} |}.

(** ** Share counting *)

(** Modelled from the spec: [shares.CompactSharesNeeded] and
    [shares.SparseSharesNeeded] are not among the source files.  Sections 4.2
    to 4.4 count shares by capacity: nothing for an empty sequence, the first
    share holds the first-share capacity, every further share the
    continuation capacity. *)
Fixpoint sharesNeeded_loop (fuel : nat) (cont bytesAvailable sharesNeeded
                                         sequenceLen : Z) : Z :=
  match fuel with
  | O => sharesNeeded
  | S fuel' =>
      if bytesAvailable <? sequenceLen
      then sharesNeeded_loop fuel' cont (bytesAvailable + cont)
                             (sharesNeeded + 1) sequenceLen
      else sharesNeeded
  end.

Definition sharesNeeded (first cont sequenceLen : Z) : Z :=
  if sequenceLen =? 0 then 0
  else sharesNeeded_loop (Z.to_nat sequenceLen) cont first 1 sequenceLen.

Section WithConsts.

Variable c : appconsts.

Definition CompactSharesNeeded (sequenceLen : Z) : Z :=
  sharesNeeded (FirstCompactShareContentSize c)
               (ContinuationCompactShareContentSize c) sequenceLen.

Definition SparseSharesNeeded (sequenceLen : Z) : Z :=
  sharesNeeded (FirstSparseShareContentSize c)
               (ContinuationSparseShareContentSize c) sequenceLen.

(** ** [maxWrappedTxOverhead] *)

Definition maxWrappedTxOverhead (squareSize : Z) : option Z :=
  let maxTxLen :=
    uint64 (uint64 (squareSize * squareSize)
            * ContinuationCompactShareContentSize c) in
  wtx <- MarshalIndexWrapper (uint32 (uint64 (squareSize * squareSize)))
                             (repeat 0 (Z.to_nat maxTxLen)) ;;
  Some (int (len wtx - int maxTxLen)).

(** ** [estimateCompactShares] *)

(** One turn of the loop over the transactions. *)
Definition addTxLen (maxWTxOverhead txbytes : Z) (pTx : parsedTx) : Z :=
  if negb (len (normalTx pTx) =? 0) then
    let txLen := len (normalTx pTx) in
    let txLen := int (txLen + DelimLen (uint64 txLen)) in
    int (txbytes + txLen)
  else
    let txLen := int (len (Tx (blobTx pTx)) + maxWTxOverhead) in
    let txLen := int (txLen + DelimLen (uint64 txLen)) in
    int (txbytes + txLen).

(** The part after the loop. *)
Definition sharesForBytes (txbytes : Z) : Z :=
  let sharesUsed := 1 in
  if txbytes <=? FirstCompactShareContentSize c then sharesUsed
  else
    let txbytes := int (txbytes - FirstCompactShareContentSize c) in
    int (sharesUsed
         + int (int (Z.quot txbytes (ContinuationCompactShareContentSize c))
                + 1)).

Definition estimateCompactShares (squareSize : Z) (ptxs : list parsedTx)
  : option Z :=
  maxWTxOverhead <- maxWrappedTxOverhead squareSize ;;
  let txbytes := fold_left (addTxLen maxWTxOverhead) ptxs 0 in
  Some (sharesForBytes txbytes).

End WithConsts.

(** ** Floating point *)

Module Float64.

Definition prec : Z := 53.
Definition emax : Z := 1024.

Definition float64 := spec_float.

(** [float64(n)] for an integer [n]: the nearest binary64, ties to even. *)
Definition of_int (n : Z) : float64 := binary_normalize prec emax n 0 false.

Definition mul : float64 -> float64 -> float64 := SFmul prec emax.

(** [math.Sqrt]. *)
Definition Sqrt : float64 -> float64 := SFsqrt prec emax.

(** Go's [x <= y] on floats: false when either side is not a number. *)
Definition leb : float64 -> float64 -> bool := SFleb.

(** The least integer that is not below the finite number
    [(-1)^s * m * 2^e]. *)
Definition ceil_finite (s : bool) (m : positive) (e : Z) : Z :=
  let v := cond_Zopp s (Zpos m) in
  if 0 <=? e then v * 2 ^ e else - ((- v) / 2 ^ (- e)).

(** [math.Ceil]: zeros, infinities and not-a-number are returned as they are;
    a number in (-1, 0) gives the negative zero. *)
Definition Ceil (x : float64) : float64 :=
  match x with
  | S754_finite s m e => binary_normalize prec emax (ceil_finite s m e) 0 s
  | _ => x
  end.

(** [uint64(x)]: the fraction is dropped.  When the result does not fit, Go
    leaves the value to the implementation: [None]. *)
Definition to_uint64 (x : float64) : option Z :=
  match x with
  | S754_zero _ => Some 0
  | S754_finite s m e =>
      let v := cond_Zopp s (Zpos m) in
      let t := if 0 <=? e then v * 2 ^ e else Z.quot v (2 ^ (- e)) in
      if (0 <=? t) && (t <? 2 ^ 64) then Some t else None
  | _ => None
  end.

(** The literals [1] and [1.35] as binary64: 1.35 is not representable, the
    compiler takes the nearest value, 0x1.599999999999ap+0. *)
Definition one : float64 := S754_finite false 4503599627370496 (-52).
Definition c1_35 : float64 := S754_finite false 6079859496950170 (-52).

End Float64.

(** Modelled from the spec: [shares.RoundUpPowerOfTwo] is not among the
    source files; step 5 of section 4.6 rounds up to the next power of two,
    the least power of two that is not below the input. *)
Definition RoundUpPowerOfTwo (input : Z) : Z := 2 ^ Z.log2_up input.

Section Estimator.

Variable c : appconsts.

(** ** [estimateSquareSize] *)

(** One turn of the loop over the blobs. *)
Definition addBlobShares (blobSharesUsed : Z) (ptx : parsedTx) : Z :=
  if negb (len (normalTx ptx) =? 0) then blobSharesUsed
  else int (blobSharesUsed
            + SparseSharesNeeded c (uint32 (DataUsed (blobTx ptx)))).

(** Steps 4 and 5: inflate by 1.35, take the square root, round up. *)
Definition minSizeOf (totalSharesUsed : Float64.float64) : option Z :=
  let totalSharesUsed := Float64.mul totalSharesUsed Float64.c1_35 in
  Float64.to_uint64 (Float64.Ceil (Float64.Sqrt totalSharesUsed)).

(** Step 6. *)
Definition clampSquareSize (squareSize : Z) : Z :=
  let squareSize :=
    if DefaultMaxSquareSize c <=? squareSize then DefaultMaxSquareSize c
    else squareSize in
  if squareSize <=? DefaultMinSquareSize c then DefaultMinSquareSize c
  else squareSize.

Definition estimateSquareSize (txs : list parsedTx) : option (Z * Z) :=
  txSharesUsed <- estimateCompactShares c (DefaultMaxSquareSize c) txs ;;
  let blobSharesUsed := fold_left addBlobShares txs 0 in
  let totalSharesUsed :=
    Float64.of_int (int (txSharesUsed + blobSharesUsed)) in
  if Float64.leb totalSharesUsed Float64.one
  then Some (DefaultMinSquareSize c, txSharesUsed)
  else
    minSize <- minSizeOf totalSharesUsed ;;
    let squareSize := uint64 (RoundUpPowerOfTwo minSize) in
    Some (clampSquareSize squareSize, txSharesUsed).

End Estimator.

(** ** What the design document says of the byte total

    Section 4.6, step 1, in its own words: a plain transaction contributes
    its raw length plus a delimiter; a blob-bearing transaction adds the
    overhead of section 4.5 before its delimiter is sized. *)
Definition txContribution (overhead : Z) (pTx : parsedTx) : Z :=
  if len (normalTx pTx) =? 0 then
    let augmented := len (Tx (blobTx pTx)) + overhead in
    augmented + DelimLen augmented
  else
    len (normalTx pTx) + DelimLen (len (normalTx pTx)).

Definition byteTotal (overhead : Z) (ptxs : list parsedTx) : Z :=
  fold_right (fun pTx total => txContribution overhead pTx + total) 0 ptxs.

(** Section 4.6, step 2: the sparse shares of the blobs of one
    transaction, and of all of them. *)
Definition blobContribution (c : appconsts) (ptx : parsedTx) : Z :=
  if len (normalTx ptx) =? 0
  then SparseSharesNeeded c (uint32 (DataUsed (blobTx ptx)))
  else 0.

Definition blobTotal (c : appconsts) (ptxs : list parsedTx) : Z :=
  fold_right (fun ptx total => blobContribution c ptx + total) 0 ptxs.

(** Step 3: the sum of both estimates, as the code takes it. *)
Definition totalSharesUsed (c : appconsts) (txSharesUsed : Z)
                           (txs : list parsedTx) : Z :=
  int (txSharesUsed + fold_left (addBlobShares c) txs 0).

Definition isPowerOfTwo (n : Z) : Prop := exists k, 0 <= k /\ n = 2 ^ k.

(** ** Assumptions on the constants and on the input

    The constants are those of a network: square sides are powers of two
    below 2^16, capacities are positive and below 2^31, and a continuation
    share holds at least two bytes. *)
Definition consts_ok (c : appconsts) : Prop :=
  1 <= DefaultMinSquareSize c <= DefaultMaxSquareSize c /\
  DefaultMinSquareSize c = 2 ^ Z.log2 (DefaultMinSquareSize c) /\
  DefaultMaxSquareSize c = 2 ^ Z.log2 (DefaultMaxSquareSize c) /\
  DefaultMaxSquareSize c < 2 ^ 16 /\
  1 <= FirstCompactShareContentSize c < 2 ^ 31 /\
  2 <= ContinuationCompactShareContentSize c < 2 ^ 31 /\
  1 <= FirstSparseShareContentSize c < 2 ^ 31 /\
  1 <= ContinuationSparseShareContentSize c < 2 ^ 31.

(** The bytes of the transactions themselves, blobs aside. *)
Definition txBytesHeld (ptxs : list parsedTx) : Z :=
  fold_right (fun pTx total =>
                len (normalTx pTx) + len (Tx (blobTx pTx)) + total) 0 ptxs.

(** The transactions are slices held in memory: fewer than 2^30 of them,
    with fewer than 2^62 bytes in all, so that no sum the estimator takes
    leaves the range of [int]. *)
Definition fitsMemory (ptxs : list parsedTx) : Prop :=
  len ptxs < 2 ^ 30 /\ txBytesHeld ptxs < 2 ^ 62.

(** ** Shares and share sequences

    Modelled from the spec: of package [shares] the source files hold the
    tests only.  What follows is sections 3 and 4.1 to 4.4 of the design
    document, with the helper [shareWithData] of the tests. *)

Inductive ShareError :=
  | InvalidShareVersion
  | OversizedContent
  | EmptySequence
  | MissingSequenceStart
  | SequenceLenMismatch
  | MarshalFailure.

Inductive result (A : Type) :=
  | Ok (a : A)
  | Err (e : ShareError).

Arguments Ok {A} a.
Arguments Err {A} e.

Definition ShareInfoBytes : Z := 1.
Definition SequenceLenBytes : Z := 4.
Definition ShareVersionZero : Z := 0.

(** [binary.BigEndian.PutUint32] and [binary.BigEndian.Uint32]. *)
Definition PutUint32 (v : Z) : list byte :=
  [Z.shiftr v 24 mod 256; Z.shiftr v 16 mod 256;
   Z.shiftr v 8 mod 256; v mod 256].

Definition Uint32 (b : list byte) : Z :=
  nth 0 b 0 * 2 ^ 24 + nth 1 b 0 * 2 ^ 16 + nth 2 b 0 * 2 ^ 8 + nth 3 b 0.

(** Section 3: the info byte is [(shareVersion << 1) | isSequenceStart];
    only version 0 is valid. *)
Definition NewInfoByte (version : Z) (isSequenceStart : bool) : result byte :=
  if version =? ShareVersionZero
  then Ok (Z.lor (Z.shiftl version 1) (if isSequenceStart then 1 else 0))
  else Err InvalidShareVersion.

Definition bytes_eqb (a b : list byte) : bool :=
  if list_eq_dec Z.eq_dec a b then true else false.

Definition allZero (b : list byte) : bool := forallb (Z.eqb 0) b.

Record ShareSequence := { NamespaceID : list byte; Shares : list (list byte) }.

(** The bytes a list of transactions is written as: each one after its
    delimiter. *)
Definition delimited (txs : list (list byte)) : list byte :=
  concat (map (fun tx => PutUvarint (len tx) ++ tx) txs).

Section Shares.

Variable c : appconsts.

(** [padShare]: zero bytes on the right up to [ShareSize].  The tests use its
    result as a share, without an error. *)
Definition padShare (raw : list byte) : list byte :=
  raw ++ repeat 0 (Z.to_nat (ShareSize c - len raw)).

(** [shareWithData], from the tests. *)
Definition shareWithData (namespace : list byte) (isSequenceStart : bool)
                         (sequenceLen : Z) (data : list byte) : list byte :=
  let infoByte :=
    match NewInfoByte ShareVersionZero isSequenceStart with
    | Ok b => b
    | Err _ => 0
    end in
  let rawShare := namespace ++ [infoByte] in
  let rawShare :=
    if isSequenceStart then rawShare ++ PutUint32 sequenceLen
    else rawShare in
  padShare (rawShare ++ data).

(** The fields of a share, by the layout of section 3. *)
Definition infoByteOf (share : list byte) : byte :=
  nth (Z.to_nat (NamespaceSize c)) share 0.

Definition IsSequenceStart (share : list byte) : bool :=
  Z.odd (infoByteOf share).

(** The declared sequence length; a share that does not start a sequence
    declares none, and counts as declaring zero. *)
Definition SequenceLen (share : list byte) : Z :=
  if IsSequenceStart share
  then Uint32 (skipn (Z.to_nat (NamespaceSize c + ShareInfoBytes)) share)
  else 0.

(** The content bytes: what follows the header, padding included. *)
Definition shareContent (share : list byte) : list byte :=
  skipn (Z.to_nat (NamespaceSize c + ShareInfoBytes
                   + (if IsSequenceStart share then SequenceLenBytes else 0)))
        share.

(** Section 4.1: the filler shares hold no content. *)
Definition NamespacePaddingShare (namespace : list byte) : list byte :=
  shareWithData namespace true 0 [].

Definition TailPaddingShare : list byte :=
  NamespacePaddingShare (TailPaddingNamespaceID c).

Definition ReservedPaddingShare : list byte :=
  NamespacePaddingShare (ReservedPaddingNamespaceID c).

(** Section 4.4, [RawData]: the data and the error.  A failure comes with
    the empty slice, which is what the tests compare on the sequence of no
    shares. *)
Definition RawData (s : ShareSequence) : list byte * option ShareError :=
  match Shares s with
  | [] => ([], Some EmptySequence)
  | first :: _ =>
      if IsSequenceStart first then
        let data :=
          fold_left (fun data share => data ++ shareContent share)
                    (Shares s) [] in
        (firstn (Z.to_nat (SequenceLen first)) data, None)
      else ([], Some MissingSequenceStart)
  end.

(** Section 4.4: a sequence under the tail-padding or the reserved-padding
    namespace, and a single share whose content is the padding pattern (all
    zero), is padding. *)
Definition isPadding (s : ShareSequence) : bool :=
  bytes_eqb (NamespaceID s) (TailPaddingNamespaceID c)
  || bytes_eqb (NamespaceID s) (ReservedPaddingNamespaceID c)
  || match Shares s with
     | [share] => allZero (shareContent share)
     | _ => false
     end.

(** The share count the declared length asks for, by the capacities of the
    splitter the namespace belongs to. *)
Definition numberOfSharesNeeded (s : ShareSequence) (first : list byte) : Z :=
  if bytes_eqb (NamespaceID s) (TxNamespaceID c)
  then CompactSharesNeeded c (SequenceLen first)
  else SparseSharesNeeded c (SequenceLen first).

(** Section 4.4, [validSequenceLen]. *)
Definition validSequenceLen (s : ShareSequence) : result unit :=
  match Shares s with
  | [] => Err EmptySequence
  | first :: _ =>
      if isPadding s then Ok tt
      else if negb (numberOfSharesNeeded s first =? len (Shares s))
              || negb (IsSequenceStart first)
      then Err SequenceLenMismatch
      else Ok tt
  end.

(** *** The compact share splitter, section 4.2 *)

Record CompactShareSplitter := {
  css_namespace : list byte;
  css_version : Z;
  css_shares : list (list byte);
  css_pending : list byte;
  css_remaining : Z;
  css_written : Z
}.

Definition NewCompactShareSplitter (namespace : list byte) (version : Z)
  : CompactShareSplitter :=
  {| css_namespace := namespace;
     css_version := version;
     css_shares := [];
     css_pending := [];
     css_remaining := FirstCompactShareContentSize c;
     css_written := 0 |}.

(** Close the current share, zero-padded, and open a continuation share. *)
Definition closeShare (css : CompactShareSplitter) : CompactShareSplitter :=
  {| css_namespace := css_namespace css;
     css_version := css_version css;
     css_shares :=
       css_shares css
       ++ [css_pending css ++ repeat 0 (Z.to_nat (css_remaining css))];
     css_pending := [];
     css_remaining := ContinuationCompactShareContentSize c;
     css_written := css_written css |}.

(** One byte; a full share is closed when the next byte arrives. *)
Definition writeByte (css : CompactShareSplitter) (b : byte)
  : CompactShareSplitter :=
  let css := if css_remaining css =? 0 then closeShare css else css in
  {| css_namespace := css_namespace css;
     css_version := css_version css;
     css_shares := css_shares css;
     css_pending := css_pending css ++ [b];
     css_remaining := css_remaining css - 1;
     css_written := css_written css + 1 |}.

(** A write: when the remaining budget cannot hold the delimiter the
    current share is closed first; then the delimiter and the content go in,
    across share boundaries where needed. *)
Definition WriteTx (css : CompactShareSplitter) (tx : list byte)
  : CompactShareSplitter :=
  let delim := PutUvarint (len tx) in
  let css := if css_remaining css <? len delim then closeShare css else css in
  fold_left writeByte (delim ++ tx) css.

(** The shares of the contents: the header, the content, the padding. *)
Definition buildShare (namespace : list byte) (infoByte : byte)
                      (sequenceLen : option Z) (content : list byte)
  : list byte :=
  padShare (namespace ++ [infoByte]
            ++ match sequenceLen with
               | Some n => PutUint32 n
               | None => []
               end
            ++ content).

Definition Export (css : CompactShareSplitter) (startIndex : Z)
  : result (list (list byte) * Z) :=
  if css_written css =? 0 then Ok ([], startIndex)
  else
    match NewInfoByte (css_version css) true,
          NewInfoByte (css_version css) false with
    | Ok startByte, Ok contByte =>
        match css_shares css ++ [css_pending css] with
        | [] => Ok ([], startIndex)
        | first :: rest =>
            let shares :=
              buildShare (css_namespace css) startByte
                         (Some (uint32 (css_written css))) first
              :: map (buildShare (css_namespace css) contByte None) rest in
            Ok (shares, startIndex + len shares)
        end
    | Err e, _ => Err e
    | _, Err e => Err e
    end.

(** Split a list of transactions and export once, from index 0. *)
Definition splitTxs (txs : list (list byte)) : result (list (list byte) * Z) :=
  Export (fold_left WriteTx txs
            (NewCompactShareSplitter (TxNamespaceID c) ShareVersionZero)) 0.

(** No write finds a share with room left, but not enough for its
    delimiter: no padding inside the sequence. *)
Fixpoint noDelimiterPadding (css : CompactShareSplitter)
                            (txs : list (list byte)) : bool :=
  match txs with
  | [] => true
  | tx :: txs' =>
      ((css_remaining css =? 0)
       || (len (PutUvarint (len tx)) <=? css_remaining css))
      && noDelimiterPadding (WriteTx css tx) txs'
  end.

(** *** What the splitter holds, for the round trip *)

(** Every closed share is full: the first holds the first-share capacity,
    the others the continuation capacity. *)
Definition sharesFull (shares : list (list byte)) : Prop :=
  match shares with
  | [] => True
  | first :: rest =>
      len first = FirstCompactShareContentSize c /\
      Forall (fun s => len s = ContinuationCompactShareContentSize c) rest
  end.

Definition capacityOf (shares : list (list byte)) : Z :=
  match shares with
  | [] => FirstCompactShareContentSize c
  | _ => ContinuationCompactShareContentSize c
  end.

(** The splitter holds the bytes [stream], with no padding among them. *)
Record holds (css : CompactShareSplitter) (stream : list byte) : Prop := {
  h_namespace : css_namespace css = TxNamespaceID c;
  h_version : css_version css = ShareVersionZero;
  h_written : css_written css = len stream;
  h_stream : concat (css_shares css) ++ css_pending css = stream;
  h_remaining : 0 <= css_remaining css;
  h_full : sharesFull (css_shares css);
  h_budget :
    len (css_pending css) + css_remaining css = capacityOf (css_shares css);
  h_pending : stream = [] \/ css_pending css <> []
}.

(** The round trip of section 8: the split transactions export to a share
    sequence whose raw data is the delimited bytes, and whose sequence
    length is valid. *)
Definition roundTrips (txs : list (list byte)) : Prop :=
  exists shares next,
    splitTxs txs = Ok (shares, next) /\
    RawData {| NamespaceID := TxNamespaceID c; Shares := shares |}
      = (delimited txs, None) /\
    validSequenceLen {| NamespaceID := TxNamespaceID c; Shares := shares |}
      = Ok tt.

End Shares.

(** The layout of section 3 leaves a compact share exactly its capacity. *)
Definition layout_ok (c : appconsts) : Prop :=
  0 <= NamespaceSize c /\
  len (TxNamespaceID c) = NamespaceSize c /\
  1 <= FirstCompactShareContentSize c /\
  FirstCompactShareContentSize c
    = ShareSize c - NamespaceSize c - ShareInfoBytes - SequenceLenBytes /\
  ContinuationCompactShareContentSize c
    = ShareSize c - NamespaceSize c - ShareInfoBytes.

(** The constants of a network whose compact shares follow that layout. *)
Definition plainLayout : appconsts := {|
  ShareSize := 512;
  NamespaceSize := 8;
  DefaultMinSquareSize := 1;
  DefaultMaxSquareSize := 128;
  FirstCompactShareContentSize := 499;
  ContinuationCompactShareContentSize := 503;
  FirstSparseShareContentSize := 499;
  ContinuationSparseShareContentSize := 503;
  TxNamespaceID := [0; 0; 0; 0; 0; 0; 0; 1];
  TailPaddingNamespaceID := [255; 255; 255; 255; 255; 255; 255; 254];
  ReservedPaddingNamespaceID := [0; 0; 0; 0; 0; 0; 0; 255]
|}.

(** ** Rounding to binary64, in integer terms

    The functions below say what the floating-point operations of
    [estimateSquareSize] compute, on mantissa-exponent pairs: a pair
    [(m, e)] stands for [m * 2 ^ e], and it is normal when [m] has exactly
    53 bits.  They are proved equal to the operations of [Float64] further
    down; the estimator itself is stated with [Float64] only. *)

(** [M] rounded to a multiple of [2 ^ k], to nearest with ties to even, and
    divided by [2 ^ k]. *)
Definition RNE (M k : Z) : Z :=
  let q := M / 2 ^ k in
  match 2 * (M mod 2 ^ k) ?= 2 ^ k with
  | Lt => q
  | Gt => q + 1
  | Eq => if Z.even q then q else q + 1
  end.

(** The number of bits of a positive integer. *)
Definition digits (M : Z) : Z := Z.log2 M + 1.

(** A rounded mantissa that reached 2^53 moves to the next exponent. *)
Definition renorm (q e : Z) : Z * Z :=
  if q <? 2 ^ 53 then (q, e) else (2 ^ 52, e + 1).

(** The normal pair nearest to [M * 2 ^ E], for a positive [M]. *)
Definition fl (M E : Z) : Z * Z :=
  let D := digits M in
  if D <? 53 then (M * 2 ^ (53 - D), E - (53 - D))
  else
    let q := RNE M (D - 53) in
    if q <? 2 ^ 53 then (q, E + (D - 53)) else (2 ^ 52, E + (D - 53) + 1).

Definition normal (x : Z * Z) : Prop := 2 ^ 52 <= fst x < 2 ^ 53.

(** The order of normal pairs, which is the order of their values. *)
Definition nle (x y : Z * Z) : Prop :=
  snd x < snd y \/ (snd x = snd y /\ fst x <= fst y).

(** The order of the values [M * 2 ^ E] and [N * 2 ^ F]. *)
Definition vle (M E N F : Z) : Prop :=
  M * 2 ^ (E - Z.min E F) <= N * 2 ^ (F - Z.min E F).

(** The binary64 of a pair, with a sign. *)
Definition mk (s : bool) (x : Z * Z) : spec_float :=
  S754_finite s (Z.to_pos (fst x)) (snd x).

(** What a shift record holds after [k] shifts of [M]: the quotient, the
    last bit shifted out, and whether a bit shifted out before it was set. *)
Definition shifted (M : Z) (k : nat) (mrs : shr_record) : Prop :=
  shr_m mrs = M / 2 ^ Z.of_nat k /\
  exists t,
    M mod 2 ^ Z.of_nat k
      = (if shr_r mrs then 2 ^ (Z.of_nat k - 1) else 0) + t /\
    0 <= t /\ (t = 0 \/ t < 2 ^ (Z.of_nat k - 1)) /\
    (shr_r mrs = true -> (0 < k)%nat) /\
    (shr_s mrs = true <-> t <> 0).

(** The mantissa the square root of [m'] rounds to: the integer square root,
    or one more when the remainder is above it. *)
Definition sqrt_round (m' : Z) : Z :=
  if m' - Z.sqrt m' * Z.sqrt m' <=? Z.sqrt m' then Z.sqrt m'
  else Z.sqrt m' + 1.

(** The correctly rounded square root of the normal pair [(m, e)]. *)
Definition fsqrt (m e : Z) : Z * Z :=
  let e' := e / 2 - 26 in
  let m' := m * 2 ^ (e - 2 * e') in
  let q := Z.sqrt m' in
  let r := m' - q * q in
  renorm (if r <=? q then q else q + 1) e'.

(** The least integer not below [m * 2 ^ e], for a negative [e]. *)
Definition fceil (m e : Z) : Z := - ((- m) / 2 ^ (- e)).

(** Multiplication by the binary64 nearest to 1.35. *)
Definition inflate (x : Z * Z) : Z * Z :=
  fl (fst x * 6079859496950170) (snd x - 52).

(** [minSizeOf] on the binary64 of the integer [n]. *)
Definition minSize_ideal (n : Z) : Z :=
  let x := inflate (fl n 0) in
  let y := fsqrt (fst x) (snd x) in
  fceil (fst y) (snd y).

(** The stages of [minSizeOf] on the totals from 2 to the largest [int]:
    each is normal, with its exponent in a fixed range. *)
Record stages (n : Z) : Prop := {
  st_total : normal (fl n 0);
  st_total_exp : - 51 <= snd (fl n 0) <= 11;
  st_inflated : normal (inflate (fl n 0));
  st_inflated_exp : - 51 <= snd (inflate (fl n 0)) <= 11;
  st_root :
    normal (fsqrt (fst (inflate (fl n 0))) (snd (inflate (fl n 0))));
  st_root_exp :
    - 52 <= snd (fsqrt (fst (inflate (fl n 0))) (snd (inflate (fl n 0))))
         <= - 21
}.

(** Steps 3 to 6, from the sum of the estimates to the square size. *)
Definition squareSizeFor (c : appconsts) (total : Z) : Z :=
  if total <=? 1 then DefaultMinSquareSize c
  else clampSquareSize c (uint64 (RoundUpPowerOfTwo (minSize_ideal total))).

(** ** Relations and checks used by the further properties *)

(** Two parsed transactions of the same sizes: the same number of plain
    bytes and, for blob-bearing ones, the same number of transaction bytes
    and the same blob data length as a [uint32]. *)
Definition sameSizes (p q : parsedTx) : Prop :=
  len (normalTx p) = len (normalTx q) /\
  (len (normalTx p) = 0 ->
   len (Tx (blobTx p)) = len (Tx (blobTx q)) /\
   uint32 (DataUsed (blobTx p)) = uint32 (DataUsed (blobTx q))).

(** A check, interval by interval from [a] to the largest [int], that the
    square of [minSize_ideal] is not below its argument: [minSize_ideal] is
    monotone, so its value at the left end serves the whole interval. *)
Fixpoint coversFrom (fuel : nat) (a : Z) : bool :=
  match fuel with
  | O => 2 ^ 63 <=? a
  | S fuel' =>
      if 2 ^ 63 <=? a then true
      else
        let s := minSize_ideal a in
        if a <=? s * s then coversFrom fuel' (s * s + 1) else false
  end.

(** The same for a bound from above, with the value at the right end. *)
Fixpoint withinFrom (fuel : nat) (a : Z) : bool :=
  match fuel with
  | O => 2 ^ 63 <=? a
  | S fuel' =>
      if 2 ^ 63 <=? a then true
      else
        let b := Z.min (a + a / 30) (2 ^ 63 - 1) in
        let s := minSize_ideal b in
        if 20 * ((s - 1) * (s - 1)) <=? 28 * a
        then withinFrom fuel' (b + 1) else false
  end.

(** * Properties *)

(** ** Machine integers *)

Lemma int_small (z : Z) : - 2 ^ 63 <= z < 2 ^ 63 -> int z = z.
Proof.
  intros H. unfold int. rewrite Z.mod_small; lia.
Qed.

Lemma int_range (z : Z) : - 2 ^ 63 <= int z < 2 ^ 63.
Proof.
  unfold int. pose proof (Z.mod_pos_bound (z + 2 ^ 63) (2 ^ 64)). lia.
Qed.

Lemma uint64_small (z : Z) : 0 <= z < 2 ^ 64 -> uint64 z = z.
Proof. intros H. unfold uint64. apply Z.mod_small; lia. Qed.

Lemma uint32_small (z : Z) : 0 <= z < 2 ^ 32 -> uint32 z = z.
Proof. intros H. unfold uint32. apply Z.mod_small; lia. Qed.

Lemma uint64_range (z : Z) : 0 <= uint64 z < 2 ^ 64.
Proof. unfold uint64. apply Z.mod_pos_bound. lia. Qed.

Lemma len_nonneg {A : Type} (l : list A) : 0 <= len l.
Proof. unfold len. lia. Qed.

Lemma len_app {A : Type} (l l' : list A) : len (l ++ l') = len l + len l'.
Proof. unfold len. rewrite length_app. lia. Qed.

Lemma len_nil {A : Type} : len (@nil A) = 0.
Proof. reflexivity. Qed.

Lemma len_cons {A : Type} (a : A) (l : list A) : len (a :: l) = 1 + len l.
Proof. unfold len. simpl length. lia. Qed.

Lemma len_repeat {A : Type} (a : A) (n : Z) :
  0 <= n -> len (repeat a (Z.to_nat n)) = n.
Proof. intros H. unfold len. rewrite repeat_length. lia. Qed.

(** ** Varints *)

Lemma PutUvarint_from_len_bounds (fuel : nat) (x : Z) :
  1 <= len (PutUvarint_from fuel x) <= Z.of_nat fuel + 1.
Proof.
  revert x. induction fuel as [|fuel IH]; intros x.
  - cbn. lia.
  - cbn [PutUvarint_from]. destruct (128 <=? x).
    + rewrite len_cons. specialize (IH (Z.shiftr x 7)). lia.
    + cbn. lia.
Qed.

Lemma PutUvarint_from_len_mono (fuel : nat) (x y : Z) :
  0 <= x <= y ->
  len (PutUvarint_from fuel x) <= len (PutUvarint_from fuel y).
Proof.
  revert x y. induction fuel as [|fuel IH]; intros x y Hxy.
  - cbn. lia.
  - cbn [PutUvarint_from].
    destruct (Z.leb_spec 128 x) as [Hx|Hx], (Z.leb_spec 128 y) as [Hy|Hy];
      try lia.
    + rewrite !len_cons.
      assert (0 <= Z.shiftr x 7 <= Z.shiftr y 7).
      { rewrite !Z.shiftr_div_pow2 by lia. split.
        - apply Z.div_pos; lia.
        - apply Z.div_le_mono; lia. }
      specialize (IH _ _ H). lia.
    + rewrite !len_cons.
      pose proof (PutUvarint_from_len_bounds fuel (Z.shiftr y 7)).
      rewrite len_nil. lia.
    + reflexivity.
Qed.

Lemma DelimLen_bounds (x : Z) : 1 <= DelimLen x <= 10.
Proof.
  unfold DelimLen, PutUvarint.
  pose proof (PutUvarint_from_len_bounds (pred MaxVarintLen64) (uint64 x)).
  cbn in *. lia.
Qed.

Lemma DelimLen_mono (x y : Z) :
  0 <= x <= y -> y < 2 ^ 64 -> DelimLen x <= DelimLen y.
Proof.
  intros H Hy. unfold DelimLen, PutUvarint.
  rewrite !uint64_small by lia. now apply PutUvarint_from_len_mono.
Qed.

(** ** The index wrapper *)

Lemma MarshalIndexWrapper_len (shareIndex : Z) (tx : list byte) :
  exists wtx,
    MarshalIndexWrapper shareIndex tx = Some wtx /\
    len wtx =
      (if len tx =? 0 then 0 else 1 + DelimLen (len tx) + len tx)
      + (if shareIndex =? 0 then 0 else 1 + DelimLen shareIndex)
      + 6.
Proof.
  eexists. split; [reflexivity|].
  rewrite !len_app.
  assert (E : len (26 :: PutUvarint (len ProtoIndexWrapperTypeID)
                   ++ ProtoIndexWrapperTypeID) = 6) by reflexivity.
  rewrite E. clear E.
  destruct (len tx =? 0), (shareIndex =? 0);
    rewrite ?len_cons, ?len_app; unfold DelimLen; cbn [len length Z.of_nat];
    lia.
Qed.

(** ** [maxWrappedTxOverhead] *)

Lemma consts_ok_mainnet : consts_ok mainnet.
Proof. unfold consts_ok. cbn. repeat split; try lia; reflexivity. Qed.

Lemma maxWrappedTxOverhead_eq (c : appconsts) (s : Z) :
  2 <= ContinuationCompactShareContentSize c < 2 ^ 31 ->
  1 <= s < 2 ^ 16 ->
  maxWrappedTxOverhead c s =
    Some (8 + DelimLen (s * s * ContinuationCompactShareContentSize c)
            + DelimLen (s * s)).
Proof.
  intros Hk Hs. unfold maxWrappedTxOverhead.
  set (k := ContinuationCompactShareContentSize c) in *.
  assert (Hss : 1 <= s * s < 2 ^ 32) by nia.
  assert (HL : 2 <= s * s * k < 2 ^ 63) by nia.
  rewrite (uint64_small (s * s)) by lia.
  rewrite (uint64_small (s * s * k)) by lia.
  rewrite (uint32_small (s * s)) by lia.
  destruct (MarshalIndexWrapper_len (s * s)
              (repeat 0 (Z.to_nat (s * s * k)))) as (wtx & E & Hlen).
  rewrite E. f_equal.
  rewrite Hlen, len_repeat by lia.
  destruct (Z.eqb_spec (s * s * k) 0) as [?|_]; [lia|].
  destruct (Z.eqb_spec (s * s) 0) as [?|_]; [lia|].
  rewrite (int_small (s * s * k)) by lia.
  pose proof (DelimLen_bounds (s * s * k)).
  pose proof (DelimLen_bounds (s * s)).
  rewrite int_small by lia. lia.
Qed.

(** C7.  On the square sizes from [DefaultMinSquareSize] to
    [DefaultMaxSquareSize], [maxWrappedTxOverhead] returns a result, the
    result is not negative, and a larger square size never gives a smaller
    overhead. *)
Theorem maxWrappedTxOverhead_nonneg_nondecreasing
  (c : appconsts) (s1 s2 : Z) :
  consts_ok c ->
  DefaultMinSquareSize c <= s1 -> s1 <= s2 -> s2 <= DefaultMaxSquareSize c ->
  exists o1 o2,
    maxWrappedTxOverhead c s1 = Some o1 /\
    maxWrappedTxOverhead c s2 = Some o2 /\
    0 <= o1 /\ 0 <= o2 /\ o1 <= o2.
Proof.
  intros (Hmin & _ & _ & Hmax & _ & Hk & _) H1 H12 H2.
  rewrite !maxWrappedTxOverhead_eq by lia.
  do 2 eexists. split; [reflexivity|]. split; [reflexivity|].
  set (k := ContinuationCompactShareContentSize c) in *.
  pose proof (DelimLen_bounds (s1 * s1 * k)).
  pose proof (DelimLen_bounds (s1 * s1)).
  pose proof (DelimLen_bounds (s2 * s2 * k)).
  pose proof (DelimLen_bounds (s2 * s2)).
  assert (s1 * s1 <= s2 * s2) by nia.
  assert (s2 * s2 < 2 ^ 32) by nia.
  assert (DelimLen (s1 * s1) <= DelimLen (s2 * s2))
    by (apply DelimLen_mono; nia).
  assert (DelimLen (s1 * s1 * k) <= DelimLen (s2 * s2 * k))
    by (apply DelimLen_mono; nia).
  lia.
Qed.

Lemma maxWrappedTxOverhead_nonneg_nondecreasing_witness :
  exists o1 o2,
    maxWrappedTxOverhead mainnet 1 = Some o1 /\
    maxWrappedTxOverhead mainnet 128 = Some o2 /\
    0 <= o1 /\ 0 <= o2 /\ o1 <= o2.
Proof.
  apply (maxWrappedTxOverhead_nonneg_nondecreasing mainnet 1 128).
  - exact consts_ok_mainnet.
  - cbn. lia.
  - lia.
  - cbn. lia.
Defined.

(** ** Share counting *)

Lemma sharesNeeded_loop_eq (fuel : nat) (cont a s L : Z) :
  1 <= cont -> L - a <= Z.of_nat fuel ->
  sharesNeeded_loop fuel cont a s L =
    s + (if a <? L then (L - a + cont - 1) / cont else 0).
Proof.
  intros Hc. revert a s. induction fuel as [|fuel IH]; intros a s Hf.
  - cbn [sharesNeeded_loop]. destruct (Z.ltb_spec a L); lia.
  - cbn [sharesNeeded_loop]. destruct (Z.ltb_spec a L) as [Hlt|Hge]; [|lia].
    rewrite IH by lia.
    replace (L - a + cont - 1) with (L - a - 1 + 1 * cont) by lia.
    rewrite Z.div_add by lia.
    destruct (Z.ltb_spec (a + cont) L) as [Hlt'|Hge'].
    + replace (L - (a + cont) + cont - 1) with (L - a - 1) by lia. lia.
    + rewrite Z.div_small by lia. lia.
Qed.

Lemma sharesNeeded_eq (first cont L : Z) :
  0 <= first -> 1 <= cont -> 0 <= L ->
  sharesNeeded first cont L =
    if L =? 0 then 0
    else 1 + (if first <? L then (L - first + cont - 1) / cont else 0).
Proof.
  intros Hf Hc HL. unfold sharesNeeded.
  destruct (Z.eqb_spec L 0); [reflexivity|].
  apply sharesNeeded_loop_eq; lia.
Qed.

Lemma sharesNeeded_boundaries (first cont : Z) :
  1 <= first -> 1 <= cont ->
  sharesNeeded first cont 0 = 0 /\
  sharesNeeded first cont 1 = 1 /\
  sharesNeeded first cont first = 1 /\
  sharesNeeded first cont (first + 1) = 2 /\
  forall k, 0 <= k -> sharesNeeded first cont (first + k * cont) = k + 1.
Proof.
  intros Hf Hc. repeat split.
  - rewrite sharesNeeded_eq by lia.
    destruct (Z.eqb_spec 1 0); [lia|]. destruct (Z.ltb_spec first 1); lia.
  - rewrite sharesNeeded_eq by lia.
    destruct (Z.eqb_spec first 0); [lia|].
    rewrite Z.ltb_irrefl. lia.
  - rewrite sharesNeeded_eq by lia.
    destruct (Z.eqb_spec (first + 1) 0); [lia|].
    destruct (Z.ltb_spec first (first + 1)); [|lia].
    replace (first + 1 - first + cont - 1) with (1 * cont) by lia.
    rewrite Z.div_mul by lia. lia.
  - intros k Hk. rewrite sharesNeeded_eq by nia.
    destruct (Z.eqb_spec (first + k * cont) 0); [nia|].
    destruct (Z.ltb_spec first (first + k * cont)) as [Hlt|Hge].
    + replace (first + k * cont - first + cont - 1)
        with (cont - 1 + k * cont) by lia.
      rewrite Z.div_add, Z.div_small by lia. lia.
    + assert (k = 0) by nia. lia.
Qed.

(** C9.  Boundary values of the share counts: nothing for an empty
    sequence, one share for one byte and for exactly the first-share
    capacity, two shares for one byte more, and [k + 1] shares for the
    first-share capacity plus [k] continuation capacities; the same for
    sparse shares with the sparse capacities. *)
Theorem sharesNeeded_boundary_values (c : appconsts) :
  consts_ok c ->
  (CompactSharesNeeded c 0 = 0 /\
   CompactSharesNeeded c 1 = 1 /\
   CompactSharesNeeded c (FirstCompactShareContentSize c) = 1 /\
   CompactSharesNeeded c (FirstCompactShareContentSize c + 1) = 2 /\
   forall k, 0 <= k ->
     CompactSharesNeeded c
       (FirstCompactShareContentSize c
        + k * ContinuationCompactShareContentSize c) = k + 1) /\
  (SparseSharesNeeded c 0 = 0 /\
   SparseSharesNeeded c 1 = 1 /\
   SparseSharesNeeded c (FirstSparseShareContentSize c) = 1 /\
   SparseSharesNeeded c (FirstSparseShareContentSize c + 1) = 2 /\
   forall k, 0 <= k ->
     SparseSharesNeeded c
       (FirstSparseShareContentSize c
        + k * ContinuationSparseShareContentSize c) = k + 1).
Proof.
  intros (_ & _ & _ & _ & Hfc & Hcc & Hfs & Hcs).
  split; apply sharesNeeded_boundaries; lia.
Qed.

Lemma sharesNeeded_boundary_values_witness :
  (CompactSharesNeeded mainnet 0 = 0 /\
   CompactSharesNeeded mainnet 1 = 1 /\
   CompactSharesNeeded mainnet 495 = 1 /\
   CompactSharesNeeded mainnet 496 = 2 /\
   forall k, 0 <= k -> CompactSharesNeeded mainnet (495 + k * 499) = k + 1) /\
  (SparseSharesNeeded mainnet 0 = 0 /\
   SparseSharesNeeded mainnet 1 = 1 /\
   SparseSharesNeeded mainnet 499 = 1 /\
   SparseSharesNeeded mainnet 500 = 2 /\
   forall k, 0 <= k -> SparseSharesNeeded mainnet (499 + k * 503) = k + 1).
Proof.
  apply (sharesNeeded_boundary_values mainnet). exact consts_ok_mainnet.
Defined.

(** The values the tests of the package expect. *)
Example Test_sparseSharesNeeded :
  map (SparseSharesNeeded mainnet)
      [0; 1; 2; 499; 500; 499 + 503; 499 + 499 * 2; 499 + 499 * 99;
       1000; 10000; 100000]
  = [0; 1; 1; 1; 2; 2; 3; 100; 2; 20; 199].
Proof. vm_compute. reflexivity. Qed.

Example Test_compactSharesNeeded :
  map (CompactSharesNeeded mainnet)
      [0; 1; 2; 495; 496; 495 + 499; 495 + 499 * 100]
  = [0; 1; 1; 1; 2; 2; 101].
Proof. vm_compute. reflexivity. Qed.

(** ** [estimateCompactShares] *)

Lemma int_add_int_l (a b : Z) : int (int a + b) = int (a + b).
Proof.
  unfold int. f_equal.
  replace ((a + 2 ^ 63) mod 2 ^ 64 - 2 ^ 63 + b + 2 ^ 63)
    with ((a + 2 ^ 63) mod 2 ^ 64 + b) by lia.
  rewrite Zplus_mod_idemp_l. f_equal. lia.
Qed.

Lemma int_add_int_r (a b : Z) : int (a + int b) = int (a + b).
Proof. rewrite Z.add_comm, int_add_int_l. f_equal. lia. Qed.

Lemma uint64_int (z : Z) : uint64 (int z) = uint64 z.
Proof.
  unfold uint64, int.
  rewrite Zminus_mod_idemp_l.
  replace (z + 2 ^ 63 - 2 ^ 63) with z by lia. reflexivity.
Qed.

Lemma DelimLen_uint64 (z : Z) : DelimLen (uint64 z) = DelimLen z.
Proof.
  unfold DelimLen, PutUvarint. f_equal. f_equal.
  unfold uint64. apply Z.mod_mod. lia.
Qed.

Lemma DelimLen_int (z : Z) : DelimLen (int z) = DelimLen z.
Proof.
  rewrite <- (DelimLen_uint64 (int z)), uint64_int. apply DelimLen_uint64.
Qed.

Lemma addTxLen_eq (overhead txbytes : Z) (pTx : parsedTx) :
  addTxLen overhead txbytes pTx =
    int (txbytes + txContribution overhead pTx).
Proof.
  unfold addTxLen, txContribution.
  destruct (len (normalTx pTx) =? 0); cbn [negb].
  - rewrite DelimLen_uint64, DelimLen_int, int_add_int_l.
    apply int_add_int_r.
  - rewrite DelimLen_uint64. apply int_add_int_r.
Qed.

Lemma fold_addTxLen (overhead : Z) (ptxs : list parsedTx) (a : Z) :
  fold_left (addTxLen overhead) ptxs (int a) =
    int (a + byteTotal overhead ptxs).
Proof.
  revert a. induction ptxs as [|pTx ptxs IH]; intros a.
  - cbn. f_equal. lia.
  - cbn [fold_left byteTotal fold_right].
    rewrite addTxLen_eq, int_add_int_l, IH. f_equal.
    fold (byteTotal overhead ptxs). lia.
Qed.

Lemma maxWrappedTxOverhead_some (c : appconsts) (squareSize : Z) :
  exists overhead, maxWrappedTxOverhead c squareSize = Some overhead.
Proof.
  unfold maxWrappedTxOverhead.
  destruct (MarshalIndexWrapper_len
              (uint32 (uint64 (squareSize * squareSize)))
              (repeat 0 (Z.to_nat
                 (uint64 (uint64 (squareSize * squareSize)
                          * ContinuationCompactShareContentSize c)))))
    as (wtx & E & _).
  rewrite E. eexists. reflexivity.
Qed.

Lemma estimateCompactShares_eq
  (c : appconsts) (squareSize : Z) (ptxs : list parsedTx) :
  exists overhead,
    maxWrappedTxOverhead c squareSize = Some overhead /\
    fold_left (addTxLen overhead) ptxs 0 = int (byteTotal overhead ptxs) /\
    estimateCompactShares c squareSize ptxs =
      Some (sharesForBytes c (int (byteTotal overhead ptxs))).
Proof.
  destruct (maxWrappedTxOverhead_some c squareSize) as (overhead & E).
  exists overhead. split; [exact E|].
  assert (F : fold_left (addTxLen overhead) ptxs 0
              = int (byteTotal overhead ptxs)).
  { change 0 with (int 0) at 1. rewrite fold_addTxLen. f_equal. }
  split; [exact F|].
  unfold estimateCompactShares. rewrite E, F. reflexivity.
Qed.

(** C6.  [estimateCompactShares] takes the overhead of the candidate square
    size once; the byte total of its loop is, in the 64 bits of an [int],
    the sum over the transactions of: the raw length plus the length of the
    delimiter of the raw length, for a plain transaction; the transaction
    length plus that one overhead, plus the length of the delimiter of this
    augmented length, for a blob-bearing one. *)
Theorem estimateCompactShares_byte_total
  (c : appconsts) (squareSize : Z) (ptxs : list parsedTx) :
  exists overhead,
    maxWrappedTxOverhead c squareSize = Some overhead /\
    fold_left (addTxLen overhead) ptxs 0 = int (byteTotal overhead ptxs) /\
    estimateCompactShares c squareSize ptxs =
      Some (sharesForBytes c (int (byteTotal overhead ptxs))) /\
    (forall raw, raw <> [] ->
       txContribution overhead (plainTx raw) = len raw + DelimLen (len raw)) /\
    (forall raw blobs,
       txContribution overhead (blobBearingTx raw blobs) =
         (len raw + overhead) + DelimLen (len raw + overhead)).
Proof.
  destruct (estimateCompactShares_eq c squareSize ptxs)
    as (overhead & E & F & G).
  exists overhead. repeat split; try assumption.
  - intros raw Hraw. unfold txContribution, plainTx. cbn [normalTx].
    destruct (Z.eqb_spec (len raw) 0) as [E0|_]; [|reflexivity].
    destruct raw; [congruence|]. rewrite len_cons in E0.
    pose proof (len_nonneg raw). lia.
Qed.

Lemma sharesForBytes_pos (c : appconsts) (txbytes : Z) :
  0 <= FirstCompactShareContentSize c ->
  2 <= ContinuationCompactShareContentSize c ->
  - 2 ^ 63 <= txbytes < 2 ^ 63 ->
  1 <= sharesForBytes c txbytes.
Proof.
  intros Hf Hk Ht. unfold sharesForBytes.
  destruct (Z.leb_spec txbytes (FirstCompactShareContentSize c)); [lia|].
  set (f := FirstCompactShareContentSize c) in *.
  set (k := ContinuationCompactShareContentSize c) in *.
  rewrite (int_small (txbytes - f)) by lia.
  assert (0 <= Z.quot (txbytes - f) k <= (txbytes - f) / 2).
  { rewrite Z.quot_div_nonneg by lia. split.
    - apply Z.div_pos; lia.
    - apply Z.div_le_compat_l; lia. }
  assert ((txbytes - f) / 2 < 2 ^ 62)
    by (apply Z.div_lt_upper_bound; lia).
  rewrite (int_small (Z.quot _ _)) by lia.
  rewrite (int_small (_ + 1)) by lia.
  rewrite int_small by lia. lia.
Qed.

Lemma estimateCompactShares_pos
  (c : appconsts) (squareSize : Z) (ptxs : list parsedTx) :
  0 <= FirstCompactShareContentSize c ->
  2 <= ContinuationCompactShareContentSize c ->
  exists n, estimateCompactShares c squareSize ptxs = Some n /\ 1 <= n.
Proof.
  intros Hf Hk.
  destruct (estimateCompactShares_eq c squareSize ptxs)
    as (overhead & _ & _ & E).
  rewrite E. eexists. split; [reflexivity|].
  apply sharesForBytes_pos; try assumption. apply int_range.
Qed.

(** ** Rounding: the operations of [Float64] in integer terms *)

(** *** Bits and shifts *)

Lemma digits2_pos_bounds (p : positive) :
  2 ^ (Zpos (digits2_pos p) - 1) <= Zpos p < 2 ^ Zpos (digits2_pos p).
Proof.
  induction p as [p IH|p IH|]; cbn [digits2_pos].
  - rewrite Pos2Z.inj_succ.
    replace (Z.succ (Zpos (digits2_pos p)) - 1)
      with (Z.succ (Zpos (digits2_pos p) - 1)) by lia.
    rewrite !Z.pow_succ_r by lia. lia.
  - rewrite Pos2Z.inj_succ.
    replace (Z.succ (Zpos (digits2_pos p)) - 1)
      with (Z.succ (Zpos (digits2_pos p) - 1)) by lia.
    rewrite !Z.pow_succ_r by lia. lia.
  - cbn. lia.
Qed.

Lemma Zdigits2_log2 (p : positive) :
  Zdigits2 (Zpos p) = Z.log2 (Zpos p) + 1.
Proof.
  cbn [Zdigits2]. pose proof (digits2_pos_bounds p) as H.
  symmetry. rewrite (Z.log2_unique (Zpos p) (Zpos (digits2_pos p) - 1)).
  - lia.
  - lia.
  - replace (Z.succ (Zpos (digits2_pos p) - 1)) with (Zpos (digits2_pos p))
      by lia.
    exact H.
Qed.

Lemma iter_pos_nat {A : Type} (f : A -> A) (p : positive) (x : A) :
  iter_pos f p x = Nat.iter (Pos.to_nat p) f x.
Proof.
  revert x. induction p as [p IH|p IH|]; intros x; cbn [iter_pos].
  - rewrite !IH, Pos2Nat.inj_xI.
    replace (S (2 * Pos.to_nat p))%nat
      with (Pos.to_nat p + (Pos.to_nat p + 1))%nat by lia.
    rewrite !Nat.iter_add. reflexivity.
  - rewrite !IH, Pos2Nat.inj_xO.
    replace (2 * Pos.to_nat p)%nat
      with (Pos.to_nat p + Pos.to_nat p)%nat by lia.
    rewrite Nat.iter_add. reflexivity.
  - reflexivity.
Qed.

Lemma shr_1_spec (m : Z) (r s : bool) :
  0 <= m ->
  shr_1 (Build_shr_record m r s) =
    Build_shr_record (m / 2) (Z.odd m) (r || s).
Proof.
  intros Hm. destruct m as [|[p|p|]|p]; try lia; cbn [shr_1].
  - reflexivity.
  - f_equal. rewrite Pos2Z.inj_xI.
    apply Z.div_unique with (r := 1); lia.
  - f_equal. rewrite Pos2Z.inj_xO.
    apply Z.div_unique with (r := 0); lia.
  - reflexivity.
Qed.

Lemma shifted_iter (M : Z) (k : nat) :
  0 <= M ->
  shifted M k (Nat.iter k shr_1 (Build_shr_record M false false)).
Proof.
  intros HM. induction k as [|k IH].
  - cbn [Nat.iter]. split; cbn.
    + now rewrite Z.div_1_r.
    + exists 0. rewrite Z.mod_1_r. repeat split; try lia; try discriminate.
  - cbn [Nat.iter].
    destruct (Nat.iter k shr_1 (Build_shr_record M false false))
      as [m r s] eqn:E.
    destruct IH as (Hm & t & Hrem & Ht0 & Ht & Hr & Hs).
    cbn [shr_m shr_r shr_s] in *.
    assert (Hmpos : 0 <= m).
    { subst m. apply Z.div_pos; [lia|]. apply Z.pow_pos_nonneg; lia. }
    rewrite Nat.iter_succ, E, shr_1_spec by assumption.
    assert (P : 0 < 2 ^ Z.of_nat k) by (apply Z.pow_pos_nonneg; lia).
    assert (E2 : 2 ^ Z.of_nat (S k) = 2 ^ Z.of_nat k * 2).
    { rewrite Nat2Z.inj_succ, Z.pow_succ_r by lia. lia. }
    split; cbn [shr_m shr_r shr_s].
    + rewrite E2, <- Z.div_div by lia. now rewrite Hm.
    + exists ((if r then 2 ^ (Z.of_nat k - 1) else 0) + t).
      replace (Z.of_nat (S k) - 1) with (Z.of_nat k) by lia.
      assert (Hmod : M mod 2 ^ Z.of_nat (S k)
                     = M mod 2 ^ Z.of_nat k + 2 ^ Z.of_nat k * (m mod 2)).
      { rewrite E2, Z.rem_mul_r by lia. now rewrite Hm. }
      assert (Hodd : m mod 2 = if Z.odd m then 1 else 0).
      { rewrite Zmod_odd. reflexivity. }
      assert (Hlt : M mod 2 ^ Z.of_nat k < 2 ^ Z.of_nat k)
        by (apply Z.mod_pos_bound; lia).
      assert (Hk1 : (0 < k)%nat -> 2 ^ Z.of_nat k = 2 * 2 ^ (Z.of_nat k - 1)).
      { intros. rewrite <- Z.pow_succ_r by lia. f_equal. lia. }
      repeat split.
      * rewrite Hmod, Hodd, Hrem. destruct (Z.odd m); lia.
      * destruct r; [|lia].
        assert (0 < 2 ^ (Z.of_nat k - 1))
          by (apply Z.pow_pos_nonneg; specialize (Hr eq_refl); lia). lia.
      * right. rewrite <- Hrem. lia.
      * lia.
      * intros Hrs. destruct r; cbn in Hrs.
        -- assert (0 < 2 ^ (Z.of_nat k - 1))
             by (apply Z.pow_pos_nonneg; specialize (Hr eq_refl); lia). lia.
        -- apply Hs in Hrs. lia.
      * intros Hne. destruct r; cbn; [reflexivity|].
        apply Hs. lia.
Qed.

(** The record of [k] shifts rounds to [RNE M k]. *)
Lemma shifted_round (M : Z) (k : nat) (mrs : shr_record) :
  0 <= M -> shifted M k mrs ->
  round_nearest_even (shr_m mrs) (loc_of_shr_record mrs)
    = RNE M (Z.of_nat k).
Proof.
  intros HM (Hm & t & Hrem & Ht0 & Ht & Hr & Hs).
  destruct mrs as [m r s]. cbn [shr_m shr_r shr_s] in *.
  unfold RNE. rewrite <- Hm, Hrem.
  assert (Hk1 : (0 < k)%nat -> 2 ^ Z.of_nat k = 2 * 2 ^ (Z.of_nat k - 1)).
  { intros. rewrite <- Z.pow_succ_r by lia. f_equal. lia. }
  assert (P : 0 < 2 ^ Z.of_nat k) by (apply Z.pow_pos_nonneg; lia).
  assert (Hs' : s = false -> t = 0).
  { intros ->. destruct (Z.eq_dec t 0); [assumption|].
    assert (false = true) by (apply Hs; assumption). discriminate. }
  assert (Hs'' : s = true -> t <> 0) by (intros ->; apply Hs; reflexivity).
  assert (Ht' : t = 0 \/ 2 * t < 2 ^ Z.of_nat k).
  { destruct Ht as [->|Ht]; [now left|right].
    destruct k as [|k]; [cbn in Ht; lia|]. rewrite Hk1 by lia. lia. }
  destruct r.
  - specialize (Hr eq_refl). specialize (Hk1 Hr).
    destruct s; cbn [loc_of_shr_record round_nearest_even];
      destruct (Z.compare_spec (2 * (2 ^ (Z.of_nat k - 1) + t))
                               (2 ^ Z.of_nat k));
      try reflexivity; specialize (Hs' eq_refl) || specialize (Hs'' eq_refl);
      lia.
  - destruct s; cbn [loc_of_shr_record round_nearest_even];
      destruct (Z.compare_spec (2 * (0 + t)) (2 ^ Z.of_nat k));
      try reflexivity; lia.
Qed.

(** *** Rounding to nearest, ties to even *)

Lemma digits_bounds (M : Z) :
  0 < M -> 2 ^ (digits M - 1) <= M < 2 ^ digits M.
Proof.
  intros HM. unfold digits. pose proof (Z.log2_spec M HM) as H.
  replace (Z.log2 M + 1 - 1) with (Z.log2 M) by lia.
  replace (Z.log2 M + 1) with (Z.succ (Z.log2 M)) by lia. exact H.
Qed.

Lemma digits_unique (M d : Z) :
  2 ^ (d - 1) <= M < 2 ^ d -> 1 <= d -> digits M = d.
Proof.
  intros H Hd. unfold digits.
  rewrite (Z.log2_unique M (d - 1)); try lia.
  replace (Z.succ (d - 1)) with d by lia. exact H.
Qed.

Lemma digits_pos (M : Z) : 0 < M -> 1 <= digits M.
Proof. intros. unfold digits. pose proof (Z.log2_nonneg M). lia. Qed.

Lemma digits_mono (M N : Z) : M <= N -> digits M <= digits N.
Proof. intros. unfold digits. pose proof (Z.log2_le_mono M N). lia. Qed.

Lemma digits_shift (M j : Z) :
  0 < M -> 0 <= j -> digits (M * 2 ^ j) = digits M + j.
Proof.
  intros HM Hj. unfold digits. rewrite Z.log2_mul_pow2 by lia. lia.
Qed.

Lemma pow2_pos (k : Z) : 0 <= k -> 0 < 2 ^ k.
Proof. intros. apply Z.pow_pos_nonneg; lia. Qed.

Lemma pow2_split (a b : Z) : 0 <= a -> 0 <= b -> 2 ^ (a + b) = 2 ^ a * 2 ^ b.
Proof. intros. apply Z.pow_add_r; lia. Qed.

Lemma RNE_bounds (M k : Z) :
  0 <= k -> M / 2 ^ k <= RNE M k <= M / 2 ^ k + 1.
Proof.
  intros Hk. unfold RNE.
  destruct (2 * (M mod 2 ^ k) ?= 2 ^ k); [destruct (Z.even _)| |]; lia.
Qed.

Lemma RNE_exact (M k : Z) :
  0 <= k -> M mod 2 ^ k = 0 -> RNE M k = M / 2 ^ k.
Proof.
  intros Hk H. unfold RNE. rewrite H. pose proof (pow2_pos k Hk).
  destruct (Z.compare_spec (2 * 0) (2 ^ k)); lia.
Qed.

Lemma RNE_mono (M N k : Z) :
  0 <= k -> M <= N -> RNE M k <= RNE N k.
Proof.
  intros Hk HMN. pose proof (pow2_pos k Hk) as P.
  pose proof (Z.div_le_mono M N (2 ^ k) P HMN) as Hq.
  pose proof (RNE_bounds M k Hk). pose proof (RNE_bounds N k Hk).
  destruct (Z.eq_dec (M / 2 ^ k) (N / 2 ^ k)) as [E|NE]; [|lia].
  pose proof (Z.div_mod M (2 ^ k)). pose proof (Z.div_mod N (2 ^ k)).
  unfold RNE. rewrite <- E.
  destruct (Z.compare_spec (2 * (M mod 2 ^ k)) (2 ^ k));
    destruct (Z.compare_spec (2 * (N mod 2 ^ k)) (2 ^ k));
    destruct (Z.even (M / 2 ^ k)); lia.
Qed.

Lemma RNE_scale (M k j : Z) :
  0 <= k -> 0 <= j -> RNE (M * 2 ^ j) (k + j) = RNE M k.
Proof.
  intros Hk Hj. unfold RNE.
  pose proof (pow2_pos k Hk). pose proof (pow2_pos j Hj).
  rewrite pow2_split by lia.
  rewrite Z.div_mul_cancel_r by lia.
  rewrite Z.mul_mod_distr_r by lia.
  replace (2 * (M mod 2 ^ k * 2 ^ j)) with (2 * (M mod 2 ^ k) * 2 ^ j) by lia.
  destruct (Z.compare_spec (2 * (M mod 2 ^ k) * 2 ^ j) (2 ^ k * 2 ^ j)),
           (Z.compare_spec (2 * (M mod 2 ^ k)) (2 ^ k));
    try reflexivity; nia.
Qed.

Lemma RNE_range (M k : Z) :
  0 <= k -> 2 ^ (52 + k) <= M < 2 ^ (53 + k) ->
  2 ^ 52 <= RNE M k <= 2 ^ 53.
Proof.
  intros Hk HM. pose proof (pow2_pos k Hk) as P.
  rewrite !pow2_split in HM by lia.
  pose proof (RNE_bounds M k Hk).
  assert (2 ^ 52 <= M / 2 ^ k) by (apply Z.div_le_lower_bound; lia).
  assert (M / 2 ^ k < 2 ^ 53) by (apply Z.div_lt_upper_bound; lia).
  lia.
Qed.

Lemma digits_range (M : Z) :
  0 < M -> 53 <= digits M ->
  2 ^ (52 + (digits M - 53)) <= M < 2 ^ (53 + (digits M - 53)).
Proof.
  intros HM HD. pose proof (digits_bounds M HM).
  replace (52 + (digits M - 53)) with (digits M - 1) by lia.
  replace (53 + (digits M - 53)) with (digits M) by lia. assumption.
Qed.

Lemma fl_normal (M E : Z) : 0 < M -> 2 ^ 52 <= fst (fl M E) < 2 ^ 53.
Proof.
  intros HM. unfold fl. pose proof (digits_bounds M HM) as HD.
  pose proof (digits_pos M HM).
  destruct (Z.ltb_spec (digits M) 53).
  - cbn [fst].
    pose proof (pow2_pos (53 - digits M) ltac:(lia)).
    replace (2 ^ 52) with (2 ^ (digits M - 1) * 2 ^ (53 - digits M)).
    2:{ rewrite <- pow2_split by lia. f_equal. lia. }
    replace (2 ^ 53) with (2 ^ digits M * 2 ^ (53 - digits M)).
    2:{ rewrite <- pow2_split by lia. f_equal. lia. }
    nia.
  - pose proof (RNE_range M (digits M - 53) ltac:(lia)
                  (digits_range M HM ltac:(lia))).
    destruct (Z.ltb_spec (RNE M (digits M - 53)) (2 ^ 53)); cbn [fst]; lia.
Qed.

(** [fl] depends on the value [M * 2 ^ E] only. *)
Lemma fl_scale (M E j : Z) :
  0 < M -> 0 <= j -> fl (M * 2 ^ j) (E - j) = fl M E.
Proof.
  intros HM Hj. unfold fl. rewrite digits_shift by assumption.
  pose proof (digits_pos M HM). pose proof (pow2_pos j Hj).
  destruct (Z.ltb_spec (digits M + j) 53), (Z.ltb_spec (digits M) 53);
    try lia.
  - f_equal; [|lia].
    replace (53 - digits M) with (j + (53 - (digits M + j))) by lia.
    rewrite pow2_split by lia. lia.
  - replace (M * 2 ^ j)
      with (M * 2 ^ (53 - digits M) * 2 ^ (digits M + j - 53)).
    2:{ rewrite <- Z.mul_assoc, <- pow2_split by lia. do 2 f_equal. lia. }
    pose proof (pow2_pos (digits M + j - 53) ltac:(lia)).
    rewrite RNE_exact by (try apply Z.mod_mul; lia).
    rewrite Z.div_mul by lia.
    pose proof (fl_normal M E HM) as Hn. unfold fl in Hn.
    destruct (Z.ltb_spec (digits M) 53); [|lia]. cbn [fst] in Hn.
    destruct (Z.ltb_spec (M * 2 ^ (53 - digits M)) (2 ^ 53)); [|lia].
    f_equal. lia.
  - replace (digits M + j - 53) with (digits M - 53 + j) by lia.
    rewrite RNE_scale by lia.
    destruct (Z.ltb_spec (RNE M (digits M - 53)) (2 ^ 53)); f_equal; lia.
Qed.

Lemma nle_refl (x : Z * Z) : nle x x.
Proof. unfold nle. lia. Qed.

Lemma nle_trans (x y z : Z * Z) : nle x y -> nle y z -> nle x z.
Proof. unfold nle. lia. Qed.

Lemma fl_mono_big (M N E : Z) :
  0 < M -> M <= N -> 53 <= digits M -> nle (fl M E) (fl N E).
Proof.
  intros HM HMN HD. pose proof (digits_mono M N HMN) as HDN.
  assert (HN : 0 < N) by lia.
  pose proof (RNE_range M (digits M - 53) ltac:(lia)
                (digits_range M HM ltac:(lia))).
  pose proof (RNE_range N (digits N - 53) ltac:(lia)
                (digits_range N HN ltac:(lia))).
  unfold fl, nle.
  destruct (Z.ltb_spec (digits M) 53), (Z.ltb_spec (digits N) 53); try lia.
  destruct (Z.eq_dec (digits M) (digits N)) as [ED|ND].
  - pose proof (RNE_mono M N (digits M - 53) ltac:(lia) HMN) as Hq.
    rewrite <- ED in *.
    destruct (Z.ltb_spec (RNE M (digits M - 53)) (2 ^ 53)),
             (Z.ltb_spec (RNE N (digits M - 53)) (2 ^ 53));
      cbn [fst snd]; lia.
  - destruct (Z.ltb_spec (RNE M (digits M - 53)) (2 ^ 53)),
             (Z.ltb_spec (RNE N (digits N - 53)) (2 ^ 53));
      cbn [fst snd]; lia.
Qed.

(** [fl] is monotone in the value it rounds. *)
Lemma fl_mono (M E N F : Z) :
  0 < M -> vle M E N F -> nle (fl M E) (fl N F).
Proof.
  intros HM H. unfold vle in H.
  set (b := Z.min E F) in *.
  pose proof (pow2_pos (E - b) ltac:(lia)).
  pose proof (pow2_pos (F - b) ltac:(lia)).
  assert (HN : 0 < N) by nia.
  rewrite <- (fl_scale M E (E - b + 53)) by lia.
  rewrite <- (fl_scale N F (F - b + 53)) by lia.
  replace (E - (E - b + 53)) with (b - 53) by lia.
  replace (F - (F - b + 53)) with (b - 53) by lia.
  rewrite !pow2_split by lia.
  apply fl_mono_big.
  - nia.
  - nia.
  - rewrite Z.mul_assoc, digits_shift by nia.
    pose proof (digits_pos (M * 2 ^ (E - b)) ltac:(nia)). lia.
Qed.

(** *** The operations of [SpecFloat] *)

Lemma shr_fexp_exact (p : positive) (E : Z) :
  0 <= digits (Zpos p) - 53 -> - 1074 <= E + (digits (Zpos p) - 53) ->
  shr_fexp Float64.prec Float64.emax (Zpos p) E loc_Exact =
    (Nat.iter (Z.to_nat (digits (Zpos p) - 53)) shr_1
       (Build_shr_record (Zpos p) false false),
     E + (digits (Zpos p) - 53)).
Proof.
  intros Hk HE. unfold shr_fexp, fexp, emin, Float64.prec, Float64.emax.
  rewrite Zdigits2_log2. fold (digits (Zpos p)).
  rewrite Z.max_l by lia.
  replace (digits (Zpos p) + E - 53 - E) with (digits (Zpos p) - 53) by lia.
  cbn [shr_record_of_loc]. unfold shr.
  destruct (digits (Zpos p) - 53) as [|k|k] eqn:Ek.
  - cbn [Z.to_nat Nat.iter]. f_equal. lia.
  - rewrite iter_pos_nat. reflexivity.
  - lia.
Qed.

Lemma renorm_spec (sx : bool) (q e : Z) :
  2 ^ 52 <= q <= 2 ^ 53 -> - 1074 <= e <= 970 ->
  (let '(mrs, e') := shr_fexp Float64.prec Float64.emax q e loc_Exact in
   match shr_m mrs with
   | Z0 => S754_zero sx
   | Zpos m =>
       if e' <=? Float64.emax - Float64.prec then S754_finite sx m e' else S754_infinity sx
   | Zneg _ => S754_nan
   end) = mk sx (renorm q e).
Proof.
  intros Hq He. unfold renorm.
  destruct q as [|pq|pq]; try lia.
  destruct (Z.ltb_spec (Zpos pq) (2 ^ 53)) as [Hlt|Hge].
  - assert (D : digits (Zpos pq) = 53) by (apply digits_unique; lia).
    rewrite shr_fexp_exact by lia. rewrite D.
    change (53 - 53) with 0. cbn [Z.to_nat Nat.iter nat_rect shr_m].
    unfold Float64.emax, Float64.prec.
    destruct (Z.leb_spec (e + 0) (1024 - 53)); [|lia].
    unfold mk. cbn [fst snd Z.to_pos]. f_equal. lia.
  - assert (Zpos pq = 2 ^ 53) by lia.
    assert (D : digits (Zpos pq) = 54) by (apply digits_unique; lia).
    rewrite shr_fexp_exact by lia. rewrite D.
    change (54 - 53) with 1. 
    replace pq with (Z.to_pos (2 ^ 53)) by lia.
    cbn [Z.to_nat Pos.to_nat Pos.iter_op Nat.iter].
    change (shr_m (Nat.iter (Z.to_nat 1) shr_1
              {| shr_m := Zpos (Z.to_pos (2 ^ 53)); shr_r := false;
                 shr_s := false |})) with (2 ^ 52).
    change (2 ^ 52) with (Zpos (Z.to_pos (2 ^ 52))) at 1.
    cbv iota beta.
    unfold Float64.emax, Float64.prec.
    destruct (Z.leb_spec (e + 1) (1024 - 53)); [|lia].
    reflexivity.
Qed.

(** The rounding of [SpecFloat], on a mantissa of 53 bits or more and an
    exponent in range, is [fl]. *)
Lemma binary_round_aux_fl (sx : bool) (p : positive) (E : Z) :
  53 <= digits (Zpos p) ->
  - 1074 <= E + (digits (Zpos p) - 53) <= 969 ->
  binary_round_aux Float64.prec Float64.emax sx (Zpos p) E loc_Exact = mk sx (fl (Zpos p) E).
Proof.
  intros HD HE. unfold binary_round_aux.
  rewrite shr_fexp_exact by lia.
  set (k := digits (Zpos p) - 53) in *.
  pose proof (shifted_iter (Zpos p) (Z.to_nat k) ltac:(lia)) as Hs.
  apply shifted_round in Hs; [|lia].
  rewrite Z2Nat.id in Hs by lia. rewrite Hs.
  pose proof (RNE_range (Zpos p) k ltac:(lia)
                (digits_range (Zpos p) ltac:(lia) HD)) as Hq.
  fold k in Hq.
  rewrite (renorm_spec sx (RNE (Zpos p) k) (E + k)) by lia.
  unfold fl, renorm. fold k.
  destruct (Z.ltb_spec (digits (Zpos p)) 53); [lia|]. reflexivity.
Qed.

Lemma iter_xO (p d : positive) :
  Zpos (Pos.iter xO p d) = Zpos p * 2 ^ Zpos d.
Proof.
  induction d as [|d IH] using Pos.peano_ind.
  - cbn [Pos.iter]. lia.
  - rewrite Pos.iter_succ, Pos2Z.inj_xO, IH, Pos2Z.inj_succ.
    rewrite Z.pow_succ_r by lia. lia.
Qed.

Lemma binary_round_fl (sx : bool) (p : positive) :
  digits (Zpos p) <= 1000 ->
  binary_round Float64.prec Float64.emax sx p 0 = mk sx (fl (Zpos p) 0).
Proof.
  intros HD. unfold binary_round, shl_align.
  pose proof (Zdigits2_log2 p) as Hd. cbn [Zdigits2] in Hd.
  fold (digits (Zpos p)) in Hd.
  pose proof (digits_pos (Zpos p) ltac:(lia)).
  assert (F : fexp Float64.prec Float64.emax (Zpos (digits2_pos p) + 0) - 0
              = digits (Zpos p) - 53).
  { unfold fexp, emin, Float64.prec, Float64.emax. rewrite Hd. lia. }
  rewrite F.
  assert (F' : fexp Float64.prec Float64.emax (Zpos (digits2_pos p) + 0)
               = digits (Zpos p) - 53) by lia.
  rewrite F'. clear F F'.
  destruct (digits (Zpos p) - 53) as [|k|k] eqn:Ek.
  - apply binary_round_aux_fl; lia.
  - apply binary_round_aux_fl; lia.
  - assert (HD' : digits (Zpos (Pos.iter xO p k)) = 53).
    { rewrite iter_xO, digits_shift by lia. lia. }
    rewrite binary_round_aux_fl by lia.
    rewrite iter_xO. f_equal.
    replace (Z.neg k) with (0 - Zpos k) by lia.
    apply fl_scale; lia.
Qed.

(** [float64(n)]. *)
Lemma of_int_pos (n : Z) :
  0 < n -> digits n <= 1000 -> Float64.of_int n = mk false (fl n 0).
Proof.
  intros Hn HD. destruct n as [|p|p]; try lia.
  apply binary_round_fl. assumption.
Qed.

Lemma of_int_neg (n : Z) :
  n < 0 -> digits (- n) <= 1000 -> Float64.of_int n = mk true (fl (- n) 0).
Proof.
  intros Hn HD. destruct n as [|p|p]; try lia.
  apply binary_round_fl. assumption.
Qed.

(** The product of two normal numbers. *)
Lemma mul_fl (m1 e1 m2 e2 : Z) :
  2 ^ 52 <= m1 < 2 ^ 53 -> 2 ^ 52 <= m2 < 2 ^ 53 ->
  - 1000 <= e1 + e2 <= 800 ->
  Float64.mul (mk false (m1, e1)) (mk false (m2, e2)) =
    mk false (fl (m1 * m2) (e1 + e2)).
Proof.
  intros H1 H2 He. unfold Float64.mul, mk, SFmul. cbn [fst snd xorb].
  assert (E : Zpos (Z.to_pos m1 * Z.to_pos m2) = m1 * m2).
  { rewrite Pos2Z.inj_mul, !Z2Pos.id by lia. reflexivity. }
  assert (HD : 105 <= digits (m1 * m2) <= 106).
  { assert (2 ^ 104 <= m1 * m2) by nia.
    assert (m1 * m2 <= 2 ^ 106 - 1) by nia.
    pose proof (digits_mono (2 ^ 104) (m1 * m2) ltac:(lia)).
    pose proof (digits_mono (m1 * m2) (2 ^ 106 - 1) ltac:(lia)).
    change (digits (2 ^ 104)) with 105 in *.
    change (digits (2 ^ 106 - 1)) with 106 in *. lia. }
  rewrite <- E in HD |- *.
  rewrite binary_round_aux_fl by lia. reflexivity.
Qed.

Lemma sqrt_range (m' : Z) :
  2 ^ 104 <= m' < 2 ^ 106 -> 2 ^ 52 <= Z.sqrt m' < 2 ^ 53.
Proof.
  intros H. pose proof (Z.sqrt_spec m' ltac:(lia)) as Hs.
  pose proof (Z.sqrt_nonneg m'). unfold Z.succ in Hs.
  split.
  - change (2 ^ 52) with (Z.sqrt (2 ^ 104)). apply Z.sqrt_le_mono. lia.
  - apply Z.sqrt_lt_square; lia.
Qed.

(** [math.Sqrt] of a normal number. *)
Lemma Sqrt_fsqrt (m e : Z) :
  2 ^ 52 <= m < 2 ^ 53 -> - 1000 <= e <= 1000 ->
  Float64.Sqrt (mk false (m, e)) = mk false (fsqrt m e).
Proof.
  intros Hm He. unfold Float64.Sqrt, mk, SFsqrt, SFsqrt_core_binary. cbn [fst snd].
  rewrite Z2Pos.id by lia.
  assert (D : Zdigits2 m = 53).
  { destruct m as [|pm|pm]; try lia.
    rewrite Zdigits2_log2. fold (digits (Zpos pm)).
    apply digits_unique; lia. }
  rewrite D.
  pose proof (Z.div_mod e 2 ltac:(lia)) as Hdm.
  pose proof (Z.mod_pos_bound e 2 ltac:(lia)) as Hmb.
  assert (E' : Z.min (fexp Float64.prec Float64.emax (Z.div2 (53 + e + 1))) (Z.div2 e)
               = e / 2 - 26).
  { unfold fexp, emin, Float64.prec, Float64.emax. rewrite !Z.div2_div.
    replace (53 + e + 1) with (e + 27 * 2) by lia.
    rewrite Z.div_add by lia. lia. }
  rewrite E'. clear E'.
  set (e' := e / 2 - 26).
  assert (Hs : 52 <= e - 2 * e' <= 53) by (unfold e'; lia).
  destruct (e - 2 * e') as [|s|s] eqn:Es; try lia.
  rewrite Z.shiftl_mul_pow2 by lia.
  set (m' := m * 2 ^ Zpos s).
  assert (Hm' : 2 ^ 104 <= m' < 2 ^ 106).
  { unfold m'. assert (Zpos s = 52 \/ Zpos s = 53) as [->| ->] by lia; lia. }
  pose proof (Z.sqrtrem_spec m' ltac:(lia)) as Hsr.
  pose proof (Z.sqrtrem_sqrt m') as Hfst.
  destruct (Z.sqrtrem m') as [q r]. cbn [fst] in Hfst. subst q.
  destruct Hsr as [Hsr Hr].
  pose proof (sqrt_range m' Hm') as Hq.
  set (q := Z.sqrt m') in *.
  assert (Er : r = m' - q * q) by lia.
  unfold fsqrt. fold e'. rewrite Es. fold m' q. rewrite <- Er.
  unfold binary_round_aux.
  set (l := if r =? 0 then loc_Exact
            else loc_Inexact (if r <=? q then Lt else Gt)).
  assert (Hsh : shr_fexp Float64.prec Float64.emax q e' l = (shr_record_of_loc q l, e')).
  { unfold shr_fexp.
    assert (F : fexp Float64.prec Float64.emax (Zdigits2 q + e') - e' = 0).
    { destruct q as [|pq|pq] eqn:Eq; try lia.
      rewrite Zdigits2_log2. fold (digits (Zpos pq)).
      assert (Dq : digits (Zpos pq) = 53) by (apply digits_unique; lia).
      rewrite Dq. unfold fexp, emin, Float64.prec, Float64.emax, e'. lia. }
    rewrite F. reflexivity. }
  rewrite Hsh.
  assert (Hrn : round_nearest_even
                  (shr_m (shr_record_of_loc q l))
                  (loc_of_shr_record (shr_record_of_loc q l))
                = if r <=? q then q else q + 1).
  { unfold l. destruct (Z.eqb_spec r 0) as [->|Hr0].
    - cbn. destruct (Z.leb_spec 0 q); [reflexivity|lia].
    - destruct (r <=? q); reflexivity. }
  rewrite Hrn.
  apply (renorm_spec false).
  - destruct (r <=? q); lia.
  - unfold e'. lia.
Qed.

Lemma fceil_range (m e : Z) :
  2 ^ 52 <= m < 2 ^ 53 -> - 52 <= e <= - 1 ->
  1 <= fceil m e <= 2 ^ 52.
Proof.
  intros Hm He. unfold fceil.
  pose proof (pow2_pos (- e) ltac:(lia)) as P.
  assert (2 <= 2 ^ (- e)).
  { change 2 with (2 ^ 1) at 1. apply Z.pow_le_mono_r; lia. }
  assert (2 ^ (- e) <= 2 ^ 52) by (apply Z.pow_le_mono_r; lia).
  pose proof (Z.div_mod (- m) (2 ^ (- e)) ltac:(lia)).
  pose proof (Z.mod_pos_bound (- m) (2 ^ (- e)) P).
  split; nia.
Qed.

Lemma to_uint64_fl (n : Z) :
  0 < n < 2 ^ 53 -> Float64.to_uint64 (mk false (fl n 0)) = Some n.
Proof.
  intros Hn. unfold fl.
  pose proof (digits_pos n ltac:(lia)) as Hd1.
  assert (Hd : digits n <= 53).
  { pose proof (digits_mono n (2 ^ 53 - 1) ltac:(lia)).
    change (digits (2 ^ 53 - 1)) with 53 in *. lia. }
  destruct (Z.ltb_spec (digits n) 53) as [Hlt|Hge].
  - unfold mk, Float64.to_uint64. cbn [fst snd cond_Zopp].
    pose proof (pow2_pos (53 - digits n) ltac:(lia)).
    rewrite Z2Pos.id by nia.
    destruct (Z.leb_spec 0 (0 - (53 - digits n))); [lia|].
    replace (- (0 - (53 - digits n))) with (53 - digits n) by lia.
    rewrite Z.quot_mul by lia.
    destruct (Z.leb_spec 0 n); [|lia].
    destruct (Z.ltb_spec n (2 ^ 64)); [|lia]. reflexivity.
  - assert (E : digits n - 53 = 0) by lia. rewrite E.
    rewrite RNE_exact by (rewrite ?Z.pow_0_r, ?Z.mod_1_r; lia).
    rewrite Z.pow_0_r, Z.div_1_r.
    destruct (Z.ltb_spec n (2 ^ 53)); [|lia].
    unfold mk, Float64.to_uint64. cbn [fst snd cond_Zopp].
    rewrite Z2Pos.id by lia. change (0 + 0) with 0.
    change (0 <=? 0) with true. cbv iota.
    rewrite Z.pow_0_r, Z.mul_1_r.
    destruct (Z.leb_spec 0 n); [|lia].
    destruct (Z.ltb_spec n (2 ^ 64)); [|lia]. reflexivity.
Qed.

(** [uint64(math.Ceil(x))] for a normal [x] from 1 to 2^52. *)
Lemma Ceil_to_uint64 (m e : Z) :
  2 ^ 52 <= m < 2 ^ 53 -> - 52 <= e <= - 1 ->
  Float64.to_uint64 (Float64.Ceil (mk false (m, e))) = Some (fceil m e).
Proof.
  intros Hm He. pose proof (fceil_range m e Hm He) as Hc.
  unfold Float64.Ceil, Float64.ceil_finite, mk. cbn [fst snd cond_Zopp]. rewrite Z2Pos.id by lia.
  destruct (Z.leb_spec 0 e); [lia|]. fold (fceil m e).
  fold (Float64.of_int (fceil m e)).
  assert (Hd : digits (fceil m e) <= 1000).
  { pose proof (digits_mono (fceil m e) (2 ^ 52) ltac:(lia)).
    change (digits (2 ^ 52)) with 53 in *. lia. }
  rewrite of_int_pos by lia.
  apply to_uint64_fl. lia.
Qed.

(** *** Monotonicity of the stages *)

Lemma nle_snd (x y : Z * Z) : nle x y -> snd x <= snd y.
Proof. unfold nle. lia. Qed.

Lemma nle_vle (x y : Z * Z) (k a : Z) :
  normal x -> normal y -> nle x y -> 0 < k ->
  vle (fst x * k) (snd x + a) (fst y * k) (snd y + a).
Proof.
  unfold normal, nle, vle. intros Hx Hy H Hk.
  destruct H as [Hlt|[Heq Hle]].
  - rewrite Z.min_l by lia.
    replace (snd x + a - (snd x + a)) with 0 by lia.
    replace (snd y + a - (snd x + a)) with (snd y - snd x) by lia.
    assert (2 ^ 1 <= 2 ^ (snd y - snd x)) by (apply Z.pow_le_mono_r; lia).
    rewrite Z.pow_0_r.
    set (d := 2 ^ (snd y - snd x)) in *. change (2 ^ 1) with 2 in *.
    assert (fst x <= fst y * d) by nia.
    rewrite Z.mul_1_r.
    replace (fst y * k * d) with (fst y * d * k) by lia.
    apply Z.mul_le_mono_nonneg_r; lia.
  - rewrite Heq, Z.min_id, Z.sub_diag, Z.pow_0_r. nia.
Qed.

Lemma fl_normal' (M E : Z) : 0 < M -> normal (fl M E).
Proof. apply fl_normal. Qed.

Lemma inflate_normal (x : Z * Z) : normal x -> normal (inflate x).
Proof. unfold normal, inflate. intros H. apply fl_normal. lia. Qed.

Lemma inflate_mono (x y : Z * Z) :
  normal x -> normal y -> nle x y -> nle (inflate x) (inflate y).
Proof.
  intros Hx Hy H. unfold inflate. apply fl_mono.
  - unfold normal in Hx. lia.
  - replace (snd x - 52) with (snd x + - 52) by lia.
    replace (snd y - 52) with (snd y + - 52) by lia.
    apply nle_vle; try assumption. lia.
Qed.

Lemma renorm_normal (q e : Z) :
  2 ^ 52 <= q <= 2 ^ 53 -> normal (renorm q e).
Proof.
  intros H. unfold normal, renorm.
  destruct (Z.ltb_spec q (2 ^ 53)); cbn [fst]; lia.
Qed.

Lemma renorm_mono (q1 e1 q2 e2 : Z) :
  2 ^ 52 <= q1 <= 2 ^ 53 -> 2 ^ 52 <= q2 <= 2 ^ 53 ->
  e1 < e2 \/ (e1 = e2 /\ q1 <= q2) ->
  nle (renorm q1 e1) (renorm q2 e2).
Proof.
  intros H1 H2 H. unfold nle, renorm.
  destruct (Z.ltb_spec q1 (2 ^ 53)), (Z.ltb_spec q2 (2 ^ 53));
    cbn [fst snd]; lia.
Qed.

Lemma sqrt_round_range (m' : Z) :
  2 ^ 104 <= m' < 2 ^ 106 -> 2 ^ 52 <= sqrt_round m' <= 2 ^ 53.
Proof.
  intros H. pose proof (sqrt_range m' H). unfold sqrt_round.
  destruct (_ <=? _); lia.
Qed.

Lemma sqrt_round_mono (a b : Z) :
  0 <= a <= b -> sqrt_round a <= sqrt_round b.
Proof.
  intros H. unfold sqrt_round.
  pose proof (Z.sqrt_le_mono a b ltac:(lia)) as Hs.
  pose proof (Z.sqrt_spec a ltac:(lia)) as Ha.
  pose proof (Z.sqrt_spec b ltac:(lia)) as Hb.
  pose proof (Z.sqrt_nonneg a).
  destruct (Z.leb_spec (a - Z.sqrt a * Z.sqrt a) (Z.sqrt a)),
           (Z.leb_spec (b - Z.sqrt b * Z.sqrt b) (Z.sqrt b)); try lia.
  destruct (Z.eq_dec (Z.sqrt a) (Z.sqrt b)) as [E|NE]; [|lia].
  rewrite E in *. lia.
Qed.

Lemma fsqrt_eq (m e : Z) :
  fsqrt m e
  = renorm (sqrt_round (m * 2 ^ (e - 2 * (e / 2 - 26)))) (e / 2 - 26).
Proof. reflexivity. Qed.

Lemma fsqrt_arg_range (m e : Z) :
  2 ^ 52 <= m < 2 ^ 53 ->
  2 ^ 104 <= m * 2 ^ (e - 2 * (e / 2 - 26)) < 2 ^ 106 /\
  (e - 2 * (e / 2 - 26) = 52 \/ e - 2 * (e / 2 - 26) = 53).
Proof.
  intros Hm.
  pose proof (Z.div_mod e 2 ltac:(lia)).
  pose proof (Z.mod_pos_bound e 2 ltac:(lia)).
  assert (e - 2 * (e / 2 - 26) = 52 \/ e - 2 * (e / 2 - 26) = 53) as [E|E]
    by lia; rewrite E; lia.
Qed.

Lemma fsqrt_normal (x : Z * Z) :
  normal x -> normal (fsqrt (fst x) (snd x)).
Proof.
  intros H. rewrite fsqrt_eq. apply renorm_normal, sqrt_round_range.
  apply fsqrt_arg_range, H.
Qed.

Lemma fsqrt_mono (x y : Z * Z) :
  normal x -> normal y -> nle x y ->
  nle (fsqrt (fst x) (snd x)) (fsqrt (fst y) (snd y)).
Proof.
  intros Hx Hy H. rewrite !fsqrt_eq.
  destruct (fsqrt_arg_range (fst x) (snd x) Hx) as [Rx Sx].
  destruct (fsqrt_arg_range (fst y) (snd y) Hy) as [Ry Sy].
  apply renorm_mono; try (apply sqrt_round_range; assumption).
  unfold normal, nle in *.
  pose proof (Z.div_mod (snd x) 2 ltac:(lia)).
  pose proof (Z.div_mod (snd y) 2 ltac:(lia)).
  pose proof (Z.mod_pos_bound (snd x) 2 ltac:(lia)).
  pose proof (Z.mod_pos_bound (snd y) 2 ltac:(lia)).
  destruct (Z.eq_dec (snd x / 2) (snd y / 2)) as [E|NE].
  - right. split; [lia|]. apply sqrt_round_mono. split; [lia|].
    destruct H as [Hlt|[Heq Hle]].
    + assert (snd x - 2 * (snd x / 2 - 26) = 52) as -> by lia.
      assert (snd y - 2 * (snd y / 2 - 26) = 53) as -> by lia. lia.
    + rewrite Heq. destruct Sy as [-> | ->]; lia.
  - left. assert (snd x <= snd y) by lia.
    pose proof (Z.div_le_mono (snd x) (snd y) 2 ltac:(lia) ltac:(lia)). lia.
Qed.

Lemma fceil_le_pow (m e : Z) :
  0 < m < 2 ^ 53 -> - 53 <= e <= 0 -> fceil m e <= 2 ^ (53 + e).
Proof.
  intros Hm He. unfold fceil.
  pose proof (pow2_pos (- e) ltac:(lia)) as P.
  pose proof (pow2_pos (53 + e) ltac:(lia)) as P'.
  assert (E : 2 ^ 53 = 2 ^ (- e) * 2 ^ (53 + e)).
  { rewrite <- pow2_split by lia. f_equal. lia. }
  set (a := 2 ^ (- e)) in *. set (B := 2 ^ (53 + e)) in *.
  pose proof (Z.div_mod (- m) a ltac:(lia)).
  pose proof (Z.mod_pos_bound (- m) a P).
  destruct (Z.le_gt_cases (- B) (- m / a)); [lia|]. exfalso.
  assert (a * (- m / a) <= a * (- B - 1))
    by (apply Z.mul_le_mono_nonneg_l; lia).
  lia.
Qed.

Lemma fceil_ge_pow (m e k : Z) :
  2 ^ 52 <= m -> e <= 0 -> 0 <= k -> k - e <= 52 -> 2 ^ k <= fceil m e.
Proof.
  intros Hm He Hk Hke. unfold fceil.
  pose proof (pow2_pos (- e) ltac:(lia)) as P.
  pose proof (pow2_pos k Hk) as P'.
  assert (E : 2 ^ (- e) * 2 ^ k <= 2 ^ 52).
  { rewrite <- pow2_split by lia. apply Z.pow_le_mono_r; lia. }
  set (a := 2 ^ (- e)) in *. set (B := 2 ^ k) in *.
  pose proof (Z.div_mod (- m) a ltac:(lia)).
  pose proof (Z.mod_pos_bound (- m) a P).
  destruct (Z.le_gt_cases B (- (- m / a))); [lia|]. exfalso.
  assert (a * (1 - B) <= a * (- m / a))
    by (apply Z.mul_le_mono_nonneg_l; lia).
  lia.
Qed.

Lemma fceil_mono (x y : Z * Z) :
  normal x -> normal y -> nle x y ->
  - 53 <= snd x -> snd y <= - 1 ->
  fceil (fst x) (snd x) <= fceil (fst y) (snd y).
Proof.
  unfold normal, nle. intros Hx Hy H Hlo Hhi.
  destruct H as [Hlt|[Heq Hle]].
  - pose proof (fceil_le_pow (fst x) (snd x) ltac:(lia) ltac:(lia)).
    pose proof (fceil_ge_pow (fst y) (snd y) (53 + snd x)
                  ltac:(lia) ltac:(lia) ltac:(lia) ltac:(lia)).
    lia.
  - unfold fceil. rewrite Heq.
    pose proof (pow2_pos (- snd y) ltac:(lia)) as Py.
    pose proof (Z.div_le_mono (- fst y) (- fst x) (2 ^ (- snd y)) Py
                  ltac:(lia)).
    lia.
Qed.

(** *** From the sum of the estimates to the least side *)

Lemma digits_le_64 (n : Z) : 0 < n <= 2 ^ 63 -> digits n <= 1000.
Proof.
  intros H. pose proof (digits_mono n (2 ^ 63) ltac:(lia)).
  change (digits (2 ^ 63)) with 64 in *. lia.
Qed.

Lemma vle_same (M N E : Z) : M <= N -> vle M E N E.
Proof.
  intros H. unfold vle. rewrite Z.min_id, Z.sub_diag, Z.pow_0_r. lia.
Qed.

Lemma stage0_mono (n1 n2 : Z) :
  0 < n1 <= n2 -> nle (fl n1 0) (fl n2 0).
Proof. intros H. apply fl_mono; [lia|]. apply vle_same. lia. Qed.

Lemma stages_hold (n : Z) : 2 <= n < 2 ^ 63 -> stages n.
Proof.
  intros Hn.
  assert (N0 : normal (fl n 0)) by (apply fl_normal'; lia).
  assert (Nlo : normal (fl 2 0)) by (apply fl_normal'; lia).
  assert (Nhi : normal (fl (2 ^ 63 - 1) 0)) by (apply fl_normal'; lia).
  pose proof (stage0_mono 2 n ltac:(lia)) as L0.
  pose proof (stage0_mono n (2 ^ 63 - 1) ltac:(lia)) as H0.
  pose proof (inflate_normal _ N0) as N1.
  pose proof (inflate_normal _ Nlo) as N1lo.
  pose proof (inflate_normal _ Nhi) as N1hi.
  pose proof (inflate_mono _ _ Nlo N0 L0) as L1.
  pose proof (inflate_mono _ _ N0 Nhi H0) as H1.
  pose proof (fsqrt_normal _ N1) as N2.
  pose proof (fsqrt_mono _ _ N1lo N1 L1) as L2.
  pose proof (fsqrt_mono _ _ N1 N1hi H1) as H2.
  apply nle_snd in L0, H0, L1, H1, L2, H2.
  assert (E0l : snd (fl 2 0) = - 51) by (vm_compute; reflexivity).
  assert (E0h : snd (fl (2 ^ 63 - 1) 0) = 11) by (vm_compute; reflexivity).
  assert (E1l : snd (inflate (fl 2 0)) = - 51) by (vm_compute; reflexivity).
  assert (E1h : snd (inflate (fl (2 ^ 63 - 1) 0)) = 11)
    by (vm_compute; reflexivity).
  assert (E2l : snd (fsqrt (fst (inflate (fl 2 0)))
                           (snd (inflate (fl 2 0)))) = - 52)
    by (vm_compute; reflexivity).
  assert (E2h : snd (fsqrt (fst (inflate (fl (2 ^ 63 - 1) 0)))
                           (snd (inflate (fl (2 ^ 63 - 1) 0)))) = - 21)
    by (vm_compute; reflexivity).
  constructor; try assumption; lia.
Qed.

Lemma mk_pair (s : bool) (x : Z * Z) : mk s x = mk s (fst x, snd x).
Proof. reflexivity. Qed.

(** [minSizeOf] returns, and what it returns. *)
Lemma minSizeOf_of_int (n : Z) :
  2 <= n < 2 ^ 63 -> minSizeOf (Float64.of_int n) = Some (minSize_ideal n).
Proof.
  intros Hn. destruct (stages_hold n Hn) as [N0 R0 N1 R1 N2 R2].
  unfold minSizeOf, minSize_ideal.
  rewrite of_int_pos by (try apply digits_le_64; lia).
  change Float64.c1_35 with (mk false (6079859496950170, - 52)).
  rewrite (mk_pair false (fl n 0)).
  rewrite mul_fl by (unfold normal in *; try assumption; lia).
  replace (snd (fl n 0) + - 52) with (snd (fl n 0) - 52) by lia.
  fold (inflate (fl n 0)).
  rewrite (mk_pair false (inflate (fl n 0))).
  rewrite Sqrt_fsqrt by (unfold normal in *; try assumption; lia).
  rewrite (mk_pair false (fsqrt _ _)).
  apply Ceil_to_uint64; [exact N2|lia].
Qed.

(** A larger sum never gives a smaller side. *)
Lemma minSize_ideal_mono (n1 n2 : Z) :
  2 <= n1 -> n1 <= n2 -> n2 < 2 ^ 63 ->
  minSize_ideal n1 <= minSize_ideal n2.
Proof.
  intros H1 H12 H2.
  destruct (stages_hold n1 ltac:(lia)) as [N0 R0 N1 R1 N2 R2].
  destruct (stages_hold n2 ltac:(lia)) as [N0' R0' N1' R1' N2' R2'].
  unfold minSize_ideal.
  apply fceil_mono; try assumption; try lia.
  apply fsqrt_mono; try assumption.
  apply inflate_mono; try assumption.
  apply stage0_mono. lia.
Qed.

Lemma minSize_ideal_bounds (n : Z) :
  2 <= n < 2 ^ 63 -> 2 <= minSize_ideal n < 2 ^ 32.
Proof.
  intros Hn.
  pose proof (minSize_ideal_mono 2 n ltac:(lia) ltac:(lia) ltac:(lia)).
  pose proof (minSize_ideal_mono n (2 ^ 63 - 1)
                ltac:(lia) ltac:(lia) ltac:(lia)).
  assert (minSize_ideal 2 = 2) by (vm_compute; reflexivity).
  assert (minSize_ideal (2 ^ 63 - 1) = 3528675708)
    by (vm_compute; reflexivity).
  lia.
Qed.

(** The test [totalSharesUsed <= 1]. *)
Lemma leb_of_int_small (n : Z) :
  - 2 ^ 63 <= n <= 1 -> Float64.leb (Float64.of_int n) Float64.one = true.
Proof.
  intros Hn.
  destruct (Z.eq_dec n 1) as [->|]; [vm_compute; reflexivity|].
  destruct (Z.eq_dec n 0) as [->|]; [vm_compute; reflexivity|].
  rewrite of_int_neg; [reflexivity|lia|].
  apply digits_le_64. lia.
Qed.

Lemma leb_of_int_large (n : Z) :
  2 <= n < 2 ^ 63 -> Float64.leb (Float64.of_int n) Float64.one = false.
Proof.
  intros Hn. destruct (stages_hold n Hn) as [N0 R0 _ _ _ _].
  rewrite of_int_pos by (try apply digits_le_64; lia).
  unfold Float64.leb, SFleb, SFcompare, mk, Float64.one.
  destruct (Z.compare_spec (snd (fl n 0)) (- 52)); try lia; reflexivity.
Qed.

(** ** [estimateSquareSize] *)

Lemma sharesForBytes_range (c : appconsts) (txbytes : Z) :
  - 2 ^ 63 <= sharesForBytes c txbytes < 2 ^ 63.
Proof.
  unfold sharesForBytes.
  destruct (txbytes <=? FirstCompactShareContentSize c);
    [lia|apply int_range].
Qed.

Lemma estimateCompactShares_range
  (c : appconsts) (squareSize : Z) (ptxs : list parsedTx) :
  consts_ok c ->
  exists n,
    estimateCompactShares c squareSize ptxs = Some n /\ 1 <= n < 2 ^ 63.
Proof.
  intros (_ & _ & _ & _ & Hf & Hk & _).
  destruct (estimateCompactShares_pos c squareSize ptxs ltac:(lia) ltac:(lia))
    as (n & E & Hn).
  exists n. split; [exact E|].
  destruct (estimateCompactShares_eq c squareSize ptxs)
    as (overhead & _ & _ & E').
  rewrite E' in E. injection E as <-.
  pose proof (sharesForBytes_range c (int (byteTotal overhead ptxs))). lia.
Qed.

Lemma estimateSquareSize_eq (c : appconsts) (txs : list parsedTx) :
  consts_ok c ->
  exists n,
    estimateCompactShares c (DefaultMaxSquareSize c) txs = Some n /\
    1 <= n < 2 ^ 63 /\
    estimateSquareSize c txs =
      Some (if totalSharesUsed c n txs <=? 1 then DefaultMinSquareSize c
            else clampSquareSize c
                   (uint64 (RoundUpPowerOfTwo
                              (minSize_ideal (totalSharesUsed c n txs)))),
            n).
Proof.
  intros Hc.
  destruct (estimateCompactShares_range c (DefaultMaxSquareSize c) txs Hc)
    as (n & E & Hn).
  exists n. split; [exact E|]. split; [exact Hn|].
  unfold estimateSquareSize. rewrite E.
  fold (totalSharesUsed c n txs).
  pose proof (int_range (n + fold_left (addBlobShares c) txs 0)) as Ht.
  fold (totalSharesUsed c n txs) in Ht.
  destruct (Z.leb_spec (totalSharesUsed c n txs) 1) as [Hle|Hgt].
  - rewrite leb_of_int_small by lia. reflexivity.
  - rewrite leb_of_int_large by lia.
    rewrite minSizeOf_of_int by lia. reflexivity.
Qed.

Lemma RoundUpPowerOfTwo_spec (m : Z) :
  2 <= m < 2 ^ 32 ->
  uint64 (RoundUpPowerOfTwo m) = 2 ^ Z.log2_up m /\
  1 <= Z.log2_up m <= 32.
Proof.
  intros Hm. unfold RoundUpPowerOfTwo.
  assert (1 <= Z.log2_up m).
  { change 1 with (Z.log2_up 2). apply Z.log2_up_le_mono. lia. }
  assert (Z.log2_up m <= 32).
  { change 32 with (Z.log2_up (2 ^ 32)). apply Z.log2_up_le_mono. lia. }
  split; [|lia].
  apply uint64_small. split; [apply Z.pow_nonneg; lia|].
  apply Z.le_lt_trans with (2 ^ 32); [apply Z.pow_le_mono_r; lia|lia].
Qed.

Lemma clampSquareSize_range (c : appconsts) (s : Z) :
  DefaultMinSquareSize c <= DefaultMaxSquareSize c ->
  DefaultMinSquareSize c <= clampSquareSize c s <= DefaultMaxSquareSize c.
Proof.
  intros H. unfold clampSquareSize.
  destruct (Z.leb_spec (DefaultMaxSquareSize c) s);
    match goal with |- context [?a <=? ?b] =>
      destruct (Z.leb_spec a b) end; lia.
Qed.

Lemma clampSquareSize_cases (c : appconsts) (s : Z) :
  clampSquareSize c s = DefaultMinSquareSize c \/
  clampSquareSize c s = DefaultMaxSquareSize c \/
  clampSquareSize c s = s.
Proof.
  unfold clampSquareSize.
  destruct (Z.leb_spec (DefaultMaxSquareSize c) s);
    match goal with |- context [?a <=? ?b] =>
      destruct (Z.leb_spec a b) end; auto.
Qed.

Lemma clampSquareSize_mono (c : appconsts) (s s' : Z) :
  DefaultMinSquareSize c <= DefaultMaxSquareSize c ->
  s <= s' -> clampSquareSize c s <= clampSquareSize c s'.
Proof.
  intros H Hs. unfold clampSquareSize.
  destruct (Z.leb_spec (DefaultMaxSquareSize c) s),
           (Z.leb_spec (DefaultMaxSquareSize c) s');
    repeat match goal with |- context [?a <=? ?b] =>
      destruct (Z.leb_spec a b) end; lia.
Qed.

Lemma consts_ok_powers (c : appconsts) :
  consts_ok c ->
  isPowerOfTwo (DefaultMinSquareSize c) /\
  isPowerOfTwo (DefaultMaxSquareSize c).
Proof.
  intros (Hmin & Emin & Emax & _).
  split; eexists; (split; [|eassumption]); apply Z.log2_nonneg.
Qed.

(** C2.  [estimateSquareSize] returns a result for every list of parsed
    transactions; the square size is a power of two from
    [DefaultMinSquareSize] to [DefaultMaxSquareSize]; and when the sum of the
    compact and sparse share estimates is at most 1 the result is
    [DefaultMinSquareSize] with the compact share count. *)
Theorem estimateSquareSize_power_of_two_in_range
  (c : appconsts) (txs : list parsedTx) :
  consts_ok c ->
  exists squareSize nonreserveStart,
    estimateSquareSize c txs = Some (squareSize, nonreserveStart) /\
    isPowerOfTwo squareSize /\
    DefaultMinSquareSize c <= squareSize <= DefaultMaxSquareSize c /\
    estimateCompactShares c (DefaultMaxSquareSize c) txs
      = Some nonreserveStart /\
    (totalSharesUsed c nonreserveStart txs <= 1 ->
     squareSize = DefaultMinSquareSize c).
Proof.
  intros Hc.
  destruct (estimateSquareSize_eq c txs Hc) as (n & E & Hn & ->).
  destruct (consts_ok_powers c Hc) as [Pmin Pmax].
  pose proof Hc as (Hmin & _).
  do 2 eexists. split; [reflexivity|].
  pose proof (int_range (n + fold_left (addBlobShares c) txs 0)) as Ht.
  fold (totalSharesUsed c n txs) in Ht.
  destruct (Z.leb_spec (totalSharesUsed c n txs) 1) as [Hle|Hgt].
  - repeat split; try assumption; lia.
  - pose proof (minSize_ideal_bounds (totalSharesUsed c n txs) ltac:(lia))
      as Hb.
    destruct (RoundUpPowerOfTwo_spec _ Hb) as [-> Hl].
    pose proof (clampSquareSize_range c
                  (2 ^ Z.log2_up (minSize_ideal (totalSharesUsed c n txs)))
                  ltac:(lia)).
    repeat split; try assumption; try lia.
    destruct (clampSquareSize_cases c
                (2 ^ Z.log2_up (minSize_ideal (totalSharesUsed c n txs))))
      as [-> |[-> | ->]]; try assumption.
    eexists. split; [|reflexivity]. lia.
Qed.

Lemma estimateSquareSize_power_of_two_in_range_witness :
  exists squareSize nonreserveStart,
    estimateSquareSize mainnet [] = Some (squareSize, nonreserveStart) /\
    isPowerOfTwo squareSize /\
    1 <= squareSize <= 128 /\
    estimateCompactShares mainnet 128 [] = Some nonreserveStart /\
    (totalSharesUsed mainnet nonreserveStart [] <= 1 -> squareSize = 1).
Proof.
  apply (estimateSquareSize_power_of_two_in_range mainnet []).
  exact consts_ok_mainnet.
Defined.

(** C5.  The [nonreserveStart] that [estimateSquareSize] returns is the
    compact share count estimated at [DefaultMaxSquareSize], whatever the
    square size returned with it. *)
Theorem estimateSquareSize_nonreserveStart
  (c : appconsts) (txs : list parsedTx) :
  consts_ok c ->
  exists squareSize nonreserveStart,
    estimateSquareSize c txs = Some (squareSize, nonreserveStart) /\
    estimateCompactShares c (DefaultMaxSquareSize c) txs
      = Some nonreserveStart.
Proof.
  intros Hc.
  destruct (estimateSquareSize_eq c txs Hc) as (n & E & Hn & ->).
  do 2 eexists. split; [reflexivity|exact E].
Qed.

Lemma estimateSquareSize_nonreserveStart_witness :
  exists squareSize nonreserveStart,
    estimateSquareSize mainnet [plainTx [1; 2; 3]]
      = Some (squareSize, nonreserveStart) /\
    estimateCompactShares mainnet 128 [plainTx [1; 2; 3]]
      = Some nonreserveStart.
Proof.
  apply (estimateSquareSize_nonreserveStart mainnet [plainTx [1; 2; 3]]).
  exact consts_ok_mainnet.
Defined.

(** ** No overflow on transactions held in memory *)

Lemma sharesNeeded_bounds (first cont L : Z) :
  1 <= first -> 1 <= cont -> 0 <= L ->
  0 <= sharesNeeded first cont L <= L.
Proof.
  intros Hf Hc HL. rewrite sharesNeeded_eq by lia.
  destruct (Z.eqb_spec L 0); [lia|].
  destruct (Z.ltb_spec first L); [|lia].
  assert (0 <= (L - first + cont - 1) / cont) by (apply Z.div_pos; lia).
  assert ((L - first + cont - 1) / cont <= L - first).
  { apply Z.div_le_upper_bound; [lia|]. nia. }
  lia.
Qed.

Lemma blobContribution_range (c : appconsts) (ptx : parsedTx) :
  consts_ok c -> 0 <= blobContribution c ptx < 2 ^ 32.
Proof.
  intros (_ & _ & _ & _ & _ & _ & Hf & Hk). unfold blobContribution.
  destruct (len (normalTx ptx) =? 0); [|lia].
  pose proof (Z.mod_pos_bound (DataUsed (blobTx ptx)) (2 ^ 32) ltac:(lia))
    as Hu. fold (uint32 (DataUsed (blobTx ptx))) in Hu.
  pose proof (sharesNeeded_bounds (FirstSparseShareContentSize c)
                (ContinuationSparseShareContentSize c)
                (uint32 (DataUsed (blobTx ptx)))
                ltac:(lia) ltac:(lia) ltac:(lia)).
  unfold SparseSharesNeeded. lia.
Qed.

Lemma addBlobShares_eq (c : appconsts) (a : Z) (ptx : parsedTx) :
  addBlobShares c (int a) ptx = int (a + blobContribution c ptx).
Proof.
  unfold addBlobShares, blobContribution.
  destruct (len (normalTx ptx) =? 0); cbn [negb].
  - apply int_add_int_l.
  - f_equal. lia.
Qed.

Lemma fold_addBlobShares (c : appconsts) (ptxs : list parsedTx) (a : Z) :
  fold_left (addBlobShares c) ptxs (int a) = int (a + blobTotal c ptxs).
Proof.
  revert a. induction ptxs as [|ptx ptxs IH]; intros a.
  - cbn. f_equal. lia.
  - cbn [fold_left blobTotal fold_right].
    rewrite addBlobShares_eq, IH. f_equal.
    fold (blobTotal c ptxs). lia.
Qed.

Lemma blobTotal_range (c : appconsts) (ptxs : list parsedTx) :
  consts_ok c -> 0 <= blobTotal c ptxs <= len ptxs * 2 ^ 32.
Proof.
  intros Hc. induction ptxs as [|ptx ptxs IH].
  - cbn. lia.
  - cbn [blobTotal fold_right]. fold (blobTotal c ptxs).
    rewrite len_cons. pose proof (blobContribution_range c ptx Hc). lia.
Qed.

Lemma txContribution_range (overhead : Z) (pTx : parsedTx) :
  0 <= overhead ->
  1 <= txContribution overhead pTx
    <= len (normalTx pTx) + len (Tx (blobTx pTx)) + overhead + 10.
Proof.
  intros Ho. unfold txContribution.
  pose proof (len_nonneg (normalTx pTx)).
  pose proof (len_nonneg (Tx (blobTx pTx))).
  destruct (len (normalTx pTx) =? 0).
  - pose proof (DelimLen_bounds (len (Tx (blobTx pTx)) + overhead)). lia.
  - pose proof (DelimLen_bounds (len (normalTx pTx))). lia.
Qed.

Lemma byteTotal_range (overhead : Z) (ptxs : list parsedTx) :
  0 <= overhead ->
  0 <= byteTotal overhead ptxs
    <= txBytesHeld ptxs + len ptxs * (overhead + 10).
Proof.
  intros Ho. induction ptxs as [|pTx ptxs IH].
  - cbn. lia.
  - cbn [byteTotal txBytesHeld fold_right].
    fold (byteTotal overhead ptxs). fold (txBytesHeld ptxs).
    rewrite len_cons. pose proof (txContribution_range overhead pTx Ho).
    lia.
Qed.

Lemma byteTotal_app (overhead : Z) (ptxs : list parsedTx) (pTx : parsedTx) :
  byteTotal overhead (ptxs ++ [pTx])
  = byteTotal overhead ptxs + txContribution overhead pTx.
Proof.
  induction ptxs as [|x ptxs IH].
  - cbn. lia.
  - cbn [app byteTotal fold_right]. fold (byteTotal overhead ptxs).
    fold (byteTotal overhead (ptxs ++ [pTx])). lia.
Qed.

Lemma blobTotal_app (c : appconsts) (ptxs : list parsedTx) (ptx : parsedTx) :
  blobTotal c (ptxs ++ [ptx]) = blobTotal c ptxs + blobContribution c ptx.
Proof.
  induction ptxs as [|x ptxs IH].
  - cbn. lia.
  - cbn [app blobTotal fold_right]. fold (blobTotal c ptxs).
    fold (blobTotal c (ptxs ++ [ptx])). lia.
Qed.

Lemma txBytesHeld_app (ptxs : list parsedTx) (pTx : parsedTx) :
  txBytesHeld (ptxs ++ [pTx])
  = txBytesHeld ptxs + (len (normalTx pTx) + len (Tx (blobTx pTx))).
Proof.
  induction ptxs as [|x ptxs IH].
  - cbn. lia.
  - cbn [app txBytesHeld fold_right]. fold (txBytesHeld ptxs).
    fold (txBytesHeld (ptxs ++ [pTx])). lia.
Qed.

Lemma fitsMemory_prefix (ptxs : list parsedTx) (pTx : parsedTx) :
  fitsMemory (ptxs ++ [pTx]) -> fitsMemory ptxs.
Proof.
  unfold fitsMemory. rewrite len_app, txBytesHeld_app, len_cons, len_nil.
  pose proof (len_nonneg (normalTx pTx)).
  pose proof (len_nonneg (Tx (blobTx pTx))). lia.
Qed.

Lemma txBytesHeld_nonneg (ptxs : list parsedTx) : 0 <= txBytesHeld ptxs.
Proof.
  induction ptxs as [|x ptxs IH]; cbn [txBytesHeld fold_right].
  - lia.
  - fold (txBytesHeld ptxs). pose proof (len_nonneg (normalTx x)).
    pose proof (len_nonneg (Tx (blobTx x))). lia.
Qed.

Lemma sharesForBytes_nowrap (c : appconsts) (txbytes : Z) :
  0 <= FirstCompactShareContentSize c ->
  2 <= ContinuationCompactShareContentSize c ->
  - 2 ^ 63 <= txbytes < 2 ^ 63 ->
  sharesForBytes c txbytes =
    if txbytes <=? FirstCompactShareContentSize c then 1
    else 2 + (txbytes - FirstCompactShareContentSize c)
             / ContinuationCompactShareContentSize c.
Proof.
  intros Hf Hk Ht. unfold sharesForBytes.
  destruct (Z.leb_spec txbytes (FirstCompactShareContentSize c));
    [reflexivity|].
  set (f := FirstCompactShareContentSize c) in *.
  set (k := ContinuationCompactShareContentSize c) in *.
  rewrite (int_small (txbytes - f)) by lia.
  rewrite Z.quot_div_nonneg by lia.
  assert (0 <= (txbytes - f) / k <= (txbytes - f) / 2).
  { split.
    - apply Z.div_pos; lia.
    - apply Z.div_le_compat_l; lia. }
  assert ((txbytes - f) / 2 < 2 ^ 62)
    by (apply Z.div_lt_upper_bound; lia).
  rewrite (int_small (_ / _)) by lia.
  rewrite (int_small (_ + 1)) by lia.
  rewrite int_small by lia. lia.
Qed.

Lemma sharesForBytes_mono (c : appconsts) (t t' : Z) :
  0 <= FirstCompactShareContentSize c ->
  2 <= ContinuationCompactShareContentSize c ->
  - 2 ^ 63 <= t -> t <= t' -> t' < 2 ^ 63 ->
  sharesForBytes c t <= sharesForBytes c t'.
Proof.
  intros Hf Hk Hlo Hle Hhi. rewrite !sharesForBytes_nowrap by lia.
  set (f := FirstCompactShareContentSize c) in *.
  set (k := ContinuationCompactShareContentSize c) in *.
  destruct (Z.leb_spec t f), (Z.leb_spec t' f); try lia.
  - assert (0 <= (t' - f) / k) by (apply Z.div_pos; lia). lia.
  - pose proof (Z.div_le_mono (t - f) (t' - f) k ltac:(lia) ltac:(lia)).
    lia.
Qed.

Lemma sharesForBytes_le (c : appconsts) (t : Z) :
  0 <= FirstCompactShareContentSize c ->
  2 <= ContinuationCompactShareContentSize c ->
  0 <= t < 2 ^ 63 ->
  sharesForBytes c t <= 2 + t / 2.
Proof.
  intros Hf Hk Ht. rewrite sharesForBytes_nowrap by lia.
  set (f := FirstCompactShareContentSize c) in *.
  set (k := ContinuationCompactShareContentSize c) in *.
  assert (0 <= t / 2) by (apply Z.div_pos; lia).
  destruct (Z.leb_spec t f); [lia|].
  assert ((t - f) / k <= (t - f) / 2) by (apply Z.div_le_compat_l; lia).
  pose proof (Z.div_le_mono (t - f) t 2 ltac:(lia) ltac:(lia)). lia.
Qed.

Lemma overhead_at_max (c : appconsts) :
  consts_ok c ->
  exists overhead,
    maxWrappedTxOverhead c (DefaultMaxSquareSize c) = Some overhead /\
    0 <= overhead <= 28.
Proof.
  intros (Hmin & _ & _ & Hmax & _ & Hk & _).
  rewrite maxWrappedTxOverhead_eq by lia.
  eexists. split; [reflexivity|].
  pose proof (DelimLen_bounds
                (DefaultMaxSquareSize c * DefaultMaxSquareSize c
                 * ContinuationCompactShareContentSize c)).
  pose proof (DelimLen_bounds
                (DefaultMaxSquareSize c * DefaultMaxSquareSize c)).
  lia.
Qed.

(** On transactions held in memory no sum wraps around: the estimates are
    the sums of the design document. *)
Lemma estimate_exact (c : appconsts) (txs : list parsedTx) :
  consts_ok c -> fitsMemory txs ->
  exists overhead n,
    maxWrappedTxOverhead c (DefaultMaxSquareSize c) = Some overhead /\
    0 <= overhead <= 28 /\
    estimateCompactShares c (DefaultMaxSquareSize c) txs = Some n /\
    n = sharesForBytes c (byteTotal overhead txs) /\
    0 <= byteTotal overhead txs < 2 ^ 62 + 2 ^ 36 /\
    1 <= n <= 2 ^ 61 + 2 ^ 36 /\
    0 <= blobTotal c txs <= 2 ^ 62 /\
    totalSharesUsed c n txs = n + blobTotal c txs.
Proof.
  intros Hc [Hlen Hheld].
  destruct (overhead_at_max c Hc) as (overhead & Eo & Ho).
  destruct (estimateCompactShares_eq c (DefaultMaxSquareSize c) txs)
    as (overhead' & Eo' & _ & En).
  rewrite Eo in Eo'. injection Eo' as <-.
  pose proof Hc as (_ & _ & _ & _ & Hf & Hk & _).
  pose proof (byteTotal_range overhead txs ltac:(lia)) as Hb.
  pose proof (len_nonneg txs) as Hl.
  pose proof (txBytesHeld_nonneg txs) as Hh.
  assert (Hb' : 0 <= byteTotal overhead txs < 2 ^ 62 + 2 ^ 36) by nia.
  rewrite int_small in En by lia.
  pose proof (blobTotal_range c txs Hc) as Hbl.
  assert (Hbl' : 0 <= blobTotal c txs <= 2 ^ 62) by nia.
  pose proof (sharesForBytes_pos c (byteTotal overhead txs)
                ltac:(lia) ltac:(lia) ltac:(lia)) as Hn1.
  pose proof (sharesForBytes_le c (byteTotal overhead txs)
                ltac:(lia) ltac:(lia) ltac:(lia)) as Hn2.
  assert (byteTotal overhead txs / 2 < 2 ^ 61 + 2 ^ 35)
    by (apply Z.div_lt_upper_bound; lia).
  exists overhead, (sharesForBytes c (byteTotal overhead txs)).
  repeat split; try assumption; try lia.
  unfold totalSharesUsed.
  change 0 with (int 0) at 1. rewrite fold_addBlobShares.
  rewrite int_add_int_r. apply int_small. lia.
Qed.

Lemma estimateSquareSize_squareSizeFor (c : appconsts) (txs : list parsedTx) :
  consts_ok c ->
  exists n,
    estimateCompactShares c (DefaultMaxSquareSize c) txs = Some n /\
    1 <= n < 2 ^ 63 /\
    estimateSquareSize c txs
      = Some (squareSizeFor c (totalSharesUsed c n txs), n).
Proof. exact (estimateSquareSize_eq c txs). Qed.

Lemma squareSizeFor_mono (c : appconsts) (t t' : Z) :
  consts_ok c ->
  - 2 ^ 63 <= t -> t <= t' -> t' < 2 ^ 63 ->
  squareSizeFor c t <= squareSizeFor c t'.
Proof.
  intros Hc Hlo Hle Hhi. pose proof Hc as (Hmin & _).
  unfold squareSizeFor.
  destruct (Z.leb_spec t 1), (Z.leb_spec t' 1); try lia.
  - apply clampSquareSize_range. lia.
  - pose proof (minSize_ideal_bounds t ltac:(lia)) as Hb.
    pose proof (minSize_ideal_bounds t' ltac:(lia)) as Hb'.
    pose proof (minSize_ideal_mono t t' ltac:(lia) Hle Hhi) as Hm.
    destruct (RoundUpPowerOfTwo_spec _ Hb) as [-> Hl].
    destruct (RoundUpPowerOfTwo_spec _ Hb') as [-> Hl'].
    apply clampSquareSize_mono; [lia|].
    apply Z.pow_le_mono_r; [lia|]. apply Z.log2_up_le_mono. exact Hm.
Qed.

(** C8.  Appending a transaction, plain or blob-bearing, to a list of
    parsed transactions held in memory never makes the returned square size
    smaller. *)
Theorem estimateSquareSize_monotone
  (c : appconsts) (txs : list parsedTx) (ptx : parsedTx) :
  consts_ok c -> fitsMemory (txs ++ [ptx]) ->
  exists squareSize nonreserveStart squareSize' nonreserveStart',
    estimateSquareSize c txs = Some (squareSize, nonreserveStart) /\
    estimateSquareSize c (txs ++ [ptx])
      = Some (squareSize', nonreserveStart') /\
    squareSize <= squareSize'.
Proof.
  intros Hc Hfit'. pose proof (fitsMemory_prefix txs ptx Hfit') as Hfit.
  destruct (estimateSquareSize_squareSizeFor c txs Hc) as (n & En & _ & E).
  destruct (estimateSquareSize_squareSizeFor c (txs ++ [ptx]) Hc)
    as (n' & En' & _ & E').
  destruct (estimate_exact c txs Hc Hfit)
    as (o & m & Eo & Ho & Em & Hm & Hb & Hmr & Hbl & Ht).
  destruct (estimate_exact c (txs ++ [ptx]) Hc Hfit')
    as (o' & m' & Eo' & _ & Em' & Hm' & Hb' & Hmr' & Hbl' & Ht').
  rewrite Eo in Eo'. injection Eo' as <-.
  rewrite En in Em. injection Em as <-.
  rewrite En' in Em'. injection Em' as <-.
  rewrite E, E'. do 4 eexists. split; [reflexivity|]. split; [reflexivity|].
  pose proof Hc as (_ & _ & _ & _ & Hf & Hk & _).
  rewrite byteTotal_app in Hm', Hb'. rewrite blobTotal_app in Ht', Hbl'.
  pose proof (txContribution_range o ptx ltac:(lia)).
  pose proof (blobContribution_range c ptx Hc).
  assert (n <= n').
  { rewrite Hm, Hm'. apply sharesForBytes_mono; lia. }
  apply squareSizeFor_mono; try assumption; lia.
Qed.

Lemma estimateSquareSize_monotone_witness :
  exists squareSize nonreserveStart squareSize' nonreserveStart',
    estimateSquareSize mainnet [plainTx [1; 2; 3]]
      = Some (squareSize, nonreserveStart) /\
    estimateSquareSize mainnet
      ([plainTx [1; 2; 3]] ++ [blobBearingTx [4; 5] [{| Data := [6; 7] |}]])
      = Some (squareSize', nonreserveStart') /\
    squareSize <= squareSize'.
Proof.
  apply (estimateSquareSize_monotone mainnet [plainTx [1; 2; 3]]
           (blobBearingTx [4; 5] [{| Data := [6; 7] |}])).
  - exact consts_ok_mainnet.
  - unfold fitsMemory. cbn. lia.
Defined.

(** C10.  For every list of parsed transactions, the empty one included,
    [estimateCompactShares] returns at least 1, at every square size; so
    the [nonreserveStart] that [estimateSquareSize] returns is at least 1,
    and the sum of the share estimates it takes is not zero (this last on
    transactions held in memory, where no sum wraps around). *)
Theorem estimateCompactShares_at_least_one
  (c : appconsts) (txs : list parsedTx) :
  consts_ok c ->
  (forall squareSize, exists n,
     estimateCompactShares c squareSize txs = Some n /\ 1 <= n) /\
  exists squareSize nonreserveStart,
    estimateSquareSize c txs = Some (squareSize, nonreserveStart) /\
    1 <= nonreserveStart /\
    (fitsMemory txs -> 1 <= totalSharesUsed c nonreserveStart txs).
Proof.
  intros Hc. split.
  - intros squareSize.
    destruct (estimateCompactShares_range c squareSize txs Hc)
      as (n & E & Hn).
    exists n. split; [exact E|lia].
  - destruct (estimateSquareSize_squareSizeFor c txs Hc) as (n & En & Hn & E).
    rewrite E. do 2 eexists. split; [reflexivity|]. split; [lia|].
    intros Hfit.
    destruct (estimate_exact c txs Hc Hfit)
      as (o & m & _ & _ & Em & _ & _ & Hmr & Hbl & Ht).
    rewrite En in Em. injection Em as <-. lia.
Qed.

Lemma estimateCompactShares_at_least_one_witness :
  (forall squareSize, exists n,
     estimateCompactShares mainnet squareSize [] = Some n /\ 1 <= n) /\
  exists squareSize nonreserveStart,
    estimateSquareSize mainnet [] = Some (squareSize, nonreserveStart) /\
    1 <= nonreserveStart /\
    (fitsMemory [] -> 1 <= totalSharesUsed mainnet nonreserveStart []).
Proof.
  apply (estimateCompactShares_at_least_one mainnet []).
  exact consts_ok_mainnet.
Defined.

(** ** Share sequences *)

Lemma fold_left_app_concat {A B : Type} (f : B -> list A) (l : list B)
      (acc : list A) :
  fold_left (fun data x => data ++ f x) l acc = acc ++ concat (map f l).
Proof.
  revert acc. induction l as [|x l IH]; intros acc; cbn.
  - now rewrite app_nil_r.
  - rewrite IH. now rewrite <- app_assoc.
Qed.

Lemma RawData_eq (c : appconsts) (s : ShareSequence) :
  RawData c s =
    match Shares s with
    | [] => ([], Some EmptySequence)
    | first :: _ =>
        if IsSequenceStart c first
        then (firstn (Z.to_nat (SequenceLen c first))
                     (concat (map (shareContent c) (Shares s))), None)
        else ([], Some MissingSequenceStart)
    end.
Proof.
  unfold RawData. destruct (Shares s) as [|first rest]; [reflexivity|].
  destruct (IsSequenceStart c first); [|reflexivity].
  now rewrite fold_left_app_concat.
Qed.

(** C3.  [RawData] fails with [EmptySequence] on a sequence of no shares;
    fails with [MissingSequenceStart] when the first share does not have
    the sequence-start flag; and otherwise returns the content bytes of
    all the shares, in order, cut to the declared sequence length: the
    result is a prefix of the content, of exactly the declared length when
    the content has that many bytes. *)
Theorem RawData_spec (c : appconsts) (s : ShareSequence) :
  (Shares s = [] -> snd (RawData c s) = Some EmptySequence) /\
  (forall first rest,
     Shares s = first :: rest -> IsSequenceStart c first = false ->
     snd (RawData c s) = Some MissingSequenceStart) /\
  (forall first rest,
     Shares s = first :: rest -> IsSequenceStart c first = true ->
     exists data,
       RawData c s = (data, None) /\
       data = firstn (Z.to_nat (SequenceLen c first))
                     (concat (map (shareContent c) (Shares s))) /\
       (0 <= SequenceLen c first
           <= len (concat (map (shareContent c) (Shares s))) ->
        len data = SequenceLen c first)).
Proof.
  rewrite RawData_eq. repeat split.
  - intros ->. reflexivity.
  - intros first rest -> ->. reflexivity.
  - intros first rest E Hs. rewrite E, Hs. rewrite <- E.
    eexists. split; [reflexivity|]. split; [reflexivity|].
    intros Hle. unfold len in *. rewrite length_firstn. lia.
Qed.

Lemma bytes_eqb_refl (a : list Z) : bytes_eqb a a = true.
Proof. unfold bytes_eqb. destruct (list_eq_dec Z.eq_dec a a); congruence. Qed.

Lemma bytes_eqb_eq (a b : list Z) : bytes_eqb a b = true -> a = b.
Proof.
  unfold bytes_eqb. destruct (list_eq_dec Z.eq_dec a b); congruence.
Qed.

(** C4.  [validSequenceLen] fails on a sequence of no shares; fails with
    [SequenceLenMismatch] on a sequence that is not padding and whose first
    share does not have the sequence-start flag; and succeeds on every
    sequence that has a share and is under the tail-padding namespace, or
    under the reserved-padding namespace, or is a single share of padding
    content, whatever length its first share declares. *)
Theorem validSequenceLen_spec (c : appconsts) (s : ShareSequence) :
  (Shares s = [] -> validSequenceLen c s = Err EmptySequence) /\
  (forall first rest,
     Shares s = first :: rest -> isPadding c s = false ->
     IsSequenceStart c first = false ->
     validSequenceLen c s = Err SequenceLenMismatch) /\
  (Shares s <> [] ->
   NamespaceID s = TailPaddingNamespaceID c \/
   NamespaceID s = ReservedPaddingNamespaceID c \/
   (exists share, Shares s = [share] /\
                  allZero (shareContent c share) = true) ->
   validSequenceLen c s = Ok tt).
Proof.
  unfold validSequenceLen. repeat split.
  - intros ->. reflexivity.
  - intros first rest -> -> ->. cbn [negb]. rewrite orb_true_r. reflexivity.
  - intros Hne Hpad. destruct (Shares s) as [|first rest] eqn:E;
      [congruence|].
    assert (P : isPadding c s = true).
    { unfold isPadding. destruct Hpad as [->|[->|(share & Es & Hz)]].
      - now rewrite bytes_eqb_refl.
      - now rewrite bytes_eqb_refl, orb_true_r.
      - injection Es as -> ->. rewrite E, Hz. now rewrite orb_true_r. }
    rewrite P. reflexivity.
Qed.

(** ** The round trip of the compact share splitter *)

Section RoundTrip.

Variable c : appconsts.
Hypothesis Hlayout : layout_ok c.

Lemma K_pos : 1 <= ContinuationCompactShareContentSize c.
Proof.
  destruct Hlayout as (H0 & H1 & H2 & H3 & H4).
  unfold ShareInfoBytes, SequenceLenBytes in *. lia.
Qed.

Lemma holds_new :
  holds c (NewCompactShareSplitter c (TxNamespaceID c) ShareVersionZero) [].
Proof.
  destruct Hlayout as (H0 & H1 & H2 & H3 & H4).
  constructor; cbn; try reflexivity; try lia; auto.
Qed.

Lemma sharesFull_snoc (shares : list (list Z)) (s : list Z) :
  sharesFull c shares -> len s = capacityOf c shares ->
  sharesFull c (shares ++ [s]).
Proof.
  destruct shares as [|first rest]; cbn.
  - intros _ H. split; [exact H|constructor].
  - intros [H1 H2] H. split; [exact H1|].
    apply Forall_app. split; [exact H2|]. constructor; [exact H|constructor].
Qed.

Lemma capacityOf_snoc (shares : list (list Z)) (s : list Z) :
  capacityOf c (shares ++ [s]) = ContinuationCompactShareContentSize c.
Proof. destruct shares; reflexivity. Qed.

Lemma snoc_nonempty {A : Type} (l : list A) (a : A) : l ++ [a] <> [].
Proof. destruct l; discriminate. Qed.

Ltac css_simpl :=
  cbn [css_namespace css_version css_shares css_pending css_remaining
       css_written closeShare NewCompactShareSplitter].

Lemma holds_writeByte (css : CompactShareSplitter) (stream : list Z) (b : Z) :
  holds c css stream ->
  holds c (writeByte c css b) (stream ++ [b]) /\
  css_pending (writeByte c css b) <> [].
Proof.
  intros [Hn Hv Hw Hs Hr Hf Hb Hp]. pose proof K_pos as HK.
  unfold writeByte.
  destruct (Z.eqb_spec (css_remaining css) 0) as [E0|N0].
  - split; [|apply snoc_nonempty].
    constructor; css_simpl.
    + exact Hn.
    + exact Hv.
    + rewrite Hw, len_app, len_cons, len_nil. lia.
    + rewrite E0. cbn [Z.to_nat repeat app]. rewrite app_nil_r.
      rewrite concat_app. cbn [concat]. rewrite app_nil_r.
      rewrite <- Hs. reflexivity.
    + lia.
    + rewrite E0. cbn [Z.to_nat repeat]. rewrite app_nil_r.
      apply sharesFull_snoc; [exact Hf|lia].
    + rewrite capacityOf_snoc. cbn [app]. rewrite len_cons, len_nil. lia.
    + right. apply snoc_nonempty.
  - split; [|apply snoc_nonempty].
    constructor; css_simpl.
    + exact Hn.
    + exact Hv.
    + rewrite Hw, len_app, len_cons, len_nil. lia.
    + rewrite app_assoc, Hs. reflexivity.
    + lia.
    + exact Hf.
    + rewrite len_app, len_cons, len_nil. lia.
    + right. apply snoc_nonempty.
Qed.

Lemma holds_writeBytes (bs : list Z) (css : CompactShareSplitter)
      (stream : list Z) :
  holds c css stream ->
  holds c (fold_left (writeByte c) bs css) (stream ++ bs).
Proof.
  revert css stream. induction bs as [|b bs IH]; intros css stream H.
  - cbn. now rewrite app_nil_r.
  - cbn [fold_left]. apply (holds_writeByte css stream b) in H.
    destruct H as [H _]. apply IH in H.
    now rewrite <- app_assoc in H.
Qed.

Lemma PutUvarint_nonempty (x : Z) : PutUvarint x <> [].
Proof.
  unfold PutUvarint. generalize (pred MaxVarintLen64), (uint64 x).
  intros fuel y. destruct fuel; cbn; [discriminate|].
  destruct (128 <=? y); discriminate.
Qed.

Lemma writeByte_closeShare (css : CompactShareSplitter) (b : Z) :
  css_remaining css = 0 ->
  writeByte c (closeShare c css) b = writeByte c css b.
Proof.
  intros E. pose proof K_pos as HK. unfold writeByte.
  rewrite E. cbn [Z.eqb css_remaining closeShare].
  destruct (Z.eqb_spec (ContinuationCompactShareContentSize c) 0); [lia|].
  reflexivity.
Qed.

Lemma WriteTx_eq (css : CompactShareSplitter) (tx : list Z) :
  (css_remaining css =? 0)
  || (len (PutUvarint (len tx)) <=? css_remaining css) = true ->
  WriteTx c css tx = fold_left (writeByte c) (PutUvarint (len tx) ++ tx) css.
Proof.
  intros H. unfold WriteTx.
  destruct (Z.ltb_spec (css_remaining css) (len (PutUvarint (len tx))))
    as [Hlt|Hge]; [|reflexivity].
  apply orb_true_iff in H. destruct H as [H|H].
  - apply Z.eqb_eq in H.
    pose proof (PutUvarint_nonempty (len tx)) as Hne.
    destruct (PutUvarint (len tx)) as [|b bs]; [congruence|].
    cbn [app fold_left]. now rewrite writeByte_closeShare.
  - apply Z.leb_le in H. lia.
Qed.

Lemma delimited_cons (tx : list Z) (txs : list (list Z)) :
  delimited (tx :: txs) = (PutUvarint (len tx) ++ tx) ++ delimited txs.
Proof. reflexivity. Qed.

Lemma holds_WriteTxs (txs : list (list Z)) (css : CompactShareSplitter)
      (stream : list Z) :
  holds c css stream ->
  noDelimiterPadding c css txs = true ->
  holds c (fold_left (WriteTx c) txs css) (stream ++ delimited txs).
Proof.
  revert css stream. induction txs as [|tx txs IH]; intros css stream H Hp.
  - cbn. now rewrite app_nil_r.
  - cbn [noDelimiterPadding] in Hp. apply andb_true_iff in Hp.
    destruct Hp as [Hp1 Hp2].
    cbn [fold_left]. rewrite delimited_cons, app_assoc.
    apply IH; [|exact Hp2].
    rewrite WriteTx_eq by exact Hp1. now apply holds_writeBytes.
Qed.

Lemma delimited_nonempty (txs : list (list Z)) :
  txs <> [] -> delimited txs <> [].
Proof.
  destruct txs as [|tx txs]; [congruence|]. intros _.
  rewrite delimited_cons. pose proof (PutUvarint_nonempty (len tx)).
  destruct (PutUvarint (len tx)); [congruence|discriminate].
Qed.

Lemma NewInfoByte_zero (b : bool) :
  NewInfoByte ShareVersionZero b = Ok (if b then 1 else 0).
Proof. destruct b; reflexivity. Qed.

Lemma Uint32_PutUint32 (n : Z) (rest : list Z) :
  0 <= n < 2 ^ 32 -> Uint32 (PutUint32 n ++ rest) = n.
Proof.
  intros Hn. unfold Uint32, PutUint32. cbn [app nth].
  rewrite !Z.shiftr_div_pow2 by lia.
  change (2 ^ 24) with 16777216. change (2 ^ 16) with 65536.
  change (2 ^ 8) with 256. change (2 ^ 32) with 4294967296 in Hn.
  Z.div_mod_to_equations. lia.
Qed.

Lemma skipn_len_app {A : Type} (l r : list A) :
  skipn (Z.to_nat (len l)) (l ++ r) = r.
Proof.
  unfold len. rewrite Nat2Z.id. induction l; cbn; auto.
Qed.

Lemma nth_len_app {A : Type} (l r : list A) (a d : A) :
  nth (Z.to_nat (len l)) (l ++ a :: r) d = a.
Proof. unfold len. rewrite Nat2Z.id. apply nth_middle. Qed.

Lemma len_PutUint32 (n : Z) : len (PutUint32 n) = 4.
Proof. reflexivity. Qed.

Lemma nslen : len (TxNamespaceID c) = NamespaceSize c.
Proof. apply Hlayout. Qed.

Lemma infoByteOf_buildShare (ib : Z) (sl : option Z) (content : list Z) :
  infoByteOf c (buildShare c (TxNamespaceID c) ib sl content) = ib.
Proof.
  unfold infoByteOf, buildShare, padShare. rewrite <- nslen.
  rewrite <- app_assoc. cbn [app]. apply nth_len_app.
Qed.

Lemma shareContent_first (n : Z) (content : list Z) :
  shareContent c (buildShare c (TxNamespaceID c) 1 (Some n) content)
  = content
    ++ repeat 0 (Z.to_nat (FirstCompactShareContentSize c - len content)).
Proof.
  destruct Hlayout as (H0 & H1 & H2 & H3 & H4).
  unfold shareContent, IsSequenceStart. rewrite infoByteOf_buildShare.
  cbn [Z.odd]. unfold buildShare, padShare.
  replace (NamespaceSize c + ShareInfoBytes + SequenceLenBytes)
    with (len (TxNamespaceID c ++ [1] ++ PutUint32 n)).
  2:{ rewrite !len_app, len_PutUint32, len_cons, len_nil, nslen.
      unfold ShareInfoBytes, SequenceLenBytes. lia. }
  replace ((TxNamespaceID c ++ [1] ++ PutUint32 n ++ content)
           ++ repeat 0 (Z.to_nat (ShareSize c
                - len (TxNamespaceID c ++ [1] ++ PutUint32 n ++ content))))
    with ((TxNamespaceID c ++ [1] ++ PutUint32 n)
          ++ content
          ++ repeat 0 (Z.to_nat (ShareSize c
                - len (TxNamespaceID c ++ [1] ++ PutUint32 n ++ content)))).
  2:{ rewrite <- !app_assoc. reflexivity. }
  rewrite skipn_len_app. do 2 f_equal.
  rewrite !len_app, len_PutUint32, len_cons, len_nil, nslen.
  unfold ShareInfoBytes, SequenceLenBytes in *. lia.
Qed.

Lemma shareContent_cont (content : list Z) :
  shareContent c (buildShare c (TxNamespaceID c) 0 None content)
  = content
    ++ repeat 0 (Z.to_nat (ContinuationCompactShareContentSize c
                           - len content)).
Proof.
  destruct Hlayout as (H0 & H1 & H2 & H3 & H4).
  unfold shareContent, IsSequenceStart. rewrite infoByteOf_buildShare.
  cbn [Z.odd]. unfold buildShare, padShare.
  replace (NamespaceSize c + ShareInfoBytes + 0)
    with (len (TxNamespaceID c ++ [0])).
  2:{ rewrite !len_app, len_cons, len_nil, nslen.
      unfold ShareInfoBytes. lia. }
  cbn [app].
  replace ((TxNamespaceID c ++ 0 :: content)
           ++ repeat 0 (Z.to_nat (ShareSize c
                                  - len (TxNamespaceID c ++ 0 :: content))))
    with ((TxNamespaceID c ++ [0])
          ++ content
          ++ repeat 0 (Z.to_nat (ShareSize c
                                 - len (TxNamespaceID c ++ 0 :: content)))).
  2:{ rewrite <- !app_assoc. reflexivity. }
  rewrite skipn_len_app. do 2 f_equal.
  rewrite !len_app, len_cons, nslen.
  unfold ShareInfoBytes in *. lia.
Qed.

Lemma SequenceLen_first (n : Z) (content : list Z) :
  0 <= n < 2 ^ 32 ->
  SequenceLen c (buildShare c (TxNamespaceID c) 1 (Some n) content) = n.
Proof.
  intros Hn. unfold SequenceLen, IsSequenceStart.
  rewrite infoByteOf_buildShare. cbn [Z.odd].
  unfold buildShare, padShare.
  replace (NamespaceSize c + ShareInfoBytes)
    with (len (TxNamespaceID c ++ [1])).
  2:{ rewrite !len_app, len_cons, len_nil, nslen.
      unfold ShareInfoBytes. lia. }
  replace ((TxNamespaceID c ++ [1] ++ PutUint32 n ++ content)
           ++ repeat 0 (Z.to_nat (ShareSize c
                - len (TxNamespaceID c ++ [1] ++ PutUint32 n ++ content))))
    with ((TxNamespaceID c ++ [1])
          ++ PutUint32 n
          ++ (content
              ++ repeat 0 (Z.to_nat (ShareSize c
                - len (TxNamespaceID c ++ [1] ++ PutUint32 n ++ content))))).
  2:{ rewrite <- !app_assoc. reflexivity. }
  rewrite skipn_len_app. now apply Uint32_PutUint32.
Qed.

Lemma concat_cont_full (shares : list (list Z)) :
  Forall (fun s => len s = ContinuationCompactShareContentSize c) shares ->
  concat (map (fun s => shareContent c
                          (buildShare c (TxNamespaceID c) 0 None s)) shares)
  = concat shares.
Proof.
  induction 1 as [|s shares Hs _ IH]; [reflexivity|].
  cbn [map concat]. rewrite IH, shareContent_cont, Hs, Z.sub_diag.
  cbn [Z.to_nat repeat]. now rewrite app_nil_r.
Qed.

Lemma len_concat_full (shares : list (list Z)) :
  Forall (fun s => len s = ContinuationCompactShareContentSize c) shares ->
  len (concat shares)
  = len shares * ContinuationCompactShareContentSize c.
Proof.
  induction 1 as [|s shares Hs _ IH]; [reflexivity|].
  cbn [concat]. rewrite len_app, len_cons, IH, Hs. lia.
Qed.

Lemma holds_count (css : CompactShareSplitter) (stream : list Z) :
  holds c css stream -> stream <> [] ->
  CompactSharesNeeded c (len stream) = len (css_shares css) + 1.
Proof.
  intros [Hn Hv Hw Hs Hr Hf Hb Hp] Hne.
  destruct Hp as [Hp|Hp]; [congruence|].
  destruct Hlayout as (H0 & H1 & H2 & H3 & H4). pose proof K_pos as HK.
  assert (Hpl : 1 <= len (css_pending css)).
  { destruct (css_pending css); [congruence|].
    rewrite len_cons. pose proof (len_nonneg l). lia. }
  unfold CompactSharesNeeded.
  rewrite sharesNeeded_eq by (try apply len_nonneg; lia).
  rewrite <- Hs, len_app.
  pose proof (len_nonneg (concat (css_shares css))).
  destruct (Z.eqb_spec (len (concat (css_shares css))
                        + len (css_pending css)) 0); [lia|].
  destruct (css_shares css) as [|s1 srest].
  - cbn [concat capacityOf] in *.
    change (@len (list Z) []) with 0 in *. change (@len Z []) with 0 in *.
    destruct (Z.ltb_spec (FirstCompactShareContentSize c)
                         (0 + len (css_pending css))); lia.
  - cbn [concat capacityOf sharesFull] in *. destruct Hf as [Hf1 Hf2].
    rewrite len_app, Hf1, (len_concat_full srest Hf2), len_cons.
    set (Fc := FirstCompactShareContentSize c) in *.
    set (Kc := ContinuationCompactShareContentSize c) in *.
    set (p := len (css_pending css)) in *.
    set (m := len srest) in *.
    assert (0 <= m) by apply len_nonneg.
    destruct (Z.ltb_spec Fc (Fc + m * Kc + p)); [|nia].
    replace (Fc + m * Kc + p - Fc + Kc - 1) with (p - 1 + (m + 1) * Kc)
      by lia.
    rewrite Z.div_add, Z.div_small by lia. lia.
Qed.

Lemma len_map {A B : Type} (f : A -> B) (l : list A) :
  len (map f l) = len l.
Proof. unfold len. now rewrite length_map. Qed.

Lemma firstn_len_app {A : Type} (l r : list A) :
  firstn (Z.to_nat (len l)) (l ++ r) = l.
Proof.
  unfold len. rewrite Nat2Z.id, firstn_app, Nat.sub_diag, firstn_all.
  cbn. apply app_nil_r.
Qed.

Lemma export_holds (css : CompactShareSplitter) (stream : list Z) :
  holds c css stream -> stream <> [] -> len stream < 2 ^ 32 ->
  exists first rest,
    Export c css 0 = Ok (first :: rest, len (first :: rest)) /\
    IsSequenceStart c first = true /\
    SequenceLen c first = len stream /\
    concat (map (shareContent c) (first :: rest))
    = stream ++ repeat 0 (Z.to_nat (css_remaining css)) /\
    len (first :: rest) = len (css_shares css) + 1.
Proof.
  intros H Hne Hlt. pose proof H as [Hn Hv Hw Hs Hr Hf Hb Hp].
  assert (Hl : 1 <= len stream).
  { destruct stream; [congruence|]. rewrite len_cons.
    pose proof (len_nonneg stream). lia. }
  unfold Export. rewrite Hw, Hn, Hv, !NewInfoByte_zero.
  destruct (Z.eqb_spec (len stream) 0); [lia|].
  rewrite uint32_small by lia.
  destruct (css_shares css) as [|s1 srest] eqn:Es.
  - cbn [app map]. do 2 eexists. split; [reflexivity|].
    cbn [capacityOf concat app] in *.
    split.
    { unfold IsSequenceStart. now rewrite infoByteOf_buildShare. }
    split; [apply SequenceLen_first; lia|].
    split; [|rewrite len_cons, !len_nil; lia].
    cbn [map concat]. rewrite shareContent_first, app_nil_r.
    rewrite <- Hs. do 2 f_equal. lia.
  - cbn [app map]. do 2 eexists. split; [reflexivity|].
    cbn [capacityOf concat sharesFull] in *. destruct Hf as [Hf1 Hf2].
    split.
    { unfold IsSequenceStart. now rewrite infoByteOf_buildShare. }
    split; [apply SequenceLen_first; lia|].
    split.
    + cbn [map concat]. rewrite shareContent_first, Hf1, Z.sub_diag.
      cbn [Z.to_nat repeat]. rewrite app_nil_r.
      rewrite map_map, map_app, concat_app.
      rewrite (concat_cont_full srest Hf2).
      cbn [map concat]. rewrite shareContent_cont, app_nil_r.
      rewrite <- Hs, <- !app_assoc. do 4 f_equal. lia.
    + rewrite !len_cons, len_map. rewrite len_app, len_cons, len_nil.
      lia.
Qed.

Lemma roundTrips_holds (txs : list (list Z)) :
  txs <> [] -> len (delimited txs) < 2 ^ 32 ->
  noDelimiterPadding c
    (NewCompactShareSplitter c (TxNamespaceID c) ShareVersionZero) txs
    = true ->
  roundTrips c txs.
Proof.
  intros Hne Hlt Hpad.
  pose proof (holds_WriteTxs txs _ [] holds_new Hpad) as H.
  cbn [app] in H.
  destruct (export_holds _ _ H (delimited_nonempty txs Hne) Hlt)
    as (first & rest & E & Hstart & Hlen & Hdata & Hcount).
  exists (first :: rest), (len (first :: rest)).
  split; [exact E|]. split.
  - rewrite RawData_eq. cbn [Shares]. rewrite Hstart, Hlen, Hdata.
    now rewrite firstn_len_app.
  - unfold validSequenceLen. cbn [Shares].
    destruct (isPadding c _); [reflexivity|].
    unfold numberOfSharesNeeded. cbn [NamespaceID].
    rewrite bytes_eqb_refl, Hstart, Hlen.
    rewrite (holds_count _ _ H (delimited_nonempty txs Hne)), <- Hcount.
    rewrite Z.eqb_refl. reflexivity.
Qed.

End RoundTrip.




(** ** The tests of the package, replayed *)

Example Test_validSequenceLen :
  let ns1 := repeat 1 8 in
  validSequenceLen mainnet {| NamespaceID := []; Shares := [] |}
    = Err EmptySequence /\
  validSequenceLen mainnet
    {| NamespaceID := TailPaddingNamespaceID mainnet;
       Shares := [TailPaddingShare mainnet] |} = Ok tt /\
  validSequenceLen mainnet
    {| NamespaceID := ns1; Shares := [NamespacePaddingShare mainnet ns1] |}
    = Ok tt /\
  validSequenceLen mainnet
    {| NamespaceID := ReservedPaddingNamespaceID mainnet;
       Shares := [ReservedPaddingShare mainnet] |} = Ok tt /\
  validSequenceLen mainnet
    {| NamespaceID := ns1;
       Shares := [shareWithData mainnet ns1 false 0 [15]] |}
    = Err SequenceLenMismatch.
Proof. vm_compute. repeat split. Qed.

(** The case "valid share sequence": five transactions of 200 bytes, split
    with the constants of the network. *)
Example Test_validSequenceLen_valid :
  exists shares next,
    splitTxs mainnet (map (fun b => repeat b 200) [11; 12; 13; 14; 15])
      = Ok (shares, next) /\
    next = 3 /\
    validSequenceLen mainnet
      {| NamespaceID := TxNamespaceID mainnet; Shares := shares |} = Ok tt.
Proof.
  do 2 eexists. split; [vm_compute; reflexivity|].
  split; vm_compute; reflexivity.
Qed.

Example TestShareSequenceRawData :
  let ns := repeat 7 8 in
  fst (RawData mainnet
         {| NamespaceID := TxNamespaceID mainnet; Shares := [] |}) = [] /\
  RawData mainnet
    {| NamespaceID := TxNamespaceID mainnet;
       Shares := [shareWithData mainnet ns true 0 []] |} = ([], None) /\
  RawData mainnet
    {| NamespaceID := TxNamespaceID mainnet;
       Shares := [shareWithData mainnet ns true 1 [15]] |} = ([15], None) /\
  RawData mainnet
    {| NamespaceID := TxNamespaceID mainnet;
       Shares := [shareWithData mainnet ns true (499 + 1) (repeat 15 499);
                  shareWithData mainnet ns false 0 [15]] |}
    = (repeat 15 (499 + 1), None).
Proof. vm_compute. repeat split. Qed.

(** ** The estimator on small blocks *)

(** The literals: 1 is exact, and 1.35 is the quotient of 135 by 100
    rounded to nearest. *)
Example float_literals :
  Float64.one = SFone Float64.prec Float64.emax /\
  Float64.c1_35
  = SFdiv Float64.prec Float64.emax (Float64.of_int 135) (Float64.of_int 100).
Proof. vm_compute. split; reflexivity. Qed.

Lemma maxWrappedTxOverhead_mainnet :
  maxWrappedTxOverhead mainnet 128 = Some 15.
Proof. rewrite maxWrappedTxOverhead_eq by (cbn; lia). reflexivity. Qed.

Lemma estimateSquareSize_mainnet (txs : list parsedTx) :
  estimateSquareSize mainnet txs =
    let n := sharesForBytes mainnet (fold_left (addTxLen 15) txs 0) in
    Some (squareSizeFor mainnet (totalSharesUsed mainnet n txs), n).
Proof.
  destruct (estimateSquareSize_squareSizeFor mainnet txs consts_ok_mainnet)
    as (n & En & _ & E).
  rewrite E. unfold estimateCompactShares in En.
  change (DefaultMaxSquareSize mainnet) with 128 in En.
  rewrite maxWrappedTxOverhead_mainnet in En. injection En as <-.
  reflexivity.
Qed.

(** An empty block; one plain transaction of 200 bytes; a blob-bearing
    transaction of 300 bytes with a blob of 100000 bytes, which takes 199
    sparse shares. *)
Example estimateSquareSize_small_blocks :
  estimateSquareSize mainnet [] = Some (1, 1) /\
  estimateSquareSize mainnet [plainTx (repeat 7 200)] = Some (1, 1) /\
  estimateSquareSize mainnet
    [plainTx (repeat 7 200);
     blobBearingTx (repeat 8 300) [{| Data := repeat 9 (Z.to_nat 100000) |}]]
  = Some (32, 2).
Proof. rewrite !estimateSquareSize_mainnet. vm_compute. repeat split. Qed.

(** * Further properties of the code

    ** Order and content of the transactions *)

Lemma byteTotal_perm (overhead : Z) (l l' : list parsedTx) :
  Permutation l l' -> byteTotal overhead l = byteTotal overhead l'.
Proof. unfold byteTotal. induction 1; cbn [fold_right] in *; lia. Qed.

Lemma blobTotal_perm (c : appconsts) (l l' : list parsedTx) :
  Permutation l l' -> blobTotal c l = blobTotal c l'.
Proof. unfold blobTotal. induction 1; cbn [fold_right] in *; lia. Qed.

Lemma blobSharesUsed_eq (c : appconsts) (txs : list parsedTx) :
  fold_left (addBlobShares c) txs 0 = int (blobTotal c txs).
Proof. exact (fold_addBlobShares c txs 0). Qed.

Lemma estimateSquareSize_congr (c : appconsts) (txs txs' : list parsedTx) :
  estimateCompactShares c (DefaultMaxSquareSize c) txs
    = estimateCompactShares c (DefaultMaxSquareSize c) txs' ->
  fold_left (addBlobShares c) txs 0 = fold_left (addBlobShares c) txs' 0 ->
  estimateSquareSize c txs = estimateSquareSize c txs'.
Proof. intros H1 H2. unfold estimateSquareSize. now rewrite H1, H2. Qed.

(** X1.  The estimates do not depend on the order of the transactions: a
    permutation of the list gives the same compact share count at every
    square size, and the same result of [estimateSquareSize].  Both loops
    only add, and addition in [int] wraps around the same way in any
    order. *)
Theorem estimate_order_independent
  (c : appconsts) (txs txs' : list parsedTx) :
  Permutation txs txs' ->
  (forall squareSize,
     estimateCompactShares c squareSize txs
       = estimateCompactShares c squareSize txs') /\
  estimateSquareSize c txs = estimateSquareSize c txs'.
Proof.
  intros HP.
  assert (H1 : forall s, estimateCompactShares c s txs
                         = estimateCompactShares c s txs').
  { intros s.
    destruct (estimateCompactShares_eq c s txs) as (o & Eo & _ & E).
    destruct (estimateCompactShares_eq c s txs') as (o' & Eo' & _ & E').
    rewrite Eo in Eo'. injection Eo' as <-.
    rewrite E, E', (byteTotal_perm o txs txs' HP). reflexivity. }
  split; [exact H1|].
  apply estimateSquareSize_congr; [apply H1|].
  rewrite !blobSharesUsed_eq, (blobTotal_perm c txs txs' HP). reflexivity.
Qed.

Lemma estimate_order_independent_witness :
  (forall squareSize,
     estimateCompactShares mainnet squareSize
       [plainTx [1; 2; 3]; blobBearingTx [4; 5] [{| Data := [6; 7] |}]]
     = estimateCompactShares mainnet squareSize
         [blobBearingTx [4; 5] [{| Data := [6; 7] |}]; plainTx [1; 2; 3]]) /\
  estimateSquareSize mainnet
    [plainTx [1; 2; 3]; blobBearingTx [4; 5] [{| Data := [6; 7] |}]]
  = estimateSquareSize mainnet
      [blobBearingTx [4; 5] [{| Data := [6; 7] |}]; plainTx [1; 2; 3]].
Proof.
  apply (estimate_order_independent mainnet
           [plainTx [1; 2; 3]; blobBearingTx [4; 5] [{| Data := [6; 7] |}]]
           [blobBearingTx [4; 5] [{| Data := [6; 7] |}]; plainTx [1; 2; 3]]).
  apply perm_swap.
Defined.

Lemma addTxLen_sameSizes (overhead a : Z) (p q : parsedTx) :
  sameSizes p q -> addTxLen overhead a p = addTxLen overhead a q.
Proof.
  intros [H1 H2]. unfold addTxLen. rewrite <- H1.
  destruct (Z.eqb_spec (len (normalTx p)) 0) as [E|E]; cbn [negb].
  - destruct (H2 E) as [-> _]. reflexivity.
  - reflexivity.
Qed.

Lemma addBlobShares_sameSizes (c : appconsts) (a : Z) (p q : parsedTx) :
  sameSizes p q -> addBlobShares c a p = addBlobShares c a q.
Proof.
  intros [H1 H2]. unfold addBlobShares. rewrite <- H1.
  destruct (Z.eqb_spec (len (normalTx p)) 0) as [E|E]; cbn [negb].
  - destruct (H2 E) as [_ ->]. reflexivity.
  - reflexivity.
Qed.

Lemma fold_left_Forall2 {A B : Type} (R : B -> B -> Prop) (f : A -> B -> A)
  (l l' : list B) :
  (forall a p q, R p q -> f a p = f a q) ->
  Forall2 R l l' -> forall a, fold_left f l a = fold_left f l' a.
Proof.
  intros Hf H. induction H as [|p q l l' Hpq _ IH]; intros a; cbn.
  - reflexivity.
  - rewrite (Hf a p q Hpq). apply IH.
Qed.

(** X2.  The estimates read sizes only.  Two lists whose transactions agree,
    one by one, in the length of [normalTx] and, where that is zero, in the
    length of [blobTx.Tx] and in [uint32(blobTx.DataUsed())], give the same
    estimates: the bytes themselves are never read, the blob part of a
    transaction with plain bytes is skipped, and the blob data length counts
    through its conversion to [uint32]. *)
Theorem estimate_sizes_only
  (c : appconsts) (txs txs' : list parsedTx) :
  Forall2 sameSizes txs txs' ->
  (forall squareSize,
     estimateCompactShares c squareSize txs
       = estimateCompactShares c squareSize txs') /\
  estimateSquareSize c txs = estimateSquareSize c txs'.
Proof.
  intros H.
  assert (H1 : forall s, estimateCompactShares c s txs
                         = estimateCompactShares c s txs').
  { intros s. unfold estimateCompactShares.
    destruct (maxWrappedTxOverhead c s) as [o|]; [|reflexivity]. cbn.
    rewrite (fold_left_Forall2 sameSizes (addTxLen o) txs txs'); auto.
    intros a p q. apply addTxLen_sameSizes. }
  split; [exact H1|].
  apply estimateSquareSize_congr; [apply H1|].
  apply (fold_left_Forall2 sameSizes); auto.
  intros a p q. apply addBlobShares_sameSizes.
Qed.

Lemma estimate_sizes_only_witness :
  (forall squareSize,
     estimateCompactShares mainnet squareSize
       [ {| normalTx := [1; 2];
            blobTx := {| Tx := [9]; Blobs := [{| Data := [1] |}] |} |};
         blobBearingTx [1; 2; 3] [{| Data := [5; 6] |}] ]
     = estimateCompactShares mainnet squareSize
         [ plainTx [7; 8];
           blobBearingTx [4; 4; 4] [{| Data := [0] |}; {| Data := [0] |}] ]) /\
  estimateSquareSize mainnet
    [ {| normalTx := [1; 2];
         blobTx := {| Tx := [9]; Blobs := [{| Data := [1] |}] |} |};
      blobBearingTx [1; 2; 3] [{| Data := [5; 6] |}] ]
  = estimateSquareSize mainnet
      [ plainTx [7; 8];
        blobBearingTx [4; 4; 4] [{| Data := [0] |}; {| Data := [0] |}] ].
Proof.
  apply (estimate_sizes_only mainnet
       [ {| normalTx := [1; 2];
            blobTx := {| Tx := [9]; Blobs := [{| Data := [1] |}] |} |};
         blobBearingTx [1; 2; 3] [{| Data := [5; 6] |}] ]
       [ plainTx [7; 8];
         blobBearingTx [4; 4; 4] [{| Data := [0] |}; {| Data := [0] |}] ]).
  repeat constructor; cbn; intros; try lia; try discriminate.
Defined.

(** ** The size of a varint *)

Lemma PutUvarint_from_len_le (k fuel : nat) (x : Z) :
  0 <= x < 2 ^ (7 * Z.of_nat (S k)) ->
  len (PutUvarint_from fuel x) <= Z.of_nat (S k).
Proof.
  revert fuel x. induction k as [|k IH]; intros fuel x Hx.
  - destruct fuel as [|fuel]; cbn [PutUvarint_from].
    + rewrite len_cons, len_nil. lia.
    + change (2 ^ (7 * Z.of_nat 1)) with 128 in Hx.
      destruct (Z.leb_spec 128 x); [lia|]. rewrite len_cons, len_nil. lia.
  - destruct fuel as [|fuel]; cbn [PutUvarint_from].
    + rewrite len_cons, len_nil. lia.
    + destruct (Z.leb_spec 128 x).
      * rewrite len_cons.
        assert (0 <= Z.shiftr x 7 < 2 ^ (7 * Z.of_nat (S k))).
        { rewrite Z.shiftr_div_pow2 by lia. split.
          - apply Z.div_pos; lia.
          - apply Z.div_lt_upper_bound; [lia|].
            rewrite <- Z.pow_add_r by lia.
            replace (7 + 7 * Z.of_nat (S k)) with (7 * Z.of_nat (S (S k)))
              by lia.
            lia. }
        specialize (IH fuel _ H0). lia.
      * rewrite len_cons, len_nil. lia.
Qed.

Lemma DelimLen_le (k : nat) (x : Z) :
  0 <= x < 2 ^ (7 * Z.of_nat (S k)) -> x < 2 ^ 64 ->
  DelimLen x <= Z.of_nat (S k).
Proof.
  intros Hx H64. unfold DelimLen, PutUvarint.
  rewrite uint64_small by lia. now apply PutUvarint_from_len_le.
Qed.

(** ** The overhead, at every square size *)

Lemma overhead_at (c : appconsts) (s : Z) :
  2 <= ContinuationCompactShareContentSize c < 2 ^ 31 ->
  1 <= s < 2 ^ 16 ->
  exists overhead,
    maxWrappedTxOverhead c s = Some overhead /\
    overhead
      = 8 + DelimLen (s * s * ContinuationCompactShareContentSize c)
          + DelimLen (s * s) /\
    10 <= overhead <= 22.
Proof.
  intros Hk Hs. rewrite maxWrappedTxOverhead_eq by assumption.
  eexists. split; [reflexivity|]. split; [reflexivity|].
  set (k := ContinuationCompactShareContentSize c) in *.
  assert (Hss : 1 <= s * s < 2 ^ 32) by nia.
  assert (HL : 2 <= s * s * k < 2 ^ 63) by nia.
  pose proof (DelimLen_bounds (s * s * k)).
  pose proof (DelimLen_bounds (s * s)).
  pose proof (DelimLen_le 8 (s * s * k) ltac:(cbn; lia) ltac:(lia)).
  pose proof (DelimLen_le 4 (s * s) ltac:(cbn; lia) ltac:(lia)).
  lia.
Qed.

Lemma estimate_exact_at (c : appconsts) (s : Z) (txs : list parsedTx) :
  consts_ok c -> fitsMemory txs -> 1 <= s < 2 ^ 16 ->
  exists overhead,
    maxWrappedTxOverhead c s = Some overhead /\
    10 <= overhead <= 22 /\
    fold_left (addTxLen overhead) txs 0 = byteTotal overhead txs /\
    0 <= byteTotal overhead txs < 2 ^ 62 + 2 ^ 36 /\
    estimateCompactShares c s txs
      = Some (sharesForBytes c (byteTotal overhead txs)).
Proof.
  intros Hc [Hlen Hheld] Hs.
  pose proof Hc as (_ & _ & _ & _ & Hf & Hk & _).
  destruct (overhead_at c s Hk Hs) as (o & Eo & _ & Ho).
  destruct (estimateCompactShares_eq c s txs) as (o' & Eo' & Ef & En).
  rewrite Eo in Eo'. injection Eo' as <-.
  pose proof (byteTotal_range o txs ltac:(lia)) as Hb.
  pose proof (len_nonneg txs) as Hl.
  pose proof (txBytesHeld_nonneg txs) as Hh.
  assert (Hb' : 0 <= byteTotal o txs < 2 ^ 62 + 2 ^ 36) by nia.
  rewrite int_small in En, Ef by lia.
  exists o. repeat split; try assumption; lia.
Qed.

(** X3.  The compact share count that [estimateCompactShares] returns is
    enough for the bytes it counted, and exceeds by at most one share what
    they fill: [txbytes] fits the capacity of [sharesUsed] shares, and when
    there are two shares or more, [txbytes] is at least the capacity of
    [sharesUsed - 1] of them. *)
Theorem estimateCompactShares_capacity
  (c : appconsts) (squareSize : Z) (ptxs : list parsedTx) :
  consts_ok c -> fitsMemory ptxs -> 1 <= squareSize < 2 ^ 16 ->
  exists maxWTxOverhead sharesUsed,
    maxWrappedTxOverhead c squareSize = Some maxWTxOverhead /\
    estimateCompactShares c squareSize ptxs = Some sharesUsed /\
    let txbytes := fold_left (addTxLen maxWTxOverhead) ptxs 0 in
    txbytes <= FirstCompactShareContentSize c
               + (sharesUsed - 1) * ContinuationCompactShareContentSize c /\
    (2 <= sharesUsed ->
     FirstCompactShareContentSize c
     + (sharesUsed - 2) * ContinuationCompactShareContentSize c <= txbytes).
Proof.
  intros Hc Hfit Hs.
  destruct (estimate_exact_at c squareSize ptxs Hc Hfit Hs)
    as (o & Eo & Ho & Ef & Hb & En).
  pose proof Hc as (_ & _ & _ & _ & Hf & Hk & _).
  exists o, (sharesForBytes c (byteTotal o ptxs)).
  split; [exact Eo|]. split; [exact En|]. cbv zeta. rewrite Ef.
  rewrite sharesForBytes_nowrap by lia.
  set (b := byteTotal o ptxs) in *.
  set (F := FirstCompactShareContentSize c) in *.
  set (K := ContinuationCompactShareContentSize c) in *.
  destruct (Z.leb_spec b F) as [Hle|Hgt].
  - split; lia.
  - pose proof (Z.div_mod (b - F) K ltac:(lia)) as Hd.
    pose proof (Z.mod_pos_bound (b - F) K ltac:(lia)) as Hm.
    split; [|intros _]; nia.
Qed.

Lemma estimateCompactShares_capacity_witness :
  exists maxWTxOverhead sharesUsed,
    maxWrappedTxOverhead mainnet 64 = Some maxWTxOverhead /\
    estimateCompactShares mainnet 64
      [plainTx (repeat 7 600); blobBearingTx (repeat 8 300) []]
      = Some sharesUsed /\
    let txbytes :=
      fold_left (addTxLen maxWTxOverhead)
                [plainTx (repeat 7 600); blobBearingTx (repeat 8 300) []] 0 in
    txbytes <= FirstCompactShareContentSize mainnet
               + (sharesUsed - 1)
                 * ContinuationCompactShareContentSize mainnet /\
    (2 <= sharesUsed ->
     FirstCompactShareContentSize mainnet
     + (sharesUsed - 2) * ContinuationCompactShareContentSize mainnet
     <= txbytes).
Proof.
  apply (estimateCompactShares_capacity mainnet 64
           [plainTx (repeat 7 600); blobBearingTx (repeat 8 300) []]).
  - exact consts_ok_mainnet.
  - unfold fitsMemory. cbn. lia.
  - lia.
Defined.

(** X4.  Where the estimate is liberal: [estimateCompactShares] returns
    [CompactSharesNeeded] of its byte total, plus one share exactly when the
    total is zero or fills the first share and a whole number of
    continuation shares. *)
Theorem estimateCompactShares_vs_CompactSharesNeeded
  (c : appconsts) (squareSize : Z) (ptxs : list parsedTx) :
  consts_ok c -> fitsMemory ptxs -> 1 <= squareSize < 2 ^ 16 ->
  exists maxWTxOverhead sharesUsed,
    maxWrappedTxOverhead c squareSize = Some maxWTxOverhead /\
    estimateCompactShares c squareSize ptxs = Some sharesUsed /\
    let txbytes := fold_left (addTxLen maxWTxOverhead) ptxs 0 in
    sharesUsed
    = CompactSharesNeeded c txbytes
      + (if (txbytes =? 0)
            || ((FirstCompactShareContentSize c <? txbytes)
                && ((txbytes - FirstCompactShareContentSize c)
                      mod ContinuationCompactShareContentSize c =? 0))
         then 1 else 0).
Proof.
  intros Hc Hfit Hs.
  destruct (estimate_exact_at c squareSize ptxs Hc Hfit Hs)
    as (o & Eo & Ho & Ef & Hb & En).
  pose proof Hc as (_ & _ & _ & _ & Hf & Hk & _).
  exists o, (sharesForBytes c (byteTotal o ptxs)).
  split; [exact Eo|]. split; [exact En|]. cbv zeta. rewrite Ef.
  rewrite sharesForBytes_nowrap by lia.
  unfold CompactSharesNeeded. rewrite sharesNeeded_eq by lia.
  set (b := byteTotal o ptxs) in *.
  set (F := FirstCompactShareContentSize c) in *.
  set (K := ContinuationCompactShareContentSize c) in *.
  destruct (Z.eqb_spec b 0) as [E0|N0].
  - destruct (Z.leb_spec b F); [cbn; lia|lia].
  - cbn [orb]. destruct (Z.leb_spec b F) as [Hle|Hgt].
    + destruct (Z.ltb_spec F b); [lia|]. cbn. lia.
    + destruct (Z.ltb_spec F b); [|lia]. cbn [andb].
      pose proof (Z.div_mod (b - F) K ltac:(lia)) as Hd.
      pose proof (Z.mod_pos_bound (b - F) K ltac:(lia)) as Hm.
      destruct (Z.eqb_spec ((b - F) mod K) 0) as [Em|Em].
      * assert ((b - F + K - 1) / K = (b - F) / K).
        { symmetry. apply Z.div_unique with (r := K - 1); lia. }
        lia.
      * assert ((b - F + K - 1) / K = (b - F) / K + 1).
        { symmetry. apply Z.div_unique with (r := (b - F) mod K - 1); lia. }
        lia.
Qed.

Lemma estimateCompactShares_vs_CompactSharesNeeded_witness :
  exists maxWTxOverhead sharesUsed,
    maxWrappedTxOverhead mainnet 128 = Some maxWTxOverhead /\
    estimateCompactShares mainnet 128 [plainTx (repeat 7 992)]
      = Some sharesUsed /\
    let txbytes :=
      fold_left (addTxLen maxWTxOverhead) [plainTx (repeat 7 992)] 0 in
    sharesUsed
    = CompactSharesNeeded mainnet txbytes
      + (if (txbytes =? 0)
            || ((FirstCompactShareContentSize mainnet <? txbytes)
                && ((txbytes - FirstCompactShareContentSize mainnet)
                      mod ContinuationCompactShareContentSize mainnet =? 0))
         then 1 else 0).
Proof.
  apply (estimateCompactShares_vs_CompactSharesNeeded mainnet 128
           [plainTx (repeat 7 992)]).
  - exact consts_ok_mainnet.
  - unfold fitsMemory. cbn. lia.
  - lia.
Defined.

(** X5.  Appending a transaction never lowers the compact share count, at
    any square size below 2^16; at [DefaultMaxSquareSize] this count is the
    [nonreserveStart] of [estimateSquareSize]. *)
Theorem estimateCompactShares_append
  (c : appconsts) (squareSize : Z) (ptxs : list parsedTx) (pTx : parsedTx) :
  consts_ok c -> fitsMemory (ptxs ++ [pTx]) -> 1 <= squareSize < 2 ^ 16 ->
  exists sharesUsed sharesUsed',
    estimateCompactShares c squareSize ptxs = Some sharesUsed /\
    estimateCompactShares c squareSize (ptxs ++ [pTx]) = Some sharesUsed' /\
    sharesUsed <= sharesUsed'.
Proof.
  intros Hc Hfit' Hs. pose proof (fitsMemory_prefix ptxs pTx Hfit') as Hfit.
  destruct (estimate_exact_at c squareSize ptxs Hc Hfit Hs)
    as (o & Eo & Ho & _ & Hb & En).
  destruct (estimate_exact_at c squareSize _ Hc Hfit' Hs)
    as (o' & Eo' & _ & _ & Hb' & En').
  rewrite Eo in Eo'. injection Eo' as <-.
  pose proof Hc as (_ & _ & _ & _ & Hf & Hk & _).
  do 2 eexists. split; [exact En|]. split; [exact En'|].
  rewrite byteTotal_app in *.
  pose proof (txContribution_range o pTx ltac:(lia)).
  apply sharesForBytes_mono; lia.
Qed.

Lemma estimateCompactShares_append_witness :
  exists sharesUsed sharesUsed',
    estimateCompactShares mainnet 128 [plainTx (repeat 7 400)]
      = Some sharesUsed /\
    estimateCompactShares mainnet 128
      ([plainTx (repeat 7 400)] ++ [blobBearingTx (repeat 8 300) []])
      = Some sharesUsed' /\
    sharesUsed <= sharesUsed'.
Proof.
  apply (estimateCompactShares_append mainnet 128 [plainTx (repeat 7 400)]
           (blobBearingTx (repeat 8 300) [])).
  - exact consts_ok_mainnet.
  - unfold fitsMemory. cbn. lia.
  - lia.
Defined.

Lemma txContribution_mono (o o' : Z) (pTx : parsedTx) :
  0 <= o <= o' -> len (Tx (blobTx pTx)) + o' < 2 ^ 64 ->
  txContribution o pTx <= txContribution o' pTx.
Proof.
  intros Ho Hlt. unfold txContribution.
  destruct (len (normalTx pTx) =? 0); [|lia].
  pose proof (len_nonneg (Tx (blobTx pTx))).
  pose proof (DelimLen_mono (len (Tx (blobTx pTx)) + o)
                (len (Tx (blobTx pTx)) + o') ltac:(lia) ltac:(lia)).
  lia.
Qed.

Lemma byteTotal_mono (o o' : Z) (ptxs : list parsedTx) :
  0 <= o <= o' -> txBytesHeld ptxs + o' < 2 ^ 64 ->
  byteTotal o ptxs <= byteTotal o' ptxs.
Proof.
  intros Ho. unfold byteTotal, txBytesHeld.
  induction ptxs as [|p l IH]; cbn [fold_right]; intros H; [lia|].
  fold (txBytesHeld l) in *.
  pose proof (txBytesHeld_nonneg l). pose proof (len_nonneg (normalTx p)).
  pose proof (len_nonneg (Tx (blobTx p))).
  pose proof (txContribution_mono o o' p Ho ltac:(lia)).
  specialize (IH ltac:(lia)). lia.
Qed.

(** X6.  A larger square size never lowers the compact share count of a
    list of transactions: the overhead added to each blob-bearing
    transaction grows with the square size. *)
Theorem estimateCompactShares_squareSize_mono
  (c : appconsts) (s s' : Z) (ptxs : list parsedTx) :
  consts_ok c -> fitsMemory ptxs -> 1 <= s -> s <= s' -> s' < 2 ^ 16 ->
  exists sharesUsed sharesUsed',
    estimateCompactShares c s ptxs = Some sharesUsed /\
    estimateCompactShares c s' ptxs = Some sharesUsed' /\
    sharesUsed <= sharesUsed'.
Proof.
  intros Hc Hfit H1 Hle Hhi.
  destruct (estimate_exact_at c s ptxs Hc Hfit ltac:(lia))
    as (o & Eo & Ho & _ & Hb & En).
  destruct (estimate_exact_at c s' ptxs Hc Hfit ltac:(lia))
    as (o' & Eo' & Ho' & _ & Hb' & En').
  pose proof Hc as (_ & _ & _ & _ & Hf & Hk & _).
  pose proof (maxWrappedTxOverhead_eq c s Hk ltac:(lia)) as Q.
  pose proof (maxWrappedTxOverhead_eq c s' Hk ltac:(lia)) as Q'.
  set (k := ContinuationCompactShareContentSize c) in *.
  assert (Eo1 : o = 8 + DelimLen (s * s * k) + DelimLen (s * s))
    by congruence.
  assert (Eo2 : o' = 8 + DelimLen (s' * s' * k) + DelimLen (s' * s'))
    by congruence.
  assert (Hss : 1 <= s * s <= s' * s') by nia.
  assert (Hss' : s' * s' < 2 ^ 32) by nia.
  pose proof (DelimLen_mono (s * s) (s' * s') ltac:(lia) ltac:(lia)).
  pose proof (DelimLen_mono (s * s * k) (s' * s' * k) ltac:(nia) ltac:(nia)).
  do 2 eexists. split; [exact En|]. split; [exact En'|].
  destruct Hfit as [_ Hheld].
  pose proof (byteTotal_mono o o' ptxs ltac:(lia) ltac:(lia)).
  apply sharesForBytes_mono; lia.
Qed.

Lemma estimateCompactShares_squareSize_mono_witness :
  exists sharesUsed sharesUsed',
    estimateCompactShares mainnet 1
      [blobBearingTx (repeat 8 300) []; blobBearingTx (repeat 8 180) []]
      = Some sharesUsed /\
    estimateCompactShares mainnet 128
      [blobBearingTx (repeat 8 300) []; blobBearingTx (repeat 8 180) []]
      = Some sharesUsed' /\
    sharesUsed <= sharesUsed'.
Proof.
  apply (estimateCompactShares_squareSize_mono mainnet 1 128
           [blobBearingTx (repeat 8 300) []; blobBearingTx (repeat 8 180) []]).
  - exact consts_ok_mainnet.
  - unfold fitsMemory. cbn. lia.
  - lia.
  - lia.
  - lia.
Defined.

Lemma addTxLen_plain (o o' a : Z) (pTx : parsedTx) :
  len (normalTx pTx) <> 0 -> addTxLen o a pTx = addTxLen o' a pTx.
Proof.
  intros H. unfold addTxLen.
  destruct (Z.eqb_spec (len (normalTx pTx)) 0); [contradiction|reflexivity].
Qed.

Lemma fold_addTxLen_plain (o o' : Z) (ptxs : list parsedTx) :
  Forall (fun pTx => len (normalTx pTx) <> 0) ptxs ->
  forall a, fold_left (addTxLen o) ptxs a = fold_left (addTxLen o') ptxs a.
Proof.
  induction 1 as [|p l Hp _ IH]; intros a; cbn [fold_left]; [reflexivity|].
  rewrite (addTxLen_plain o o' a p Hp). apply IH.
Qed.

Lemma fold_addBlobShares_plain (c : appconsts) (ptxs : list parsedTx) :
  Forall (fun pTx => len (normalTx pTx) <> 0) ptxs ->
  forall a, fold_left (addBlobShares c) ptxs a = a.
Proof.
  induction 1 as [|p l Hp _ IH]; intros a; cbn [fold_left]; [reflexivity|].
  rewrite IH. unfold addBlobShares.
  destruct (Z.eqb_spec (len (normalTx p)) 0); [contradiction|reflexivity].
Qed.

(** X7.  On a list without blob-bearing transactions the square size given
    to [estimateCompactShares] has no effect, and the loop over the blobs of
    [estimateSquareSize] leaves [blobSharesUsed] at zero. *)
Theorem estimate_plain_only (c : appconsts) (txs : list parsedTx) :
  Forall (fun pTx => len (normalTx pTx) <> 0) txs ->
  (forall s s', estimateCompactShares c s txs
                = estimateCompactShares c s' txs) /\
  fold_left (addBlobShares c) txs 0 = 0.
Proof.
  intros H. split.
  - intros s s'. unfold estimateCompactShares.
    destruct (maxWrappedTxOverhead_some c s) as (o & ->).
    destruct (maxWrappedTxOverhead_some c s') as (o' & ->). cbn.
    now rewrite (fold_addTxLen_plain o o' txs H).
  - now apply fold_addBlobShares_plain.
Qed.

Lemma estimate_plain_only_witness :
  (forall s s',
     estimateCompactShares mainnet s [plainTx [1; 2; 3]; plainTx [4]]
     = estimateCompactShares mainnet s' [plainTx [1; 2; 3]; plainTx [4]]) /\
  fold_left (addBlobShares mainnet) [plainTx [1; 2; 3]; plainTx [4]] 0 = 0.
Proof.
  apply (estimate_plain_only mainnet [plainTx [1; 2; 3]; plainTx [4]]).
  repeat constructor; cbn; lia.
Defined.

(** X8.  For a square size from 1 to 2^16 - 1, [maxWrappedTxOverhead] does
    not panic; the overhead is eight bytes of tags, lengths and type
    identifier, the varint of the length of the largest transaction and the
    varint of the share index: from 10 to 22 bytes. *)
Theorem maxWrappedTxOverhead_bounds (c : appconsts) (squareSize : Z) :
  2 <= ContinuationCompactShareContentSize c < 2 ^ 31 ->
  1 <= squareSize < 2 ^ 16 ->
  exists overhead,
    maxWrappedTxOverhead c squareSize = Some overhead /\
    overhead
      = 8 + DelimLen (squareSize * squareSize
                      * ContinuationCompactShareContentSize c)
          + DelimLen (squareSize * squareSize) /\
    10 <= overhead <= 22.
Proof. apply overhead_at. Qed.

Lemma maxWrappedTxOverhead_bounds_witness :
  exists overhead,
    maxWrappedTxOverhead mainnet 128 = Some overhead /\
    overhead
      = 8 + DelimLen (128 * 128 * ContinuationCompactShareContentSize mainnet)
          + DelimLen (128 * 128) /\
    10 <= overhead <= 22.
Proof.
  apply (maxWrappedTxOverhead_bounds mainnet 128).
  - change (ContinuationCompactShareContentSize mainnet) with 499. lia.
  - lia.
Defined.

(** ** The square and the total *)

Lemma coversFrom_sound (fuel : nat) (a : Z) :
  coversFrom fuel a = true -> 2 <= a ->
  forall n, a <= n < 2 ^ 63 -> n <= minSize_ideal n * minSize_ideal n.
Proof.
  revert a. induction fuel as [|fuel IH]; intros a H Ha n Hn;
    cbn [coversFrom] in H.
  - apply Z.leb_le in H. lia.
  - destruct (Z.leb_spec (2 ^ 63) a) as [|Hlt]; [lia|].
    destruct (Z.leb_spec a (minSize_ideal a * minSize_ideal a)) as [Hs|];
      [|discriminate].
    pose proof (minSize_ideal_bounds a ltac:(lia)) as Hb.
    destruct (Z_le_gt_dec n (minSize_ideal a * minSize_ideal a)) as [Hle|Hgt].
    + pose proof (minSize_ideal_mono a n Ha ltac:(lia) ltac:(lia)). nia.
    + apply (IH _ H); nia.
Qed.

Lemma withinFrom_sound (fuel : nat) (a : Z) :
  withinFrom fuel a = true -> 2 <= a ->
  forall n, a <= n < 2 ^ 63 ->
  20 * ((minSize_ideal n - 1) * (minSize_ideal n - 1)) <= 28 * n.
Proof.
  revert a. induction fuel as [|fuel IH]; intros a H Ha n Hn;
    cbn [withinFrom] in H.
  - apply Z.leb_le in H. lia.
  - destruct (Z.leb_spec (2 ^ 63) a) as [|Hlt]; [lia|]. cbv zeta in H.
    set (b := Z.min (a + a / 30) (2 ^ 63 - 1)) in *.
    assert (Hb : a <= b < 2 ^ 63).
    { pose proof (Z.div_pos a 30 ltac:(lia) ltac:(lia)). subst b. lia. }
    destruct (Z.leb_spec (20 * ((minSize_ideal b - 1) * (minSize_ideal b - 1)))
                         (28 * a)) as [Hs|]; [|discriminate].
    destruct (Z_le_gt_dec n b) as [Hle|Hgt].
    + pose proof (minSize_ideal_mono n b ltac:(lia) Hle ltac:(lia)).
      pose proof (minSize_ideal_bounds n ltac:(lia)). nia.
    + apply (IH _ H); lia.
Qed.

(** The rounded root is a root: its square is not below the total, and the
    square of the integer before it is below 1.4 times the total. *)
Lemma minSize_ideal_square (n : Z) :
  2 <= n < 2 ^ 63 ->
  n <= minSize_ideal n * minSize_ideal n /\
  20 * ((minSize_ideal n - 1) * (minSize_ideal n - 1)) <= 28 * n.
Proof.
  intros Hn. split.
  - apply (coversFrom_sound 200 2); [vm_compute; reflexivity|lia|lia].
  - apply (withinFrom_sound 1400 2); [vm_compute; reflexivity|lia|lia].
Qed.

Lemma squareSizeFor_pow2 (c : appconsts) (t : Z) :
  consts_ok c -> - 2 ^ 63 <= t < 2 ^ 63 ->
  isPowerOfTwo (squareSizeFor c t) /\
  DefaultMinSquareSize c <= squareSizeFor c t <= DefaultMaxSquareSize c.
Proof.
  intros Hc Ht. destruct (consts_ok_powers c Hc) as [Pmin Pmax].
  pose proof Hc as (Hmin & _). unfold squareSizeFor.
  destruct (Z.leb_spec t 1) as [Hle|Hgt].
  - split; [assumption|lia].
  - pose proof (minSize_ideal_bounds t ltac:(lia)) as Hb.
    destruct (RoundUpPowerOfTwo_spec _ Hb) as [-> Hl].
    split; [|apply clampSquareSize_range; lia].
    destruct (clampSquareSize_cases c (2 ^ Z.log2_up (minSize_ideal t)))
      as [-> |[-> | ->]]; try assumption.
    eexists. split; [|reflexivity]. lia.
Qed.

Lemma squareSizeFor_area (c : appconsts) (t : Z) :
  consts_ok c -> - 2 ^ 63 <= t < 2 ^ 63 ->
  (squareSizeFor c t = DefaultMaxSquareSize c \/
   t <= squareSizeFor c t * squareSizeFor c t) /\
  (squareSizeFor c t = DefaultMinSquareSize c \/
   5 * (squareSizeFor c t * squareSizeFor c t) <= 28 * t).
Proof.
  intros Hc Ht. pose proof Hc as (Hmin & _). unfold squareSizeFor.
  destruct (Z.leb_spec t 1) as [Hle|Hgt].
  - split; [right; nia|left; reflexivity].
  - pose proof (minSize_ideal_bounds t ltac:(lia)) as Hb.
    destruct (minSize_ideal_square t ltac:(lia)) as [Hlo Hhi].
    destruct (RoundUpPowerOfTwo_spec _ Hb) as [-> Hl].
    set (m := minSize_ideal t) in *.
    pose proof (Z.log2_up_spec m ltac:(lia)) as Hs.
    assert (Hp : 2 ^ Z.log2_up m = 2 * 2 ^ Z.pred (Z.log2_up m)).
    { rewrite <- Z.pow_succ_r by lia. f_equal. lia. }
    set (R := 2 ^ Z.log2_up m) in *.
    unfold clampSquareSize.
    destruct (Z.leb_spec (DefaultMaxSquareSize c) R) as [HM|HM].
    + destruct (Z.leb_spec (DefaultMaxSquareSize c) (DefaultMinSquareSize c)).
      * split; left; lia.
      * split; [left; reflexivity|right]. nia.
    + destruct (Z.leb_spec R (DefaultMinSquareSize c)).
      * split; [right; nia|left; reflexivity].
      * split; right; nia.
Qed.

Lemma totalSharesUsed_range (c : appconsts) (n : Z) (txs : list parsedTx) :
  - 2 ^ 63 <= totalSharesUsed c n txs < 2 ^ 63.
Proof. unfold totalSharesUsed. apply int_range. Qed.

(** X9.  The square that [estimateSquareSize] returns holds the shares it
    estimated, unless it is the largest square: [squareSize] is
    [DefaultMaxSquareSize], or [squareSize * squareSize] is not below the
    sum of the two share estimates. *)
Theorem estimateSquareSize_holds_total
  (c : appconsts) (txs : list parsedTx) :
  consts_ok c ->
  exists squareSize nonreserveStart,
    estimateSquareSize c txs = Some (squareSize, nonreserveStart) /\
    (squareSize = DefaultMaxSquareSize c \/
     totalSharesUsed c nonreserveStart txs <= squareSize * squareSize).
Proof.
  intros Hc.
  destruct (estimateSquareSize_squareSizeFor c txs Hc) as (n & _ & _ & E).
  do 2 eexists. split; [exact E|].
  apply squareSizeFor_area; [exact Hc|apply totalSharesUsed_range].
Qed.

Lemma estimateSquareSize_holds_total_witness :
  exists squareSize nonreserveStart,
    estimateSquareSize mainnet
      [blobBearingTx [4; 5] [{| Data := repeat 6 3000 |}]]
      = Some (squareSize, nonreserveStart) /\
    (squareSize = DefaultMaxSquareSize mainnet \/
     totalSharesUsed mainnet nonreserveStart
       [blobBearingTx [4; 5] [{| Data := repeat 6 3000 |}]]
     <= squareSize * squareSize).
Proof.
  apply (estimateSquareSize_holds_total mainnet
           [blobBearingTx [4; 5] [{| Data := repeat 6 3000 |}]]).
  exact consts_ok_mainnet.
Defined.

(** X10.  The over-estimate is bounded: unless [squareSize] is
    [DefaultMinSquareSize], the area [squareSize * squareSize] is at most
    5.6 times the sum of the two share estimates (1.35 for the padding,
    4 for rounding the side up to a power of two, and the rounding of the
    root). *)
Theorem estimateSquareSize_area_bound
  (c : appconsts) (txs : list parsedTx) :
  consts_ok c ->
  exists squareSize nonreserveStart,
    estimateSquareSize c txs = Some (squareSize, nonreserveStart) /\
    (squareSize = DefaultMinSquareSize c \/
     5 * (squareSize * squareSize)
     <= 28 * totalSharesUsed c nonreserveStart txs).
Proof.
  intros Hc.
  destruct (estimateSquareSize_squareSizeFor c txs Hc) as (n & _ & _ & E).
  do 2 eexists. split; [exact E|].
  apply squareSizeFor_area; [exact Hc|apply totalSharesUsed_range].
Qed.

Lemma estimateSquareSize_area_bound_witness :
  exists squareSize nonreserveStart,
    estimateSquareSize mainnet
      [blobBearingTx [4; 5] [{| Data := repeat 6 1200 |}]]
      = Some (squareSize, nonreserveStart) /\
    (squareSize = DefaultMinSquareSize mainnet \/
     5 * (squareSize * squareSize)
     <= 28 * totalSharesUsed mainnet nonreserveStart
              [blobBearingTx [4; 5] [{| Data := repeat 6 1200 |}]]).
Proof.
  apply (estimateSquareSize_area_bound mainnet
           [blobBearingTx [4; 5] [{| Data := repeat 6 1200 |}]]).
  exact consts_ok_mainnet.
Defined.

(** X11.  When the largest square is returned: always when the sum of the
    share estimates is above a quarter of the area of the largest square;
    and, where the smallest and the largest square differ, only when the
    sum is at least 5/28 of that area. *)
Theorem estimateSquareSize_cap
  (c : appconsts) (txs : list parsedTx) :
  consts_ok c ->
  exists squareSize nonreserveStart,
    estimateSquareSize c txs = Some (squareSize, nonreserveStart) /\
    (DefaultMaxSquareSize c * DefaultMaxSquareSize c
     < 4 * totalSharesUsed c nonreserveStart txs ->
     squareSize = DefaultMaxSquareSize c) /\
    (squareSize = DefaultMaxSquareSize c ->
     DefaultMinSquareSize c < DefaultMaxSquareSize c ->
     5 * (DefaultMaxSquareSize c * DefaultMaxSquareSize c)
     <= 28 * totalSharesUsed c nonreserveStart txs).
Proof.
  intros Hc.
  destruct (estimateSquareSize_squareSizeFor c txs Hc) as (n & _ & _ & E).
  do 2 eexists. split; [exact E|].
  pose proof (totalSharesUsed_range c n txs) as Ht.
  destruct (squareSizeFor_area c _ Hc Ht) as [Hlo Hhi].
  destruct (squareSizeFor_pow2 c _ Hc Ht) as [(k & Hk & Ek) Hr].
  destruct (consts_ok_powers c Hc) as [_ (j & Hj & Ej)].
  set (sq := squareSizeFor c (totalSharesUsed c n txs)) in *.
  split.
  - intros Hbig. destruct Hlo as [?|Hlo]; [assumption|].
    destruct (Z.eq_dec sq (DefaultMaxSquareSize c)) as [?|Hne]; [assumption|].
    exfalso.
    assert (Hlt : 2 ^ k < 2 ^ j) by lia.
    apply Z.pow_lt_mono_r_iff in Hlt; [|lia|lia].
    assert (2 ^ (k + 1) <= 2 ^ j) by (apply Z.pow_le_mono_r; lia).
    rewrite Z.pow_add_r in H by lia. change (2 ^ 1) with 2 in H. nia.
  - intros HM Hlt. destruct Hhi as [?|Hhi]; [lia|]. rewrite HM in Hhi.
    exact Hhi.
Qed.

Lemma estimateSquareSize_cap_witness :
  exists squareSize nonreserveStart,
    estimateSquareSize mainnet
      [blobBearingTx [4; 5] [{| Data := repeat 6 (Z.to_nat 3000000) |}]]
      = Some (squareSize, nonreserveStart) /\
    (DefaultMaxSquareSize mainnet * DefaultMaxSquareSize mainnet
     < 4 * totalSharesUsed mainnet nonreserveStart
             [blobBearingTx [4; 5] [{| Data := repeat 6 (Z.to_nat 3000000) |}]] ->
     squareSize = DefaultMaxSquareSize mainnet) /\
    (squareSize = DefaultMaxSquareSize mainnet ->
     DefaultMinSquareSize mainnet < DefaultMaxSquareSize mainnet ->
     5 * (DefaultMaxSquareSize mainnet * DefaultMaxSquareSize mainnet)
     <= 28 * totalSharesUsed mainnet nonreserveStart
              [blobBearingTx [4; 5] [{| Data := repeat 6 (Z.to_nat 3000000) |}]]).
Proof.
  apply (estimateSquareSize_cap mainnet
           [blobBearingTx [4; 5] [{| Data := repeat 6 (Z.to_nat 3000000) |}]]).
  exact consts_ok_mainnet.
Defined.

Lemma byteTotal_plain (o o' : Z) (ptxs : list parsedTx) :
  Forall (fun pTx => len (normalTx pTx) <> 0) ptxs ->
  byteTotal o ptxs = byteTotal o' ptxs.
Proof.
  unfold byteTotal.
  induction 1 as [|p l Hp _ IH]; cbn [fold_right]; [reflexivity|].
  rewrite IH. unfold txContribution.
  destruct (Z.eqb_spec (len (normalTx p)) 0); [contradiction|reflexivity].
Qed.

(** X12.  A block of plain transactions whose bytes, each transaction after
    its delimiter, fit in the first compact share gets the smallest square
    and one compact share; the empty block is such a block.  (The byte
    total is taken with overhead 0: no transaction of the block is
    blob-bearing, so the overhead plays no part.) *)
Theorem estimateSquareSize_minimum_block
  (c : appconsts) (txs : list parsedTx) :
  consts_ok c ->
  Forall (fun pTx => len (normalTx pTx) <> 0) txs ->
  byteTotal 0 txs <= FirstCompactShareContentSize c ->
  estimateSquareSize c txs = Some (DefaultMinSquareSize c, 1).
Proof.
  intros Hc Hplain Hfit.
  destruct (estimateSquareSize_eq c txs Hc) as (n & E & Hn & ->).
  destruct (estimateCompactShares_eq c (DefaultMaxSquareSize c) txs)
    as (o & _ & _ & En).
  rewrite E in En. injection En as ->.
  pose proof Hc as (_ & _ & _ & _ & Hf & Hk & _).
  rewrite (byteTotal_plain o 0 txs Hplain).
  pose proof (byteTotal_range 0 txs ltac:(lia)) as [Hb _].
  rewrite int_small by lia.
  unfold sharesForBytes.
  destruct (Z.leb_spec (byteTotal 0 txs) (FirstCompactShareContentSize c));
    [|lia].
  unfold totalSharesUsed.
  rewrite (fold_addBlobShares_plain c txs Hplain). reflexivity.
Qed.

Lemma estimateSquareSize_minimum_block_witness :
  estimateSquareSize mainnet [plainTx (repeat 7 200); plainTx (repeat 9 100)]
  = Some (DefaultMinSquareSize mainnet, 1).
Proof.
  apply (estimateSquareSize_minimum_block mainnet
           [plainTx (repeat 7 200); plainTx (repeat 9 100)]).
  - exact consts_ok_mainnet.
  - repeat constructor; discriminate.
  - vm_compute. discriminate.
Defined.

(** ** Sums and concatenation *)

(** X13.  On transactions held in memory no sum of the estimator leaves the
    range of [int]: the byte total and the blob share total that the two
    loops compute are the sums of the contributions of the transactions,
    taken in the integers, and the sum of the two share estimates is their
    sum in the integers, from 1 to below 2^63. *)
Theorem estimateSquareSize_no_overflow
  (c : appconsts) (txs : list parsedTx) :
  consts_ok c -> fitsMemory txs ->
  exists maxWTxOverhead txSharesUsed,
    maxWrappedTxOverhead c (DefaultMaxSquareSize c) = Some maxWTxOverhead /\
    estimateCompactShares c (DefaultMaxSquareSize c) txs
      = Some txSharesUsed /\
    fold_left (addTxLen maxWTxOverhead) txs 0
      = byteTotal maxWTxOverhead txs /\
    fold_left (addBlobShares c) txs 0 = blobTotal c txs /\
    totalSharesUsed c txSharesUsed txs = txSharesUsed + blobTotal c txs /\
    1 <= txSharesUsed + blobTotal c txs < 2 ^ 63.
Proof.
  intros Hc Hfit.
  destruct (estimate_exact c txs Hc Hfit)
    as (o & n & Eo & Ho & En & Hn & Hb & Hnr & Hbl & Ht).
  destruct (estimateCompactShares_eq c (DefaultMaxSquareSize c) txs)
    as (o' & Eo' & Ef & _).
  rewrite Eo in Eo'. injection Eo' as <-.
  exists o, n. split; [exact Eo|]. split; [exact En|].
  split; [rewrite Ef; apply int_small; lia|].
  split; [rewrite blobSharesUsed_eq; apply int_small; lia|].
  split; [exact Ht|lia].
Qed.

Lemma estimateSquareSize_no_overflow_witness :
  exists maxWTxOverhead txSharesUsed,
    maxWrappedTxOverhead mainnet (DefaultMaxSquareSize mainnet)
      = Some maxWTxOverhead /\
    estimateCompactShares mainnet (DefaultMaxSquareSize mainnet)
      [plainTx [1; 2; 3]; blobBearingTx [4; 5] [{| Data := [6; 7] |}]]
      = Some txSharesUsed /\
    fold_left (addTxLen maxWTxOverhead)
      [plainTx [1; 2; 3]; blobBearingTx [4; 5] [{| Data := [6; 7] |}]] 0
      = byteTotal maxWTxOverhead
          [plainTx [1; 2; 3]; blobBearingTx [4; 5] [{| Data := [6; 7] |}]] /\
    fold_left (addBlobShares mainnet)
      [plainTx [1; 2; 3]; blobBearingTx [4; 5] [{| Data := [6; 7] |}]] 0
      = blobTotal mainnet
          [plainTx [1; 2; 3]; blobBearingTx [4; 5] [{| Data := [6; 7] |}]] /\
    totalSharesUsed mainnet txSharesUsed
      [plainTx [1; 2; 3]; blobBearingTx [4; 5] [{| Data := [6; 7] |}]]
      = txSharesUsed
        + blobTotal mainnet
            [plainTx [1; 2; 3]; blobBearingTx [4; 5] [{| Data := [6; 7] |}]] /\
    1 <= txSharesUsed
         + blobTotal mainnet
             [plainTx [1; 2; 3]; blobBearingTx [4; 5] [{| Data := [6; 7] |}]]
      < 2 ^ 63.
Proof.
  apply (estimateSquareSize_no_overflow mainnet
           [plainTx [1; 2; 3]; blobBearingTx [4; 5] [{| Data := [6; 7] |}]]).
  - exact consts_ok_mainnet.
  - unfold fitsMemory. cbn. lia.
Defined.

Lemma byteTotal_concat (overhead : Z) (l1 l2 : list parsedTx) :
  byteTotal overhead (l1 ++ l2)
  = byteTotal overhead l1 + byteTotal overhead l2.
Proof.
  unfold byteTotal. induction l1 as [|p l1 IH]; cbn [app fold_right]; lia.
Qed.

Lemma txBytesHeld_concat (l1 l2 : list parsedTx) :
  txBytesHeld (l1 ++ l2) = txBytesHeld l1 + txBytesHeld l2.
Proof.
  unfold txBytesHeld. induction l1 as [|p l1 IH]; cbn [app fold_right]; lia.
Qed.

Lemma fitsMemory_concat (l1 l2 : list parsedTx) :
  fitsMemory (l1 ++ l2) -> fitsMemory l1 /\ fitsMemory l2.
Proof.
  unfold fitsMemory. rewrite len_app, txBytesHeld_concat.
  pose proof (len_nonneg l1). pose proof (len_nonneg l2).
  pose proof (txBytesHeld_nonneg l1). pose proof (txBytesHeld_nonneg l2).
  lia.
Qed.

(** X14.  Two lists and their concatenation, where a first share holds less
    than a continuation share: the compact share count of the concatenation
    is at least that of either list, and at most the sum of the two. *)
Theorem estimateCompactShares_concat
  (c : appconsts) (squareSize : Z) (ptxs1 ptxs2 : list parsedTx) :
  consts_ok c ->
  FirstCompactShareContentSize c < ContinuationCompactShareContentSize c ->
  fitsMemory (ptxs1 ++ ptxs2) -> 1 <= squareSize < 2 ^ 16 ->
  exists n1 n2 n,
    estimateCompactShares c squareSize ptxs1 = Some n1 /\
    estimateCompactShares c squareSize ptxs2 = Some n2 /\
    estimateCompactShares c squareSize (ptxs1 ++ ptxs2) = Some n /\
    n1 <= n /\ n2 <= n /\ n <= n1 + n2.
Proof.
  intros Hc HFK Hfit Hs.
  destruct (fitsMemory_concat _ _ Hfit) as [Hfit1 Hfit2].
  destruct (estimate_exact_at c squareSize ptxs1 Hc Hfit1 Hs)
    as (o & Eo & Ho & _ & Hb1 & En1).
  destruct (estimate_exact_at c squareSize ptxs2 Hc Hfit2 Hs)
    as (o2 & Eo2 & _ & _ & Hb2 & En2).
  destruct (estimate_exact_at c squareSize _ Hc Hfit Hs)
    as (o3 & Eo3 & _ & _ & Hb & En).
  rewrite Eo in Eo2, Eo3. injection Eo2 as <-. injection Eo3 as <-.
  pose proof Hc as (_ & _ & _ & _ & Hf & Hk & _).
  do 3 eexists. split; [exact En1|]. split; [exact En2|].
  split; [exact En|]. rewrite byteTotal_concat in *.
  split; [apply sharesForBytes_mono; lia|].
  split; [apply sharesForBytes_mono; lia|].
  rewrite !sharesForBytes_nowrap by lia.
  set (b1 := byteTotal o ptxs1) in *. set (b2 := byteTotal o ptxs2) in *.
  set (F := FirstCompactShareContentSize c) in *.
  set (K := ContinuationCompactShareContentSize c) in *.
  destruct (Z.leb_spec (b1 + b2) F), (Z.leb_spec b1 F), (Z.leb_spec b2 F);
    try lia.
  - assert ((b1 + b2 - F) / K = 0) by (apply Z.div_small; lia). lia.
  - assert ((b1 + b2 - F) / K < (b2 - F) / K + 2); [|lia].
    pose proof (Z.div_mod (b2 - F) K ltac:(lia)).
    pose proof (Z.mod_pos_bound (b2 - F) K ltac:(lia)).
    apply Z.div_lt_upper_bound; [lia|]. nia.
  - assert ((b1 + b2 - F) / K < (b1 - F) / K + 2); [|lia].
    pose proof (Z.div_mod (b1 - F) K ltac:(lia)).
    pose proof (Z.mod_pos_bound (b1 - F) K ltac:(lia)).
    apply Z.div_lt_upper_bound; [lia|]. nia.
  - assert ((b1 + b2 - F) / K < (b1 - F) / K + (b2 - F) / K + 3); [|lia].
    pose proof (Z.div_mod (b1 - F) K ltac:(lia)).
    pose proof (Z.mod_pos_bound (b1 - F) K ltac:(lia)).
    pose proof (Z.div_mod (b2 - F) K ltac:(lia)).
    pose proof (Z.mod_pos_bound (b2 - F) K ltac:(lia)).
    apply Z.div_lt_upper_bound; [lia|]. nia.
Qed.

Lemma estimateCompactShares_concat_witness :
  exists n1 n2 n,
    estimateCompactShares mainnet 128 [plainTx (repeat 7 400)] = Some n1 /\
    estimateCompactShares mainnet 128 [blobBearingTx (repeat 8 300) []]
      = Some n2 /\
    estimateCompactShares mainnet 128
      ([plainTx (repeat 7 400)] ++ [blobBearingTx (repeat 8 300) []])
      = Some n /\
    n1 <= n /\ n2 <= n /\ n <= n1 + n2.
Proof.
  apply (estimateCompactShares_concat mainnet 128 [plainTx (repeat 7 400)]
           [blobBearingTx (repeat 8 300) []]).
  - exact consts_ok_mainnet.
  - vm_compute. reflexivity.
  - unfold fitsMemory. cbn. lia.
  - lia.
Defined.

(** ** The shares of the tests *)

Lemma shareWithData_eq (c : appconsts) (ns : list Z) (b : bool) (n : Z)
                       (d : list Z) :
  shareWithData c ns b n d
  = padShare c ((ns ++ [if b then 1 else 0])
                ++ (if b then PutUint32 n else []) ++ d).
Proof.
  unfold shareWithData. rewrite NewInfoByte_zero.
  destruct b; [rewrite <- app_assoc|]; reflexivity.
Qed.

Lemma shareWithData_split (c : appconsts) (ns : list Z) (b : bool) (n : Z)
                          (d : list Z) :
  shareWithData c ns b n d
  = (ns ++ [if b then 1 else 0]) ++ (if b then PutUint32 n else [])
    ++ d
    ++ repeat 0 (Z.to_nat
                   (ShareSize c - len ns - ShareInfoBytes
                    - (if b then SequenceLenBytes else 0) - len d)).
Proof.
  rewrite shareWithData_eq. unfold padShare.
  rewrite <- !app_assoc. do 4 f_equal. f_equal.
  unfold len, ShareInfoBytes, SequenceLenBytes. rewrite !length_app.
  destruct b; cbn [length PutUint32]; lia.
Qed.

Lemma IsSequenceStart_shareWithData (c : appconsts) (ns : list Z) (b : bool)
                                    (n : Z) (d : list Z) :
  len ns = NamespaceSize c ->
  IsSequenceStart c (shareWithData c ns b n d) = b.
Proof.
  intros Hns. unfold IsSequenceStart, infoByteOf.
  rewrite shareWithData_split, <- Hns, <- !app_assoc. cbn [app].
  rewrite nth_len_app. now destruct b.
Qed.

Lemma shareContent_shareWithData (c : appconsts) (ns : list Z) (b : bool)
                                 (n : Z) (d : list Z) :
  len ns = NamespaceSize c ->
  shareContent c (shareWithData c ns b n d)
  = d ++ repeat 0 (Z.to_nat
                     (ShareSize c - len ns - ShareInfoBytes
                      - (if b then SequenceLenBytes else 0) - len d)).
Proof.
  intros Hns. unfold shareContent.
  rewrite IsSequenceStart_shareWithData by assumption.
  rewrite shareWithData_split.
  set (tail := d ++ repeat 0 _).
  replace (NamespaceSize c + ShareInfoBytes
           + (if b then SequenceLenBytes else 0))
    with (len ((ns ++ [if b then 1 else 0])
               ++ (if b then PutUint32 n else []))).
  - rewrite app_assoc. apply skipn_len_app.
  - rewrite <- Hns. unfold len, ShareInfoBytes, SequenceLenBytes.
    rewrite !length_app. destruct b; cbn [length PutUint32]; lia.
Qed.

Lemma SequenceLen_shareWithData (c : appconsts) (ns : list Z) (b : bool)
                                (n : Z) (d : list Z) :
  len ns = NamespaceSize c -> 0 <= n < 2 ^ 32 ->
  SequenceLen c (shareWithData c ns b n d) = if b then n else 0.
Proof.
  intros Hns Hn. unfold SequenceLen.
  rewrite IsSequenceStart_shareWithData by assumption.
  destruct b; [|reflexivity].
  rewrite shareWithData_split.
  replace (NamespaceSize c + ShareInfoBytes) with (len (ns ++ [1])).
  - rewrite skipn_len_app. now apply Uint32_PutUint32.
  - rewrite <- Hns. unfold len, ShareInfoBytes. rewrite length_app.
    cbn [length]. lia.
Qed.

(** X15.  The share that [shareWithData] builds, when header and data fit
    in [ShareSize] bytes: it has exactly [ShareSize] bytes, it starts with
    the namespace, and its fields read back as written: the
    sequence-start flag, the sequence length (zero when the share does not
    start a sequence), and as content the data followed by zero bytes. *)
Theorem shareWithData_fields
  (c : appconsts) (namespace : list byte) (isSequenceStart : bool)
  (sequenceLen : Z) (data : list byte) :
  len namespace = NamespaceSize c ->
  0 <= sequenceLen < 2 ^ 32 ->
  len namespace + ShareInfoBytes
  + (if isSequenceStart then SequenceLenBytes else 0) + len data
  <= ShareSize c ->
  let share := shareWithData c namespace isSequenceStart sequenceLen data in
  len share = ShareSize c /\
  firstn (Z.to_nat (NamespaceSize c)) share = namespace /\
  IsSequenceStart c share = isSequenceStart /\
  SequenceLen c share = (if isSequenceStart then sequenceLen else 0) /\
  shareContent c share
  = data ++ repeat 0 (Z.to_nat
                        (ShareSize c - len namespace - ShareInfoBytes
                         - (if isSequenceStart then SequenceLenBytes else 0)
                         - len data)).
Proof.
  intros Hns Hn Hfit. cbv zeta. split; [|split; [|split; [|split]]].
  - rewrite shareWithData_split.
    unfold len, ShareInfoBytes, SequenceLenBytes in *.
    rewrite !length_app, repeat_length.
    destruct isSequenceStart; cbn [length PutUint32] in *; lia.
  - rewrite shareWithData_split, <- Hns, <- !app_assoc.
    apply firstn_len_app.
  - now apply IsSequenceStart_shareWithData.
  - now apply SequenceLen_shareWithData.
  - now apply shareContent_shareWithData.
Qed.

Lemma shareWithData_fields_witness :
  let share := shareWithData mainnet (repeat 1 8) true 3 [7; 8; 9] in
  len share = ShareSize mainnet /\
  firstn (Z.to_nat (NamespaceSize mainnet)) share = repeat 1 8 /\
  IsSequenceStart mainnet share = true /\
  SequenceLen mainnet share = (if true then 3 else 0) /\
  shareContent mainnet share
  = [7; 8; 9]
    ++ repeat 0 (Z.to_nat
                   (ShareSize mainnet - len (repeat 1 8) - ShareInfoBytes
                    - (if true then SequenceLenBytes else 0)
                    - len [7; 8; 9])).
Proof.
  apply (shareWithData_fields mainnet (repeat 1 8) true 3 [7; 8; 9]).
  - reflexivity.
  - lia.
  - vm_compute. discriminate.
Defined.

Lemma rest_content (c : appconsts) (ns : list Z) (rest : list (list Z)) :
  len ns = NamespaceSize c ->
  Forall (fun m => len m = ShareSize c - NamespaceSize c - ShareInfoBytes)
         (removelast rest) ->
  exists pad,
    concat (map (shareContent c) (map (shareWithData c ns false 0) rest))
    = concat rest ++ pad.
Proof.
  intros Hns. induction rest as [|m rest IH]; intros H.
  - exists []. reflexivity.
  - cbn [map concat]. rewrite shareContent_shareWithData by assumption.
    destruct rest as [|m' rest].
    + cbn [map concat]. rewrite !app_nil_r. eexists. reflexivity.
    + change (removelast (m :: m' :: rest))
        with (m :: removelast (m' :: rest)) in H.
      apply Forall_cons_iff in H as [Hm H].
      destruct (IH H) as (pad & ->). exists pad.
      replace (ShareSize c - len ns - ShareInfoBytes - 0 - len m) with 0
        by lia.
      cbn [Z.to_nat repeat]. now rewrite app_nil_r, app_assoc.
Qed.

(** X16.  [RawData] gives back what [shareWithData] wrote: for a first share
    and continuation shares built by [shareWithData] from pieces of data, of
    which every piece but the last fills its share, with the total length
    as the declared sequence length, [RawData] returns the pieces in order
    and nothing else; the padding of the last share is cut off. *)
Theorem RawData_shareWithData
  (c : appconsts) (id namespace data : list byte) (rest : list (list byte)) :
  len namespace = NamespaceSize c ->
  (rest <> [] ->
   len data
   = ShareSize c - NamespaceSize c - ShareInfoBytes - SequenceLenBytes) ->
  Forall (fun m => len m = ShareSize c - NamespaceSize c - ShareInfoBytes)
         (removelast rest) ->
  len (data ++ concat rest) < 2 ^ 32 ->
  RawData c
    {| NamespaceID := id;
       Shares :=
         shareWithData c namespace true (len (data ++ concat rest)) data
         :: map (shareWithData c namespace false 0) rest |}
  = (data ++ concat rest, None).
Proof.
  intros Hns Hfirst Hrest Hlen. rewrite RawData_eq. cbn [Shares].
  rewrite IsSequenceStart_shareWithData by assumption.
  pose proof (len_nonneg (data ++ concat rest)).
  rewrite SequenceLen_shareWithData by (assumption || lia).
  cbn [map concat]. rewrite shareContent_shareWithData by assumption.
  destruct (rest_content c namespace rest Hns Hrest) as (pad & ->).
  f_equal. destruct rest as [|m rest].
  - cbn [concat]. rewrite !app_nil_r, <- app_assoc. apply firstn_len_app.
  - rewrite (Hfirst ltac:(discriminate)), Hns.
    replace (ShareSize c - NamespaceSize c - ShareInfoBytes
             - SequenceLenBytes
             - (ShareSize c - NamespaceSize c - ShareInfoBytes
                - SequenceLenBytes)) with 0 by lia.
    cbn [Z.to_nat repeat]. rewrite app_nil_r, app_assoc.
    apply firstn_len_app.
Qed.

Lemma RawData_shareWithData_witness :
  RawData mainnet
    {| NamespaceID := TxNamespaceID mainnet;
       Shares :=
         shareWithData mainnet (repeat 7 8) true
           (len (repeat 15 499 ++ concat [[15]])) (repeat 15 499)
         :: map (shareWithData mainnet (repeat 7 8) false 0) [[15]] |}
  = (repeat 15 499 ++ concat [[15]], None).
Proof.
  apply (RawData_shareWithData mainnet (TxNamespaceID mainnet) (repeat 7 8)
           (repeat 15 499) [[15]]).
  - reflexivity.
  - intros _. reflexivity.
  - constructor.
  - vm_compute. reflexivity.
Defined.
